(** * be_indexer: entries holder and index builder

    A shallow embedding of [entries_holder.go] (the hash-map backed
    [DefaultEntriesHolder]) and of the index builder ([IndexerBuilder],
    [AddDocument], [buildDocEntries], the transaction cache), together with
    the properties of the specification that concern them.

    Conventions.
    - Go [uint64]/[int64]/[int] values are [Z]; the one place where an
      [int64] accumulates a sum ([total += ...]) writes the wrap-around out.
    - A Go [map] is a [gmap]; a Go slice is a [list] ([nil] is [[]]).
    - Methods with a pointer receiver are state transformers.
    - A Go [error] is a value of [error]; a [panic] is an outcome of its own.
    - [Logger] calls have no effect on the modelled state and are left out.

    Layout: [Holder] and [Builder] hold the embedding, [Sample] one
    concrete set of collaborators and inputs; [HolderProofs] and
    [BuilderProofs] hold the properties, [Examples] their instances on
    the sample inputs. *)

From stdpp Require Import gmap strings list fin_maps sorting.
From Stdlib Require Import ZArith Lia.

Local Open Scope Z_scope.

(** ** Errors and results *)

(** Go [error] values.  [ExternalError] stands for an error produced by a
    collaborator (a value parser, a holder, a TxData encoder); the other
    constructors are the [fmt.Errorf] calls of the two source files. *)
Inductive error : Type :=
| ExternalError (msg : string)
| ErrParseValueFail (field : string) (cause : error)
| ErrConfigureTwice (field : string)
| ErrNoConjunctions
| ErrTooManyConjunctions
| ErrIndexingField (field : string) (cause : error)
| ErrIndexingConj (conjID : Z) (cause : error).

Inductive result (A : Type) : Type :=
| Ok (a : A)
| Err (e : error).
Arguments Ok {A} a.
Arguments Err {A} e.

(** [int64] wrap-around (two's complement). *)
Definition int64_wrap (z : Z) : Z := (z + 2 ^ 63) mod 2 ^ 64 - 2 ^ 63.

(** [len(s)] as a Go integer. *)
Definition len {A} (s : list A) : Z := Z.of_nat (length s).

(** ** entries_holder.go *)

Module Holder.

(** Modelled from the spec: the [sort.Interface] methods of [Entries]
    ([Len], [Less], [Swap]) are missing from the sources; entry sequences
    are sorted ascending by the integer order of EntryIDs.
    [sort.Sort(entries)] then leaves the unique ascending arrangement of
    the slice, whatever algorithm produces it. *)
Definition sort_entries (entries : list Z) : list Z := merge_sort Z.le entries.

Section holder.
(** Collaborators of the holder that live in other files: the value type
    of expressions and assignments, the posting-list key, the query key
    and the cursor over a posting list. *)
Context {Val : Type}.
Context {Key : Type} `{Countable Key}.
Variable NewKey : Z -> Z -> Key.
Context {QKey : Type}.
Variable newQKey : string -> Val -> QKey.
Context {EntriesCursor : Type}.
Variable NewEntriesCursor : QKey -> list Z -> EntriesCursor.

(** [parser.FieldValueParser] *)
Record FieldValueParser : Type := {
  ParseValue : Val -> result (list Z);
  ParseAssign : Val -> result (list Z)
}.

Record fieldDesc : Type := {
  ID : Z;
  Field : string;
  Parser : FieldValueParser
}.

Record DefaultEntriesHolder : Type := {
  debug : bool;
  maxLen : Z;
  avgLen : Z;
  plEntries : gmap Key (list Z)
}.

Definition set_debug (d : bool) (h : DefaultEntriesHolder) :=
  {| debug := d; maxLen := maxLen h; avgLen := avgLen h; plEntries := plEntries h |}.
Definition set_maxLen (n : Z) (h : DefaultEntriesHolder) :=
  {| debug := debug h; maxLen := n; avgLen := avgLen h; plEntries := plEntries h |}.
Definition set_avgLen (n : Z) (h : DefaultEntriesHolder) :=
  {| debug := debug h; maxLen := maxLen h; avgLen := n; plEntries := plEntries h |}.
Definition set_plEntries (m : gmap Key (list Z)) (h : DefaultEntriesHolder) :=
  {| debug := debug h; maxLen := maxLen h; avgLen := avgLen h; plEntries := m |}.

(** Methods on [*DefaultEntriesHolder] run in a state monad over the
    holder. *)
Definition M (A : Type) : Type := DefaultEntriesHolder -> A * DefaultEntriesHolder.
Definition ret {A} (a : A) : M A := fun h => (a, h).
Definition bind {A B} (m : M A) (k : A -> M B) : M B :=
  fun h => let '(a, h') := m h in k a h'.
Definition get : M DefaultEntriesHolder := fun h => (h, h).
Definition modify (f : DefaultEntriesHolder -> DefaultEntriesHolder) : M unit :=
  fun h => (tt, f h).

Notation "x <- m ;; k" := (bind m (fun x => k))
  (at level 100, m at next level, right associativity).
Notation "m ;;; k" := (bind m (fun _ => k))
  (at level 100, right associativity).

Definition NewDefaultEntriesHolder : DefaultEntriesHolder :=
  {| debug := false; maxLen := 0; avgLen := 0; plEntries := ∅ |}.

Definition EnableDebug (d : bool) : M unit := modify (set_debug d).

(** [h.plEntries[key] = v] *)
Definition store (key : Key) (v : list Z) : M unit :=
  modify (fun h => set_plEntries (<[key := v]> (plEntries h)) h).

(** [entries, hit := h.plEntries[key]] *)
Definition load (key : Key) : M (list Z * bool) :=
  h <- get ;;
  ret (match plEntries h !! key with
       | Some entries => (entries, true)
       | None => ([], false)
       end).

Definition AppendEntryID (key : Key) (id : Z) : M unit :=
  r <- load key ;;
  let '(entries, hit) := r in
  (if negb hit then store key [id] else ret tt) ;;;
  let entries := entries ++ [id] in
  store key entries.

Definition getEntries (key : Key) : M (list Z) :=
  r <- load key ;;
  let '(entries, hit) := r in
  if hit then ret entries else ret [].

(** The inner loop of [GetEntries]: [for _, id := range ids]. *)
Fixpoint GetEntries_ids (field : fieldDesc) (vi : Val) (ids : list Z)
    (r : list EntriesCursor) : M (list EntriesCursor) :=
  match ids with
  | [] => ret r
  | id :: ids' =>
      let key := NewKey (ID field) id in
      entries <- getEntries key ;;
      let r := if 0 <? len entries
               then r ++ [NewEntriesCursor (newQKey (Field field) vi) entries]
               else r in
      GetEntries_ids field vi ids' r
  end.

(** The outer loop: [for _, vi := range assigns].  The pair returned is
    Go's [(r CursorGroup, e error)]. *)
Fixpoint GetEntries_loop (field : fieldDesc) (assigns : list Val)
    (r : list EntriesCursor) : M (list EntriesCursor * option error) :=
  match assigns with
  | [] => ret (r, None)
  | vi :: assigns' =>
      match ParseAssign (Parser field) vi with
      | Err e => ret ([], Some e)
      | Ok ids =>
          r <- GetEntries_ids field vi ids r ;;
          GetEntries_loop field assigns' r
      end
  end.

Definition GetEntries (field : fieldDesc) (assigns : list Val)
    : M (list EntriesCursor * option error) :=
  GetEntries_loop field assigns [].

Fixpoint AddFieldEID_ids (field : fieldDesc) (ids : list Z) (eid : Z) : M unit :=
  match ids with
  | [] => ret tt
  | id :: ids' =>
      AppendEntryID (NewKey (ID field) id) eid ;;;
      AddFieldEID_ids field ids' eid
  end.

Fixpoint AddFieldEID (field : fieldDesc) (values : list Val) (eid : Z)
    : M (option error) :=
  match values with
  | [] => ret None
  | value :: values' =>
      match ParseValue (Parser field) value with
      | Err err => ret (Some (ErrParseValueFail (Field field) err))
      | Ok ids =>
          AddFieldEID_ids field ids eid ;;;
          AddFieldEID field values' eid
      end
  end.

(** The body of [for _, entries := range h.plEntries] in
    [makeEntriesSorted], threading the local [total].  [sort.Sort] sorts
    the slice in place, so the list stored under the key is afterwards the
    sorted one. *)
Definition makeEntriesSorted_body (kv : Key * list Z) (total : Z) : M Z :=
  let '(key, entries) := kv in
  store key (sort_entries entries) ;;;
  h <- get ;;
  (if maxLen h <? len entries
   then modify (set_maxLen (len entries))
   else ret tt) ;;;
  ret (int64_wrap (total + len entries)).

Fixpoint makeEntriesSorted_loop (kvs : list (Key * list Z)) (total : Z) : M Z :=
  match kvs with
  | [] => ret total
  | kv :: kvs' =>
      total <- makeEntriesSorted_body kv total ;;
      makeEntriesSorted_loop kvs' total
  end.

(** Go leaves the iteration order of a map unspecified; [map_to_list] is
    one such order, and the loop gives the same result in every other
    (lemma [makeEntriesSorted_any_order]). *)
Definition makeEntriesSorted : M unit :=
  h <- get ;;
  total <- makeEntriesSorted_loop (map_to_list (plEntries h)) 0 ;;
  h <- get ;;
  if 0 <? Z.of_nat (size (plEntries h))
  then modify (set_avgLen (Z.quot total (Z.of_nat (size (plEntries h)))))
  else ret tt.

Definition CompileEntries : M unit := makeEntriesSorted.

(** *** Holders that the API can produce

    The fields of [DefaultEntriesHolder] are private: a holder is made by
    [NewDefaultEntriesHolder] and changed only through its methods. *)
Inductive step : DefaultEntriesHolder -> DefaultEntriesHolder -> Prop :=
| step_EnableDebug d h :
    step h (EnableDebug d h).2
| step_AppendEntryID key id h :
    step h (AppendEntryID key id h).2
| step_AddFieldEID field values eid h :
    step h (AddFieldEID field values eid h).2
| step_GetEntries field assigns h :
    step h (GetEntries field assigns h).2
| step_CompileEntries h :
    step h (CompileEntries h).2.

Inductive reachable : DefaultEntriesHolder -> Prop :=
| reachable_new : reachable NewDefaultEntriesHolder
| reachable_step h h' : reachable h -> step h h' -> reachable h'.

(** What every reachable holder satisfies: [maxLen] is non-negative and
    not above the longest list held, and [avgLen] is still 0 while no key
    is present. *)
Definition stats_inv (h : DefaultEntriesHolder) : Prop :=
  0 <= maxLen h /\
  (maxLen h = 0 \/
   exists key P, plEntries h !! key = Some P /\ maxLen h <= len P) /\
  (plEntries h = ∅ -> avgLen h = 0).

(** [h'] holds everything [h] holds and possibly more, with the same
    statistics: the effect of any number of appends. *)
Definition extends (h h' : DefaultEntriesHolder) : Prop :=
  maxLen h' = maxLen h /\ avgLen h' = avgLen h /\
  (plEntries h' = ∅ -> plEntries h = ∅) /\
  forall key P, plEntries h !! key = Some P ->
    exists P', plEntries h' !! key = Some P' /\ len P <= len P'.

(** The total number of entries held, over all keys. *)
Definition total_len (m : gmap Key (list Z)) : Z :=
  foldr Z.add 0 ((fun kv : Key * list Z => len kv.2) <$> map_to_list m).

(** *** [GetEntries] as the specification words it

    For each query value, [ParseAssign] to token ids; for each id whose
    posting list is non-empty, one cursor tagged [QKey(field, value)];
    any parse error aborts the query with no cursors. *)
Definition cursor_of (field : fieldDesc) (h : DefaultEntriesHolder)
    (vi : Val) (id : Z) : option EntriesCursor :=
  match plEntries h !! NewKey (ID field) id with
  | Some (e :: es) =>
      Some (NewEntriesCursor (newQKey (Field field) vi) (e :: es))
  | _ => None
  end.

Fixpoint parse_assigns (p : FieldValueParser) (assigns : list Val)
    : result (list (Val * list Z)) :=
  match assigns with
  | [] => Ok []
  | vi :: assigns' =>
      match ParseAssign p vi with
      | Err e => Err e
      | Ok ids =>
          match parse_assigns p assigns' with
          | Err e => Err e
          | Ok rest => Ok ((vi, ids) :: rest)
          end
      end
  end.

Definition GetEntries_spec (field : fieldDesc) (assigns : list Val)
    (h : DefaultEntriesHolder) : list EntriesCursor * option error :=
  match parse_assigns (Parser field) assigns with
  | Err e => ([], Some e)
  | Ok parsed =>
      (concat ((fun vi_ids : Val * list Z =>
                  omap (cursor_of field h vi_ids.1) vi_ids.2) <$> parsed),
       None)
  end.

End holder.
End Holder.

(** ** The index builder *)

(** Generated protobuf messages of package [cache]. *)
Module cache.
Record FieldCache (Bytes : Type) : Type := {
  Eid : Z;
  Data : Bytes
}.
Arguments Eid {Bytes} _.
Arguments Data {Bytes} _.

Record IndexingTxCache (Bytes : Type) : Type := {
  ConjunctionId : Z;
  FieldData : gmap string (FieldCache Bytes)
}.
Arguments ConjunctionId {Bytes} _.
Arguments FieldData {Bytes} _.
End cache.

Module Builder.

Definition ErrorBadConj : Z := 0.
Definition SkipBadConj : Z := 1.
Definition PanicBadConj : Z := 2.

Definition IndexerTypeDefault : Z := 0.
Definition IndexerTypeCompact : Z := 1.

Record FieldOption : Type := {
  Parser : string;
  Container : string
}.

(** [FieldDesc]; its [Parser] is left at the zero value by
    [configureField] and is not read by the builder. *)
Record FieldDesc : Type := {
  ID : Z;
  Field : string;
  Option : FieldOption
}.

(** What a Go function leaves behind: a normal return or a panic. *)
Inductive outcome (A : Type) : Type :=
| Returned (a : A)
| Panicked (msg : string).
Arguments Returned {A} a.
Arguments Panicked {A} msg.

(** [Conjunction.Expressions] is a [map[BEField][]*Expr].  Go visits a map
    in an unspecified order, so a conjunction is given here by the sequence
    in which [range] visits it: every result below holds for every such
    sequence. *)
Record Conjunction (Expr : Type) : Type := {
  Expressions : list (string * list Expr)
}.
Arguments Expressions {Expr} _.

(** [Document]; [DocID] is its field [ID].  [Cons] holds the conjunctions
    that the pointers of [doc.Cons] point to, and a conjunction the
    expressions its pointers point to; only a nil document is modelled
    (in [AddDocument]), nil pointers inside a document are not. *)
Record Document (Expr : Type) : Type := {
  DocID : Z;
  Cons : list (Conjunction Expr)
}.
Arguments DocID {Expr} _.
Arguments Cons {Expr} _.

Record IndexingBETx (HolderRef TxData : Type) : Type := {
  field : FieldDesc;
  holder : HolderRef;
  EID : Z;
  Data : TxData
}.
Arguments field {HolderRef TxData} _.
Arguments holder {HolderRef TxData} _.
Arguments EID {HolderRef TxData} _.
Arguments Data {HolderRef TxData} _.

(** *** Collaborators defined in other files of the repository

    The builder is written against interfaces and helpers whose code is in
    other files; it is embedded over any implementation of them.
    - [Expr], [Incl]: a boolean expression and its inclusion flag;
      [CalcConjSize]: the size K of a conjunction; [NewConjID],
      [ConjID_Size], [NewEntryID]: the packing of conjunction and entry ids;
      [HolderNameDefault]: the name of the default holder.
    - [TxData] with [BetterToCache] and [Encode]; [Bytes] is an encoded
      [TxData], [Wire] a serialized [cache.IndexingTxCache] message.
    - Holders: [b.indexer.newContainer(k).CreateHolder(desc)] names the
      holder that serves field [desc] for conjunctions of size [k]; all
      holders of the index live in one [Store], and only
      [CommitIndexingBETx] writes to it.  [IndexingBETx] tokenizes an
      expression and may advance the builder's [idAllocator].
    - [Cache] is a [CacheProvider].
    - [NewKGroupsBEIndex_holders], [NewCompactedBEIndex_holders]: the
      holders of a new index of either kind; [NewIDAllocatorImpl]: a new
      id allocator. *)
Class Collaborators : Type := {
  Expr : Type;
  Incl : Expr -> bool;
  CalcConjSize : Conjunction Expr -> Z;
  NewConjID : Z -> Z -> Z -> Z;
  ConjID_Size : Z -> Z;
  NewEntryID : Z -> bool -> Z;
  HolderNameDefault : string;
  TxData : Type;
  Bytes : Type;
  Wire : Type;
  BetterToCache : TxData -> bool;
  Encode : TxData -> result Bytes;
  proto_Marshal : cache.IndexingTxCache Bytes -> result Wire;
  proto_Unmarshal : Wire -> result (cache.IndexingTxCache Bytes);
  HolderRef : Type;
  Store : Type;
  Alloc : Type;
  CreateHolder : Z -> FieldDesc -> HolderRef;
  holder_IndexingBETx :
    HolderRef -> FieldDesc -> Expr -> Alloc -> result TxData * Alloc;
  holder_DecodeTxData : HolderRef -> Bytes -> result TxData;
  holder_CommitIndexingBETx :
    IndexingBETx HolderRef TxData -> Store -> result Store;
  Cache : Type;
  cache_Get : Cache -> Z -> option Wire;
  cache_Set : Cache -> Z -> Wire -> Cache;
  cache_Reset : Cache -> Cache;
  NewKGroupsBEIndex_holders : Store;
  NewCompactedBEIndex_holders : Store;
  NewIDAllocatorImpl : Alloc
}.

Section builder.
Context `{Collaborators}.

Abbreviation Tx := (IndexingBETx HolderRef TxData).

(** The index under construction: [indexBase] and the holders. *)
Record BEIndex : Type := {
  index_fieldsData : gmap string FieldDesc;
  wildcardEntries : list Z;
  holders : Store
}.

Record IndexerBuilder : Type := {
  indexerType : Z;
  builderCache : option Cache;
  badConjBehavior : Z;
  indexer : BEIndex;
  fieldsData : gmap string FieldDesc;
  idAllocator : Alloc
}.

Definition set_wildcardEntries (w : list Z) (i : BEIndex) : BEIndex :=
  {| index_fieldsData := index_fieldsData i; wildcardEntries := w;
     holders := holders i |}.
Definition set_holders (s : Store) (i : BEIndex) : BEIndex :=
  {| index_fieldsData := index_fieldsData i;
     wildcardEntries := wildcardEntries i; holders := s |}.
Definition set_indexer (i : BEIndex) (b : IndexerBuilder) : IndexerBuilder :=
  {| indexerType := indexerType b; builderCache := builderCache b;
     badConjBehavior := badConjBehavior b; indexer := i;
     fieldsData := fieldsData b; idAllocator := idAllocator b |}.
Definition set_fieldsData (m : gmap string FieldDesc) (b : IndexerBuilder)
    : IndexerBuilder :=
  {| indexerType := indexerType b; builderCache := builderCache b;
     badConjBehavior := badConjBehavior b; indexer := indexer b;
     fieldsData := m; idAllocator := idAllocator b |}.
Definition set_builderCache (c : option Cache) (b : IndexerBuilder)
    : IndexerBuilder :=
  {| indexerType := indexerType b; builderCache := c;
     badConjBehavior := badConjBehavior b; indexer := indexer b;
     fieldsData := fieldsData b; idAllocator := idAllocator b |}.
Definition set_idAllocator (a : Alloc) (b : IndexerBuilder) : IndexerBuilder :=
  {| indexerType := indexerType b; builderCache := builderCache b;
     badConjBehavior := badConjBehavior b; indexer := indexer b;
     fieldsData := fieldsData b; idAllocator := a |}.

(** *** The builder monad: state plus panic *)
Definition B (A : Type) : Type := IndexerBuilder -> outcome A * IndexerBuilder.
Definition ret {A} (a : A) : B A := fun b => (Returned a, b).
Definition bind {A C} (m : B A) (k : A -> B C) : B C :=
  fun b => match m b with
           | (Returned a, b') => k a b'
           | (Panicked msg, b') => (Panicked msg, b')
           end.
Definition get : B IndexerBuilder := fun b => (Returned b, b).
Definition modify (f : IndexerBuilder -> IndexerBuilder) : B unit :=
  fun b => (Returned tt, f b).
Definition panic {A} (msg : string) : B A := fun b => (Panicked msg, b).

Notation "x <- m ;; k" := (bind m (fun x => k))
  (at level 100, m at next level, right associativity).
Notation "m ;;; k" := (bind m (fun _ => k))
  (at level 100, right associativity).

(** [BuilderOpt] is [func(builder *IndexerBuilder)], an exported type: an
    option is any function on the builder, a caller's own included, which
    may change any part of the builder, call its methods or panic; [None]
    is a nil function. *)
Definition BuilderOpt : Type := option (B unit).

Definition WithBadConjBehavior (v : Z) : BuilderOpt :=
  Some (modify (fun builder =>
    {| indexerType := indexerType builder;
       builderCache := builderCache builder;
       badConjBehavior := v; indexer := indexer builder;
       fieldsData := fieldsData builder;
       idAllocator := idAllocator builder |})).

Definition WithCacheProvider (provider : option Cache) : BuilderOpt :=
  Some (modify (set_builderCache provider)).

Definition WithIndexerType (t : Z) : BuilderOpt :=
  Some (modify (fun builder =>
    {| indexerType := t; builderCache := builderCache builder;
       badConjBehavior := badConjBehavior builder;
       indexer := indexer builder; fieldsData := fieldsData builder;
       idAllocator := idAllocator builder |})).

(** The call [optFn(builder)]; calling a nil function panics. *)
Definition callOpt (optFn : BuilderOpt) : B unit :=
  match optFn with
  | Some fn => fn
  | None => panic "invalid memory address or nil pointer dereference"
  end.

(** [for _, optFn := range opts { optFn(builder) }] *)
Fixpoint applyOpts (opts : list BuilderOpt) : B unit :=
  match opts with
  | [] => ret tt
  | optFn :: opts' => callOpt optFn ;;; applyOpts opts'
  end.

Definition NewKGroupsBEIndex : BEIndex :=
  {| index_fieldsData := ∅; wildcardEntries := [];
     holders := NewKGroupsBEIndex_holders |}.

Definition NewCompactedBEIndex : BEIndex :=
  {| index_fieldsData := ∅; wildcardEntries := [];
     holders := NewCompactedBEIndex_holders |}.

Definition initIndexer : B unit :=
  b <- get ;;
  if indexerType b =? IndexerTypeDefault
  then modify (set_indexer NewKGroupsBEIndex)
  else if indexerType b =? IndexerTypeCompact
  then modify (set_indexer NewCompactedBEIndex)
  else panic "type not supported".

(** The literal [&IndexerBuilder{indexer: ..., fieldsData: ...,
    idAllocator: ...}] of [NewIndexerBuilder]; the other fields have their
    zero values. *)
Definition emptyBuilder : IndexerBuilder :=
  {| indexerType := 0; builderCache := None; badConjBehavior := 0;
     indexer := NewKGroupsBEIndex; fieldsData := ∅;
     idAllocator := NewIDAllocatorImpl |}.

(** [NewIndexerBuilder(opts...)]: the new builder, or the panic of an
    option or of [initIndexer]. *)
Definition NewIndexerBuilder (opts : list BuilderOpt) : outcome IndexerBuilder :=
  let builder := emptyBuilder in
  match (applyOpts opts ;;; initIndexer) builder with
  | (Returned _, builder) => Returned builder
  | (Panicked msg, _) => Panicked msg
  end.

Definition Reset : B unit :=
  initIndexer ;;;
  b <- get ;;
  match builderCache b with
  | Some c => modify (set_builderCache (Some (cache_Reset c)))
  | None => ret tt
  end.

Definition NewCompactIndexerBuilder (opts : list BuilderOpt)
    : outcome IndexerBuilder :=
  let opts := opts ++ [WithIndexerType IndexerTypeCompact] in
  NewIndexerBuilder opts.

(** [util.PanicIf] and [util.PanicIfErr] *)
Definition PanicIf (cond : bool) (msg : string) : B unit :=
  if cond then panic msg else ret tt.
Definition PanicIfErr {A} (r : result A) (msg : string) : B A :=
  match r with
  | Ok a => ret a
  | Err _ => panic msg
  end.

(** [indexBase.addWildcardEID] through [b.indexer] *)
Definition addWildcardEID (id : Z) : B unit :=
  modify (fun b =>
    set_indexer (set_wildcardEntries (wildcardEntries (indexer b) ++ [id])
                   (indexer b)) b).

Definition configureField (fld : string) (opt : FieldOption)
    : B (result FieldDesc) :=
  b <- get ;;
  match fieldsData b !! fld with
  | Some _ => ret (Err (ErrConfigureTwice fld))
  | None =>
      let opt :=
        if Z.of_nat (String.length (Container opt)) =? 0
        then {| Parser := Parser opt; Container := HolderNameDefault |}
        else opt in
      let fieldID := Z.of_nat (size (fieldsData b)) in
      let desc := {| ID := fieldID; Field := fld; Option := opt |} in
      modify (fun b => set_fieldsData (<[fld := desc]> (fieldsData b)) b) ;;;
      ret (Ok desc)
  end.

Definition ConfigField (fld : string) (settings : FieldOption) : B unit :=
  r <- configureField fld settings ;;
  PanicIfErr r "config field with option fail" ;;;
  ret tt.

Definition validDocument (doc : Document Expr) : option error :=
  if len (Cons doc) =? 0 then Some ErrNoConjunctions
  else if 255 <? len (Cons doc) then Some ErrTooManyConjunctions
  else None.

Definition createFieldData (fld : string) : B FieldDesc :=
  b <- get ;;
  match fieldsData b !! fld with
  | Some desc => ret desc
  | None =>
      r <- configureField fld {| Parser := EmptyString; Container := HolderNameDefault |} ;;
      PanicIfErr r "this should not happened for default settings"
  end.

(** [holder.IndexingBETx(desc, expr)], threading [b.idAllocator]. *)
Definition runIndexingBETx (h : HolderRef) (desc : FieldDesc) (expr : Expr)
    : B (result TxData) :=
  b <- get ;;
  let '(r, a) := holder_IndexingBETx h desc expr (idAllocator b) in
  modify (set_idAllocator a) ;;;
  ret r.

(** Inner loop of [indexingConjunction]: [for _, expr := range exprs].
    The accumulator is [(conjIndexingTXs, needCacheCnt)]. *)
Fixpoint indexingConjunction_exprs (fld : string) (exprs : list Expr)
    (conjID incSize : Z) (acc : list Tx * Z)
    : B (result (list Tx * Z)) :=
  match exprs with
  | [] => ret (Ok acc)
  | expr :: exprs' =>
      let '(conjIndexingTXs, needCacheCnt) := acc in
      desc <- createFieldData fld ;;
      let holder := CreateHolder incSize desc in
      r <- runIndexingBETx holder desc expr ;;
      match r with
      | Err err => ret (Err (ErrIndexingField fld err))
      | Ok txData =>
          let entryID := NewEntryID conjID (Incl expr) in
          let needCacheCnt :=
            if BetterToCache txData then needCacheCnt + 1 else needCacheCnt in
          let tx := {| field := desc; holder := holder; EID := entryID;
                       Data := txData |} in
          indexingConjunction_exprs fld exprs' conjID incSize
            (conjIndexingTXs ++ [tx], needCacheCnt)
      end
  end.

(** Outer loop: [for field, exprs := range conj.Expressions]. *)
Fixpoint indexingConjunction_fields (fields : list (string * list Expr))
    (conjID incSize : Z) (acc : list Tx * Z)
    : B (result (list Tx * Z)) :=
  match fields with
  | [] => ret (Ok acc)
  | (fld, exprs) :: fields' =>
      r <- indexingConjunction_exprs fld exprs conjID incSize acc ;;
      match r with
      | Err err => ret (Err err)
      | Ok acc => indexingConjunction_fields fields' conjID incSize acc
      end
  end.

(** [indexingConjunction] returns Go's [(txs, needCache, err)]: either
    [(nil, false, err)] or [(txs, needCache, nil)]. *)
Definition indexingConjunction (conj : Conjunction Expr) (conjID : Z)
    : B (result (list Tx * bool)) :=
  let incSize := ConjID_Size conjID in
  r <- indexingConjunction_fields (Expressions conj) conjID incSize ([], 0) ;;
  match r with
  | Err err => ret (Err err)
  | Ok (conjIndexingTXs, needCacheCnt) =>
      ret (Ok (conjIndexingTXs, 0 <? needCacheCnt))
  end.

(** The loop of [tryUseIndexingTxCache] over [txCache.FieldData]; [None]
    is the early [return nil] on a decode failure. *)
Fixpoint tryUseIndexingTxCache_fields
    (fieldData : list (string * cache.FieldCache Bytes)) (incSize : Z)
    (cachedIndexingTx : list Tx) : B (option (list Tx)) :=
  match fieldData with
  | [] => ret (Some cachedIndexingTx)
  | (fld, fc) :: fieldData' =>
      desc <- createFieldData fld ;;
      let holder := CreateHolder incSize desc in
      match holder_DecodeTxData holder (cache.Data fc) with
      | Err _ => ret None
      | Ok txData =>
          let eid := cache.Eid fc in
          let tx := {| field := desc; holder := holder; EID := eid;
                       Data := txData |} in
          tryUseIndexingTxCache_fields fieldData' incSize
            (cachedIndexingTx ++ [tx])
      end
  end.

(** [tryUseIndexingTxCache]: the result [[]] is Go's [nil] (the slice is
    only ever grown by [append], so it is [nil] exactly when empty). *)
Definition tryUseIndexingTxCache (conjID : Z) : B (list Tx) :=
  b <- get ;;
  match builderCache b with
  | None => ret []
  | Some c =>
      match cache_Get c conjID with
      | None => ret []
      | Some data =>
          match proto_Unmarshal data with
          | Err _ => ret []
          | Ok txCache =>
              r <- tryUseIndexingTxCache_fields
                     (map_to_list (cache.FieldData txCache))
                     (ConjID_Size conjID) [] ;;
              match r with
              | None => ret []
              | Some cachedIndexingTx => ret cachedIndexingTx
              end
          end
      end
  end.

(** The loop of [tryCacheIndexingTx]; [None] is the early [return] on an
    encode failure. *)
Fixpoint tryCacheIndexingTx_txs (txs : list Tx)
    (fieldData : gmap string (cache.FieldCache Bytes))
    : option (gmap string (cache.FieldCache Bytes)) :=
  match txs with
  | [] => Some fieldData
  | tx :: txs' =>
      match Encode (Data tx) with
      | Err _ => None
      | Ok content =>
          tryCacheIndexingTx_txs txs'
            (<[Field (field tx) :=
                 {| cache.Eid := EID tx; cache.Data := content |}]> fieldData)
      end
  end.

Definition tryCacheIndexingTx (conjID : Z) (txs : list Tx) : B unit :=
  b <- get ;;
  match builderCache b with
  | None => ret tt
  | Some c =>
      match tryCacheIndexingTx_txs txs ∅ with
      | None => ret tt
      | Some fieldData =>
          let txCache := {| cache.ConjunctionId := conjID;
                            cache.FieldData := fieldData |} in
          match proto_Marshal txCache with
          | Ok data =>
              modify (set_builderCache (Some (cache_Set c conjID data)))
          | Err _ => ret tt
          end
      end
  end.

(** [for _, tx := range conjIndexingTxs { CommitIndexingBETx; PanicIfErr }] *)
Fixpoint commitIndexingTxs (txs : list Tx) : B unit :=
  match txs with
  | [] => ret tt
  | tx :: txs' =>
      b <- get ;;
      st <- PanicIfErr (holder_CommitIndexingBETx tx (holders (indexer b)))
              "commit indexing data failed" ;;
      modify (fun b => set_indexer (set_holders st (indexer b)) b) ;;;
      commitIndexingTxs txs'
  end.

(** How one iteration of [ConjLoop] ends. *)
Inductive flow : Type :=
| NextConj
| ReturnErr (e : error).

(** The part of the loop body after the wildcard test: cache lookup,
    indexing, caching, commit. *)
Definition indexAndCommit (conj : Conjunction Expr) (conjID : Z) : B flow :=
  conjIndexingTxs <- tryUseIndexingTxCache conjID ;;
  match conjIndexingTxs with
  | [] =>
      r <- indexingConjunction conj conjID ;;
      match r with
      | Err err =>
          b <- get ;;
          if badConjBehavior b =? SkipBadConj then ret NextConj
          else if badConjBehavior b =? ErrorBadConj
          then ret (ReturnErr (ErrIndexingConj conjID err))
          else panic "indexing conj fail"
      | Ok (conjIndexingTxs, needCache) =>
          (if needCache : bool
           then tryCacheIndexingTx conjID conjIndexingTxs
           else ret tt) ;;;
          commitIndexingTxs conjIndexingTxs ;;;
          ret NextConj
      end
  | _ :: _ =>
      commitIndexingTxs conjIndexingTxs ;;;
      ret NextConj
  end.

(** The body of [ConjLoop] for the conjunction at index [idx]. *)
Definition buildConjEntries (docID idx : Z) (conj : Conjunction Expr) : B flow :=
  let incSize := CalcConjSize conj in
  let conjID := NewConjID docID idx incSize in
  (if incSize =? 0
   then addWildcardEID (NewEntryID conjID true)
   else ret tt) ;;;
  indexAndCommit conj conjID.

(** [for idx, conj := range doc.Cons] from index [idx] on. *)
Fixpoint ConjLoop (docID idx : Z) (conjs : list (Conjunction Expr)) : B (option error) :=
  match conjs with
  | [] => ret None
  | cj :: conjs' =>
      f <- buildConjEntries docID idx cj ;;
      match f with
      | ReturnErr e => ret (Some e)
      | NextConj => ConjLoop docID (idx + 1) conjs'
      end
  end.

Definition buildDocEntries (doc : Document Expr) : B (option error) :=
  PanicIf (len (Cons doc) =? 0) "no conjunctions in this document" ;;;
  PanicIf (255 <? len (Cons doc)) "number of conjunction need less than 256" ;;;
  ConjLoop (DocID doc) 0 (Cons doc).

(** [AddDocument(docs ...*Document)]; a [nil] pointer is [None]. *)
Fixpoint AddDocument (docs : list (option (Document Expr))) : B (option error) :=
  match docs with
  | [] => ret None
  | doc :: docs' =>
      match doc with
      | None => panic "nil document not be allowed"
      | Some doc =>
          match validDocument doc with
          | Some err => ret (Some err)
          | None =>
              r <- buildDocEntries doc ;;
              match r with
              | Some err => ret (Some err)
              | None => AddDocument docs'
              end
          end
      end
  end.

(** [ConfigField] on each field of a list in turn. *)
Fixpoint ConfigFields (flds : list (string * FieldOption)) : B unit :=
  match flds with
  | [] => ret tt
  | (fld, settings) :: flds' =>
      ConfigField fld settings ;;;
      ConfigFields flds'
  end.

(** An action leaves a component [proj] of the builder as it found it,
    however it ends. *)
Definition preserves {A X} (proj : IndexerBuilder -> X) (m : B A) : Prop :=
  forall b, proj (m b).2 = proj b.

(** What is kept by the steps that only configure fields, tokenize or use
    the cache: the index (holders and wildcard entries) and the failure
    policy. *)
Definition index_of (b : IndexerBuilder) : BEIndex * Z :=
  (indexer b, badConjBehavior b).

(** What is kept by every step but a commit: the holders and the failure
    policy. *)
Definition holders_of (b : IndexerBuilder) : Store * Z :=
  (holders (indexer b), badConjBehavior b).

(** What is kept by every step but [addWildcardEID]. *)
Definition wildcard_of (b : IndexerBuilder) : list Z :=
  wildcardEntries (indexer b).

(** The state of the builder once the wildcard entry of [conjID] has been
    added. *)
Definition withWildcard (conjID : Z) (b : IndexerBuilder) : IndexerBuilder :=
  set_indexer
    (set_wildcardEntries
       (wildcardEntries (indexer b) ++ [NewEntryID conjID true]) (indexer b))
    b.
End builder.
End Builder.

(** ** A concrete set of collaborators

    One implementation of the collaborators, used to run the builder and the
    holder on concrete inputs. *)
Module Sample.

(** *** For the holder *)

Definition NewKey (fieldID id : Z) : Z * Z := (fieldID, id).
Definition newQKey (fld : string) (v : Z) : string * Z := (fld, v).
Definition NewEntriesCursor (k : string * Z) (entries : list Z)
    : (string * Z) * list Z := (k, entries).

(** A parser of integer values: a value is its own token id; negative
    values are rejected. *)
Definition parse (v : Z) : result (list Z) :=
  if v <? 0 then Err (ExternalError "negative value") else Ok [v].

Definition intParser : Holder.FieldValueParser :=
  {| Holder.ParseValue := parse; Holder.ParseAssign := parse |}.

Definition age : Holder.fieldDesc :=
  {| Holder.ID := 0; Holder.Field := "age"; Holder.Parser := intParser |}.

Definition emptyHolder : @Holder.DefaultEntriesHolder (Z * Z) _ _ :=
  Holder.NewDefaultEntriesHolder.

(** *** For the builder *)

Record BoolExpr : Type := {
  incl : bool;
  values : list Z
}.

(** Modelled from the spec: [CalcConjSize] is missing from the sources;
    K is the number of [Incl = true] expressions of the conjunction. *)
Definition CalcConjSize (c : Builder.Conjunction BoolExpr) : Z :=
  len (filter (fun e => incl e = true)
         (concat ((fun fe : string * list BoolExpr => fe.2)
                    <$> Builder.Expressions c))).

(** Modelled from the spec: [NewConjID] and [ConjID.Size] are missing from
    the sources; a ConjunctionID packs DocID (32 bits), ConjIndex (8 bits)
    and Size K (8 bits). *)
Definition NewConjID (docID idx size : Z) : Z :=
  Z.lor (Z.lor (Z.shiftl (Z.land size 255) 40) (Z.shiftl (Z.land idx 255) 32))
        (Z.land docID 4294967295).
Definition ConjID_Size (conjID : Z) : Z := Z.land (Z.shiftr conjID 40) 255.

(** Modelled from the spec: [NewEntryID] is missing from the sources; an
    EntryID packs the ConjunctionID with the inclusion flag in the least
    significant bit. *)
Definition NewEntryID (conjID : Z) (include : bool) : Z :=
  Z.lor (Z.shiftl conjID 1) (if include then 1 else 0).

Fixpoint parseAll (vs : list Z) : result (list Z) :=
  match vs with
  | [] => Ok []
  | v :: vs' =>
      match parse v with
      | Err e => Err e
      | Ok ids =>
          match parseAll vs' with
          | Err e => Err e
          | Ok rest => Ok (ids ++ rest)
          end
      end
  end.

(** Modelled from the spec: the holder's [CommitIndexingBETx] is missing
    from the sources; when committed, a transaction writes its EntryID
    into the posting list of each of its token ids, in the holder of its
    size K. *)
Definition commit (tx : Builder.IndexingBETx Z (list Z))
    (st : gmap Z (@Holder.DefaultEntriesHolder (Z * Z) _ _))
    : result (gmap Z (@Holder.DefaultEntriesHolder (Z * Z) _ _)) :=
  let h := default Holder.NewDefaultEntriesHolder (st !! Builder.holder tx) in
  let h' :=
    foldl (fun h id =>
             (Holder.AppendEntryID
                (NewKey (Builder.ID (Builder.field tx)) id)
                (Builder.EID tx) h).2)
          h (Builder.Data tx) in
  Ok (<[Builder.holder tx := h']> st).

(** Transaction data is the list of token ids; it is cached as it is, and
    a cache message is stored unserialized. *)
Definition collaborators : Builder.Collaborators :=
  {| Builder.Expr := BoolExpr;
     Builder.Incl := incl;
     Builder.CalcConjSize := CalcConjSize;
     Builder.NewConjID := NewConjID;
     Builder.ConjID_Size := ConjID_Size;
     Builder.NewEntryID := NewEntryID;
     Builder.HolderNameDefault := "default";
     Builder.TxData := list Z;
     Builder.Bytes := list Z;
     Builder.Wire := cache.IndexingTxCache (list Z);
     Builder.BetterToCache := fun _ => true;
     Builder.Encode := Ok;
     Builder.proto_Marshal := Ok;
     Builder.proto_Unmarshal := Ok;
     Builder.HolderRef := Z;
     Builder.Store := gmap Z (@Holder.DefaultEntriesHolder (Z * Z) _ _);
     Builder.Alloc := unit;
     Builder.CreateHolder := fun k _ => k;
     Builder.holder_IndexingBETx :=
       fun _ _ expr a => (parseAll (values expr), a);
     Builder.holder_DecodeTxData := fun _ data => Ok data;
     Builder.holder_CommitIndexingBETx := commit;
     Builder.Cache := gmap Z (cache.IndexingTxCache (list Z));
     Builder.cache_Get := fun c id => c !! id;
     Builder.cache_Set := fun c id data => <[id := data]> c;
     Builder.cache_Reset := fun _ => ∅;
     Builder.NewKGroupsBEIndex_holders := ∅;
     Builder.NewCompactedBEIndex_holders := ∅;
     Builder.NewIDAllocatorImpl := tt |}.

Definition newBuilder (behavior : Z)
    (c : option (gmap Z (cache.IndexingTxCache (list Z))))
    : @Builder.IndexerBuilder collaborators :=
  @Builder.Build_IndexerBuilder collaborators
    Builder.IndexerTypeDefault c behavior
    (@Builder.Build_BEIndex collaborators ∅ [] ∅)
    ∅ tt.

Definition In_ (vs : list Z) : BoolExpr := {| incl := true; values := vs |}.
Definition NotIn (vs : list Z) : BoolExpr := {| incl := false; values := vs |}.

Abbreviation Conjunction := (Builder.Conjunction (@Builder.Expr collaborators)).
Abbreviation Document := (Builder.Document (@Builder.Expr collaborators)).

Definition conjunction (fields : list (string * list BoolExpr)) : Conjunction :=
  {| Builder.Expressions := fields |}.

Definition document (id : Z) (conjs : list Conjunction) : Document :=
  {| Builder.DocID := id; Builder.Cons := conjs |}.

(** Sample inputs. *)

(** [NOT a IN {5}]: a conjunction of size 0. *)
Definition onlyExclude : Conjunction :=
  conjunction [("a"%string, [NotIn [5]])].

(** [a IN {-1}]: the parser rejects the value. *)
Definition badConj : Conjunction :=
  conjunction [("a"%string, [In_ [-1]])].

(** [a IN {1}]. *)
Definition goodConj : Conjunction :=
  conjunction [("a"%string, [In_ [1]])].

(** [a IN {1} AND a IN {2}]: two expressions on one field. *)
Definition twoOnOneField : Conjunction :=
  conjunction [("a"%string, [In_ [1]; In_ [2]])].

(** A holder after three appends under two keys. *)
Definition threeAppends : @Holder.DefaultEntriesHolder (Z * Z) _ _ :=
  (Holder.AppendEntryID (NewKey 0 2) 5
     (Holder.AppendEntryID (NewKey 0 1) 3
        (Holder.AppendEntryID (NewKey 0 1) 9 emptyHolder).2).2).2.

(** The posting list of a key in the holder of size [k], [[]] when either
    is absent. *)
Definition postings (b : @Builder.IndexerBuilder collaborators)
    (k : Z) (key : Z * Z) : list Z :=
  match (Builder.holders (Builder.indexer b) : gmap Z _) !! k with
  | Some h => default [] (Holder.plEntries h !! key)
  | None => []
  end.

End Sample.

(** ** Further definitions for the holder *)

Module HolderMore.
Import Holder.

Section holder_more.
Context {Val : Type}.
Context {Key : Type} `{Countable Key}.

(** The token ids [AddFieldEID] appends under, in order: those of every
    value, value by value; the error of the first value that does not
    parse. *)
Fixpoint parse_values (p : @FieldValueParser Val) (values : list Val)
    : result (list Z) :=
  match values with
  | [] => Ok []
  | value :: values' =>
      match ParseValue p value with
      | Err e => Err e
      | Ok ids =>
          match parse_values p values' with
          | Err e => Err e
          | Ok rest => Ok (ids ++ rest)
          end
      end
  end.

(** A posting list (or its absence) after [n] appends of [eid]. *)
Definition appended (o : option (list Z)) (n : nat) (eid : Z)
    : option (list Z) :=
  match n with
  | O => o
  | S _ => Some (default [] o ++ replicate n eid)
  end.

(** [makeEntriesSorted] with [range h.plEntries] visiting the map in the
    order [kvs]. *)
Definition makeEntriesSorted_visiting (kvs : list (Key * list Z))
    : @M Key _ _ unit :=
  bind (makeEntriesSorted_loop kvs 0) (fun total =>
  bind get (fun h =>
  if 0 <? Z.of_nat (size (plEntries h))
  then modify (set_avgLen (Z.quot total (Z.of_nat (size (plEntries h)))))
  else ret tt)).

(** Two posting-list maps hold the same entries under every key, up to
    the order within a list. *)
Definition same_entries (m1 m2 : gmap Key (list Z)) : Prop :=
  forall key,
    match m1 !! key, m2 !! key with
    | Some l1, Some l2 => l1 ≡ₚ l2
    | None, None => True
    | _, _ => False
    end.

End holder_more.
End HolderMore.

(** ** Further definitions for the builder *)

Module BuilderMore.
Import Builder.

Section builder_more.
Context `{Collaborators}.

Abbreviation Tx := (IndexingBETx HolderRef TxData).

(** A field table as [configureField] builds it: every field is stored
    under its own name with an ID below the number of fields, and no two
    fields share an ID. *)
Definition fields_ok (fd : gmap string FieldDesc) : Prop :=
  (forall f d, fd !! f = Some d ->
     Field d = f /\ 0 <= ID d < Z.of_nat (size fd)) /\
  (forall f1 f2 d1 d2, fd !! f1 = Some d1 -> fd !! f2 = Some d2 ->
     ID d1 = ID d2 -> f1 = f2).

(** From [b] to [b'] the field table has only grown, staying well formed,
    and the failure policy is the same. *)
Definition fields_grow (b b' : IndexerBuilder) : Prop :=
  fieldsData b ⊆ fieldsData b' /\
  (fields_ok (fieldsData b) -> fields_ok (fieldsData b')) /\
  badConjBehavior b' = badConjBehavior b.

(** An action takes every builder to one related to it by [R], however it
    ends. *)
Definition advances {A} (R : relation IndexerBuilder) (m : B A) : Prop :=
  forall b, R b (m b).2.

(** The two guards of [buildDocEntries] that can fire, each with what
    makes it fire: the [util.PanicIf] after the [switch] on the failure
    policy, reached under a policy that is neither Skip nor Error, and the
    [util.PanicIfErr] on a commit, when some commit into a holder returns
    an error. *)
Definition guard_fired (policy : Z) (msg : string) : Prop :=
  (msg = "indexing conj fail"%string /\
   policy <> SkipBadConj /\ policy <> ErrorBadConj) \/
  (msg = "commit indexing data failed"%string /\
   exists (tx : Tx) (st : Store) e, holder_CommitIndexingBETx tx st = Err e).

(** When an action panics, it is at one of those two guards. *)
Definition panics_at_guards {A} (m : B A) : Prop :=
  forall b msg b',
    m b = (Panicked msg, b') -> guard_fired (badConjBehavior b) msg.

(** The options made by the three constructors of the package. *)
Definition package_opt (optFn : BuilderOpt) : Prop :=
  (exists v, optFn = WithBadConjBehavior v) \/
  (exists provider, optFn = WithCacheProvider provider) \/
  (exists t, optFn = WithIndexerType t).

(** The wildcard entries that [ConjLoop] emits for the conjunctions
    [conjs], the first of which has index [idx]: one per conjunction of
    size 0, in order. *)
Fixpoint wildcards_of (docID idx : Z) (conjs : list (Conjunction Expr))
    : list Z :=
  match conjs with
  | [] => []
  | cj :: conjs' =>
      (if CalcConjSize cj =? 0
       then [NewEntryID (NewConjID docID idx (CalcConjSize cj)) true]
       else [])
      ++ wildcards_of docID (idx + 1) conjs'
  end.

(** The expressions of a conjunction, each with its field, in the order
    [indexingConjunction] visits them. *)
Definition conj_exprs (cj : Conjunction Expr) : list (string * Expr) :=
  concat ((fun fe : string * list Expr => (fun e => (fe.1, e)) <$> fe.2)
            <$> Expressions cj).

(** What [tryUseIndexingTxCache] makes of one [FieldData] entry when the
    field is configured and the data decodes. *)
Definition restore_tx (fd : gmap string FieldDesc) (incSize : Z)
    (kv : string * cache.FieldCache Bytes) : option Tx :=
  match fd !! kv.1 with
  | None => None
  | Some desc =>
      match holder_DecodeTxData (CreateHolder incSize desc) (cache.Data kv.2) with
      | Err _ => None
      | Ok txData =>
          Some {| field := desc; holder := CreateHolder incSize desc;
                  EID := cache.Eid kv.2; Data := txData |}
      end
  end.

End builder_more.
End BuilderMore.

(** ** The retrieve context (index base file) *)

Module Retrieve.
Section retrieve.
(** [ResultCollector] is an interface and [Assignments] a map defined in
    other files. *)
Context {ResultCollector Assignments : Type}.

Record retrieveContext : Type := {
  dumpStepInfo : bool;
  dumpEntriesDetail : bool;
  collector : option ResultCollector;
  assigns : Assignments
}.

(** [IndexOpt]: the three options the package provides; the collector
    given to [WithCollector] may be [nil]. *)
Inductive IndexOpt : Type :=
| WithStepDetail
| WithDumpEntries
| WithCollector (fn : option ResultCollector).

Definition applyOpt (fn : IndexOpt) (ctx : retrieveContext) : retrieveContext :=
  match fn with
  | WithStepDetail =>
      {| dumpStepInfo := true; dumpEntriesDetail := dumpEntriesDetail ctx;
         collector := collector ctx; assigns := assigns ctx |}
  | WithDumpEntries =>
      {| dumpStepInfo := dumpStepInfo ctx; dumpEntriesDetail := true;
         collector := collector ctx; assigns := assigns ctx |}
  | WithCollector fn =>
      {| dumpStepInfo := dumpStepInfo ctx;
         dumpEntriesDetail := dumpEntriesDetail ctx;
         collector := fn; assigns := assigns ctx |}
  end.

Definition newRetrieveCtx (ass : Assignments) (opts : list IndexOpt)
    : retrieveContext :=
  let ctx := {| dumpStepInfo := false; dumpEntriesDetail := false;
                collector := None; assigns := ass |} in
  foldl (fun ctx fn => applyOpt fn ctx) ctx opts.

(** The collectors named by the options, in order. *)
Definition collectors_of (opts : list IndexOpt) : list (option ResultCollector) :=
  omap (fun fn => match fn with
                  | WithCollector c => Some c
                  | _ => None
                  end) opts.

End retrieve.
End Retrieve.

(** ** The brute-force matcher of the tests *)

Module Oracle.

Record MockTargeting : Type := {
  ID : Z;
  A : list Z;
  B : list Z;
  C : list Z;
  D : list Z
}.

Section oracle.
(** [util.ContainInt] *)
Variable ContainInt : list Z -> Z -> bool.

Fixpoint valueMatch_queries (values queries : list Z) : bool :=
  match queries with
  | [] => false
  | v :: queries' =>
      if ContainInt values v then true else valueMatch_queries values queries'
  end.

Definition valueMatch (values queries : list Z) : bool :=
  if len values =? 0 then true else valueMatch_queries values queries.

Definition Match (t : MockTargeting) (a b c d : list Z) : bool :=
  if negb (valueMatch (A t) a) then false
  else if negb (valueMatch (B t) b) then false
  else if negb (valueMatch (C t) c) then false
  else if negb (valueMatch (D t) d) then false
  else true.

End oracle.
End Oracle.

(** ** Further sample inputs *)

Module SampleMore.
Import Sample.

(** The holder of [threeAppends] with the two appends under key (0, 1)
    made in the other order. *)
Definition threeAppendsSwapped : @Holder.DefaultEntriesHolder (Z * Z) _ _ :=
  (Holder.AppendEntryID (NewKey 0 2) 5
     (Holder.AppendEntryID (NewKey 0 1) 9
        (Holder.AppendEntryID (NewKey 0 1) 3 emptyHolder).2).2).2.

(** Fields [a] and [b] as [configureField] registers them on a new
    builder. *)
Definition descA : Builder.FieldDesc :=
  {| Builder.ID := 0; Builder.Field := "a";
     Builder.Option := {| Builder.Parser := "number";
                          Builder.Container := "default" |} |}.
Definition descB : Builder.FieldDesc :=
  {| Builder.ID := 1; Builder.Field := "b";
     Builder.Option := {| Builder.Parser := "number";
                          Builder.Container := "default" |} |}.

(** A builder with an empty cache and the two fields configured. *)
Definition cachingBuilder : @Builder.IndexerBuilder collaborators :=
  @Builder.Build_IndexerBuilder collaborators
    Builder.IndexerTypeDefault (Some ∅) Builder.ErrorBadConj
    (@Builder.Build_BEIndex collaborators ∅ [] ∅)
    (<["b"%string := descB]> (<["a"%string := descA]> ∅)) tt.

(** Two transactions of a conjunction of size 2, one per field. *)
Definition twoTxs
    : list (Builder.IndexingBETx (@Builder.HolderRef collaborators)
              (@Builder.TxData collaborators)) :=
  [ {| Builder.field := descA; Builder.holder := 2;
       Builder.EID := NewEntryID (NewConjID 7 0 2) true;
       Builder.Data := [1; 2] |};
    {| Builder.field := descB; Builder.holder := 2;
       Builder.EID := NewEntryID (NewConjID 7 0 2) true;
       Builder.Data := [3] |} ].

(** A linear scan, as [util.ContainInt]. *)
Fixpoint ContainInt (values : list Z) (v : Z) : bool :=
  match values with
  | [] => false
  | x :: values' => if x =? v then true else ContainInt values' v
  end.

Definition target : Oracle.MockTargeting :=
  {| Oracle.ID := 1; Oracle.A := [1; 2]; Oracle.B := [];
     Oracle.C := [4]; Oracle.D := [] |}.

End SampleMore.

(** * Properties *)

Lemma int64_wrap_small z : - 2 ^ 63 <= z < 2 ^ 63 -> int64_wrap z = z.
Proof.
  intros Hz. unfold int64_wrap.
  rewrite Z.mod_small; lia.
Qed.

Lemma Sorted_le_adjacent (l : list Z) :
  Sorted Z.le l ->
  forall (i : nat) a b, l !! i = Some a -> l !! S i = Some b -> a <= b.
Proof.
  induction 1 as [|x l Hs IH Hhd]; intros i a b Ha Hb.
  - discriminate.
  - destruct i as [|i]; simpl in *.
    + injection Ha as ->. destruct l as [|y l]; [discriminate|].
      simpl in Hb. injection Hb as ->. by inversion Hhd.
    + eauto.
Qed.

Lemma size_list_to_set_le (l : list string) :
  (size (list_to_set l : gset string) <= length l)%nat.
Proof.
  induction l as [|x l IH].
  - change (list_to_set [] : gset string) with (∅ : gset string).
    rewrite size_empty. simpl. lia.
  - change (list_to_set (x :: l) : gset string)
      with ({[x]} ∪ list_to_set l : gset string). simpl length.
    rewrite size_union_alt, size_singleton.
    assert (Hsub : (size ((list_to_set l : gset string) ∖ {[x]})
                    <= size (list_to_set l : gset string))%nat).
    { by apply subseteq_size, subseteq_difference_l. }
    lia.
Qed.

Lemma size_list_to_set_lt (l : list string) :
  ~ NoDup l -> (size (list_to_set l : gset string) < length l)%nat.
Proof.
  induction l as [|x l IH]; intros Hnd.
  - destruct Hnd. constructor.
  - csimpl. destruct (decide (x ∈ l)) as [Hin|Hnin].
    + assert (Heq : ({[x]} ∪ list_to_set l : gset string) = list_to_set l).
      { by apply subseteq_union_1_L, singleton_subseteq_l, elem_of_list_to_set. }
      rewrite Heq. pose proof (size_list_to_set_le l). lia.
    + assert (Hnd' : ~ NoDup l).
      { intros Hl. apply Hnd. by constructor. }
      specialize (IH Hnd').
      assert (Hdisj : ({[x]} : gset string) ## list_to_set l).
      { apply disjoint_singleton_l. by rewrite elem_of_list_to_set. }
      rewrite (size_union _ _ Hdisj), size_singleton. lia.
Qed.

Module HolderProofs.
Import Holder.

Section holder_proofs.
Context {Val : Type}.
Context {Key : Type} `{Countable Key}.
Variable NewKey : Z -> Z -> Key.
Context {QKey : Type}.
Variable newQKey : string -> Val -> QKey.
Context {EntriesCursor : Type}.
Variable NewEntriesCursor : QKey -> list Z -> EntriesCursor.

Abbreviation holder := (@DefaultEntriesHolder Key _ _).
Abbreviation fdesc := (@fieldDesc Val).

(** *** AppendEntryID *)

Lemma AppendEntryID_plEntries (key : Key) (id : Z) (h : holder) :
  plEntries (AppendEntryID key id h).2 =
  <[key := default [] (plEntries h !! key) ++ [id]]> (plEntries h).
Proof.
  unfold AppendEntryID, load, bind, get, ret, store, modify. simpl.
  destruct (plEntries h !! key) as [es|] eqn:E; simpl; [done|].
  by rewrite insert_insert_eq.
Qed.

Lemma AppendEntryID_frame (key : Key) (id : Z) (h : holder) :
  let h' := (AppendEntryID key id h).2 in
  debug h' = debug h /\ maxLen h' = maxLen h /\ avgLen h' = avgLen h.
Proof.
  unfold AppendEntryID, load, bind, get, ret, store, modify. simpl.
  by destruct (plEntries h !! key).
Qed.

Lemma extends_refl (h : holder) : extends h h.
Proof. repeat split; eauto. intros key P HP. exists P. split; [done|lia]. Qed.

Lemma extends_trans (h1 h2 h3 : holder) :
  extends h1 h2 -> extends h2 h3 -> extends h1 h3.
Proof.
  intros (Hm1 & Ha1 & He1 & Hg1) (Hm2 & Ha2 & He2 & Hg2).
  repeat split; [congruence|congruence|auto|].
  intros key P HP. destruct (Hg1 _ _ HP) as (P' & HP' & Hl).
  destruct (Hg2 _ _ HP') as (P'' & HP'' & Hl').
  exists P''. split; [done|lia].
Qed.

Lemma AppendEntryID_extends (key : Key) (id : Z) (h : holder) :
  extends h (AppendEntryID key id h).2.
Proof.
  destruct (AppendEntryID_frame key id h) as (_ & Hm & Ha).
  pose proof (AppendEntryID_plEntries key id h) as Hpl.
  repeat split; [done|done| |].
  - rewrite Hpl. intros He. by apply insert_non_empty in He.
  - intros k P HP. rewrite Hpl.
    destruct (decide (key = k)) as [->|Hne].
    + rewrite lookup_insert_eq, HP. simpl. eexists. split; [done|].
      unfold len. rewrite length_app. lia.
    + rewrite lookup_insert_ne by done. exists P. split; [done|lia].
Qed.

Lemma AddFieldEID_ids_extends (field : fdesc) ids (eid : Z) (h : holder) :
  extends h (AddFieldEID_ids NewKey field ids eid h).2.
Proof.
  revert h. induction ids as [|id ids IH]; intros h; simpl.
  - apply extends_refl.
  - unfold bind at 1.
    destruct (AppendEntryID (NewKey (ID field) id) eid h) as [u h1] eqn:E.
    eapply extends_trans; [|apply IH].
    replace h1 with (AppendEntryID (NewKey (ID field) id) eid h).2
      by (by rewrite E).
    apply AppendEntryID_extends.
Qed.

Lemma AddFieldEID_extends (field : fdesc) values (eid : Z) (h : holder) :
  extends h (AddFieldEID NewKey field values eid h).2.
Proof.
  revert h. induction values as [|v values IH]; intros h; simpl.
  - apply extends_refl.
  - destruct (ParseValue (Parser field) v) as [ids|e].
    + unfold bind at 1.
      destruct (AddFieldEID_ids NewKey field ids eid h) as [u h1] eqn:E.
      eapply extends_trans; [|apply IH].
      replace h1 with (AddFieldEID_ids NewKey field ids eid h).2
        by (by rewrite E).
      apply AddFieldEID_ids_extends.
    + apply extends_refl.
Qed.

Lemma extends_stats_inv (h h' : holder) :
  extends h h' -> stats_inv h -> stats_inv h'.
Proof.
  intros (Hm & Ha & He & Hg) (H0 & Hmax & Havg).
  unfold stats_inv. rewrite Hm, Ha. repeat split; [done| |auto].
  destruct Hmax as [?|(key & P & HP & Hle)]; [by left|right].
  destruct (Hg _ _ HP) as (P' & HP' & Hl).
  exists key, P'. split; [done|lia].
Qed.

(** *** GetEntries only reads *)

Lemma getEntries_run (key : Key) (h : holder) :
  getEntries key h = (default [] (plEntries h !! key), h).
Proof.
  unfold getEntries, load, bind, get, ret. simpl.
  by destruct (plEntries h !! key).
Qed.

Lemma GetEntries_ids_run (field : fdesc) vi ids r (h : holder) :
  GetEntries_ids NewKey newQKey NewEntriesCursor field vi ids r h =
  (r ++ omap (cursor_of NewKey newQKey NewEntriesCursor field h vi) ids, h).
Proof.
  revert r. induction ids as [|id ids IH]; intros r; simpl.
  - unfold ret. by rewrite app_nil_r.
  - unfold bind. rewrite getEntries_run. rewrite IH.
    unfold cursor_of at 2.
    destruct (plEntries h !! NewKey (ID field) id) as [[|e es]|]; simpl;
      try done.
    by rewrite <- app_assoc.
Qed.

Lemma GetEntries_loop_run (field : fdesc) assigns r (h : holder) :
  GetEntries_loop NewKey newQKey NewEntriesCursor field assigns r h =
  (match parse_assigns (Parser field) assigns with
   | Err e => ([], Some e)
   | Ok parsed =>
       (r ++ concat ((fun vi_ids : Val * list Z =>
                        omap (cursor_of NewKey newQKey NewEntriesCursor
                                field h vi_ids.1) vi_ids.2) <$> parsed),
        None)
   end, h).
Proof.
  revert r. induction assigns as [|vi assigns IH]; intros r; simpl.
  - unfold ret. by rewrite app_nil_r.
  - destruct (ParseAssign (Parser field) vi) as [ids|e]; [|done].
    unfold bind. rewrite GetEntries_ids_run, IH.
    destruct (parse_assigns (Parser field) assigns) as [parsed|e]; [|done].
    simpl. by rewrite <- app_assoc.
Qed.


(** C6. [GetEntries] returns what the specification describes: one cursor
    tagged [QKey(field, value)] for every token id of every query value
    whose posting list is non-empty, in query order, with absent keys and
    empty lists skipped; and when [ParseAssign] fails on a value, the nil
    group together with that error. *)
Theorem GetEntries_refines_spec (field : fdesc) (assigns : list Val)
    (h : holder) :
  (GetEntries NewKey newQKey NewEntriesCursor field assigns h).1 =
  GetEntries_spec NewKey newQKey NewEntriesCursor field assigns h.
Proof.
  unfold GetEntries, GetEntries_spec. rewrite GetEntries_loop_run. simpl.
  by destruct (parse_assigns (Parser field) assigns).
Qed.

(** C9. [GetEntries] leaves the holder as it found it, whether it returns
    cursors or an error: [plEntries], [maxLen], [avgLen] and [debug] are
    all unchanged. *)
Theorem GetEntries_does_not_mutate (field : fdesc) (assigns : list Val)
    (h : holder) :
  let h' := (GetEntries NewKey newQKey NewEntriesCursor field assigns h).2 in
  h' = h /\
  plEntries h' = plEntries h /\ maxLen h' = maxLen h /\
  avgLen h' = avgLen h /\ debug h' = debug h.
Proof.
  unfold GetEntries. rewrite GetEntries_loop_run. simpl. done.
Qed.

(** C2 (as the code has it). [AppendEntryID] leaves exactly one new copy
    of the EntryID: for an absent key the stored entries are the
    single-element [[id]] (the first store is overwritten by the append to
    the nil slice), for a present key the old entries followed by [id];
    nothing else in the holder changes. *)
Theorem AppendEntryID_single_copy (key : Key) (id : Z) (h : holder) :
  let h' := (AppendEntryID key id h).2 in
  plEntries h' =
    <[key := match plEntries h !! key with
             | None => [id]
             | Some entries => entries ++ [id]
             end]> (plEntries h) /\
  debug h' = debug h /\ maxLen h' = maxLen h /\ avgLen h' = avgLen h.
Proof.
  simpl. split; [|apply AppendEntryID_frame].
  rewrite AppendEntryID_plEntries. by destruct (plEntries h !! key).
Qed.

(** *** makeEntriesSorted *)

Lemma makeEntriesSorted_loop_run (kvs : list (Key * list Z)) total (h : holder) :
  makeEntriesSorted_loop kvs total h =
  (foldl (fun t kv => int64_wrap (t + len kv.2)) total kvs,
   {| debug := debug h;
      maxLen := foldl (fun m kv => if m <? len kv.2 then len kv.2 else m)
                  (maxLen h) kvs;
      avgLen := avgLen h;
      plEntries := foldl (fun m kv => <[kv.1 := sort_entries kv.2]> m)
                     (plEntries h) kvs |}).
Proof.
  revert total h. induction kvs as [|[key entries] kvs IH]; intros total h.
  - simpl. unfold ret. by destruct h.
  - simpl. unfold bind at 1.
    unfold makeEntriesSorted_body, bind, store, modify, get, ret. simpl.
    destruct (maxLen h <? len entries) eqn:E; simpl; rewrite IH; simpl;
      by rewrite ?E.
Qed.

Lemma foldl_maxLen_spec (kvs : list (Key * list Z)) (m : Z) :
  let r := foldl (fun m kv => if m <? len kv.2 then len kv.2 else m) m kvs in
  m <= r /\
  (forall kv, kv ∈ kvs -> len kv.2 <= r) /\
  (r = m \/ exists kv, kv ∈ kvs /\ r = len kv.2).
Proof.
  revert m. induction kvs as [|kv kvs IH]; intros m; simpl.
  - split; [lia|]. split; [|by left]. intros kv Hkv. by apply elem_of_nil in Hkv.
  - destruct (IH (if m <? len kv.2 then len kv.2 else m)) as (Hle & Hall & Hatt).
    assert (Hstep : m <= (if m <? len kv.2 then len kv.2 else m) /\
                    len kv.2 <= (if m <? len kv.2 then len kv.2 else m)).
    { destruct (Z.ltb_spec m (len kv.2)); lia. }
    split; [lia|]. split.
    + intros kv' [->|Hin]%elem_of_cons; [lia|auto].
    + destruct Hatt as [Heq|(kv' & Hin & Heq)].
      * destruct (Z.ltb_spec m (len kv.2)).
        -- right. exists kv. split; [left|done].
        -- by left.
      * right. exists kv'. split; [by right|done].
Qed.

Lemma foldl_total_exact (kvs : list (Key * list Z)) (t : Z) :
  0 <= t ->
  t + foldr Z.add 0 ((fun kv : Key * list Z => len kv.2) <$> kvs) < 2 ^ 63 ->
  foldl (fun t kv => int64_wrap (t + len kv.2)) t kvs =
  t + foldr Z.add 0 ((fun kv : Key * list Z => len kv.2) <$> kvs).
Proof.
  revert t. induction kvs as [|kv kvs IH]; intros t Ht Hb; csimpl in *.
  - lia.
  - assert (Hs : 0 <= foldr Z.add 0
                        ((fun kv : Key * list Z => len kv.2) <$> kvs)).
    { clear. induction kvs as [|kv' kvs IH]; csimpl; [lia|].
      unfold len at 1. lia. }
    assert (Hl : 0 <= len kv.2) by (unfold len; lia).
    rewrite int64_wrap_small by lia.
    rewrite IH; lia.
Qed.

Lemma foldl_sort_lookup (kvs : list (Key * list Z)) (m : gmap Key (list Z))
    (i : Key) :
  NoDup kvs.*1 ->
  foldl (fun m kv => <[kv.1 := sort_entries kv.2]> m) m kvs !! i =
  match (list_to_map kvs : gmap Key (list Z)) !! i with
  | Some v => Some (sort_entries v)
  | None => m !! i
  end.
Proof.
  revert m. induction kvs as [|[k v] kvs IH]; intros m Hnd; simpl.
  - by rewrite lookup_empty.
  - apply NoDup_cons in Hnd as [Hk Hnd]. rewrite IH by done.
    destruct (decide (k = i)) as [->|Hne].
    + rewrite lookup_insert_eq.
      rewrite (not_elem_of_list_to_map_1 (M := gmap Key) kvs i Hk).
      by rewrite lookup_insert_eq.
    + rewrite (lookup_insert_ne (list_to_map kvs)) by done.
      destruct (list_to_map kvs !! i); [done|].
      by rewrite lookup_insert_ne.
Qed.

Lemma foldl_sort_map_to_list (m : gmap Key (list Z)) :
  foldl (fun m kv => <[kv.1 := sort_entries kv.2]> m) m (map_to_list m) =
  sort_entries <$> m.
Proof.
  apply map_eq. intros i.
  rewrite foldl_sort_lookup by apply NoDup_fst_map_to_list.
  rewrite list_to_map_to_list, lookup_fmap.
  by destruct (m !! i).
Qed.

Lemma len_sort_entries (l : list Z) : len (sort_entries l) = len l.
Proof.
  unfold len, sort_entries. f_equal.
  apply Permutation_length, merge_sort_Permutation.
Qed.

Lemma total_len_sort (m : gmap Key (list Z)) :
  total_len (sort_entries <$> m) = total_len m.
Proof.
  unfold total_len. rewrite map_to_list_fmap. f_equal.
  rewrite <- list_fmap_compose. apply list_fmap_ext.
  intros i [k v] _. simpl. apply len_sort_entries.
Qed.

Lemma int64_wrap_add_l x y : int64_wrap (int64_wrap x + y) = int64_wrap (x + y).
Proof.
  unfold int64_wrap.
  replace ((x + 2 ^ 63) mod 2 ^ 64 - 2 ^ 63 + y + 2 ^ 63)
    with ((x + 2 ^ 63) mod 2 ^ 64 + y) by lia.
  rewrite Zplus_mod_idemp_l. f_equal. f_equal. lia.
Qed.

Lemma foldl_total_wrapped (kvs : list (Key * list Z)) (t : Z) :
  foldl (fun t kv => int64_wrap (t + len kv.2)) (int64_wrap t) kvs =
  int64_wrap (t + foldr Z.add 0 ((fun kv : Key * list Z => len kv.2) <$> kvs)).
Proof.
  revert t. induction kvs as [|kv kvs IH]; intros t; csimpl.
  - by rewrite Z.add_0_r.
  - rewrite int64_wrap_add_l, IH. f_equal. lia.
Qed.

Lemma sum_len_perm (kvs kvs' : list (Key * list Z)) :
  kvs ≡ₚ kvs' ->
  foldr Z.add 0 ((fun kv : Key * list Z => len kv.2) <$> kvs) =
  foldr Z.add 0 ((fun kv : Key * list Z => len kv.2) <$> kvs').
Proof.
  induction 1; csimpl; lia.
Qed.

Lemma foldl_maxLen_perm (kvs kvs' : list (Key * list Z)) (m : Z) :
  kvs ≡ₚ kvs' ->
  foldl (fun m kv => if m <? len kv.2 then len kv.2 else m) m kvs =
  foldl (fun m kv => if m <? len kv.2 then len kv.2 else m) m kvs'.
Proof.
  intros Hp.
  destruct (foldl_maxLen_spec kvs m) as (Hle & Hall & Hatt).
  destruct (foldl_maxLen_spec kvs' m) as (Hle' & Hall' & Hatt').
  apply Z.le_antisymm.
  - destruct Hatt as [->|(kv & Hin & ->)]; [done|].
    apply Hall'. by rewrite <- Hp.
  - destruct Hatt' as [->|(kv & Hin & ->)]; [done|].
    apply Hall. by rewrite Hp.
Qed.

Lemma foldl_sort_perm (kvs kvs' : list (Key * list Z)) (m : gmap Key (list Z)) :
  NoDup kvs.*1 -> kvs ≡ₚ kvs' ->
  foldl (fun m kv => <[kv.1 := sort_entries kv.2]> m) m kvs =
  foldl (fun m kv => <[kv.1 := sort_entries kv.2]> m) m kvs'.
Proof.
  intros Hnd Hp. apply map_eq. intros i.
  rewrite !foldl_sort_lookup; [|by rewrite <- Hp|done].
  by rewrite (list_to_map_proper (M := gmap Key) kvs kvs' Hnd Hp).
Qed.

(** The loop of [makeEntriesSorted] gives the same holder and the same
    total in whatever order it visits the map. *)
Lemma makeEntriesSorted_any_order (kvs : list (Key * list Z)) (h : holder) :
  kvs ≡ₚ map_to_list (plEntries h) ->
  makeEntriesSorted_loop kvs 0 h =
  makeEntriesSorted_loop (map_to_list (plEntries h)) 0 h.
Proof.
  intros Hp. rewrite !makeEntriesSorted_loop_run.
  assert (Hnd : NoDup kvs.*1).
  { rewrite Hp. apply NoDup_fst_map_to_list. }
  rewrite (foldl_maxLen_perm _ _ _ Hp), (foldl_sort_perm _ _ _ Hnd Hp).
  f_equal.
  pose proof (foldl_total_wrapped kvs 0) as H1.
  pose proof (foldl_total_wrapped (map_to_list (plEntries h)) 0) as H2.
  change (int64_wrap 0) with 0 in H1, H2.
  by rewrite H1, H2, (sum_len_perm _ _ Hp).
Qed.

Lemma CompileEntries_run (h : holder) :
  (CompileEntries h).2 =
  {| debug := debug h;
     maxLen := foldl (fun m kv => if m <? len kv.2 then len kv.2 else m)
                 (maxLen h) (map_to_list (plEntries h));
     avgLen :=
       if 0 <? Z.of_nat (size (plEntries h))
       then Z.quot (foldl (fun t kv => int64_wrap (t + len kv.2)) 0
                      (map_to_list (plEntries h)))
                   (Z.of_nat (size (plEntries h)))
       else avgLen h;
     plEntries := sort_entries <$> plEntries h |}.
Proof.
  unfold CompileEntries, makeEntriesSorted, bind, get, ret, modify. simpl.
  rewrite makeEntriesSorted_loop_run. simpl.
  rewrite foldl_sort_map_to_list, map_size_fmap.
  by destruct (0 <? Z.of_nat (size (plEntries h))).
Qed.


Lemma CompileEntries_stats_inv (h : holder) :
  stats_inv h -> stats_inv (CompileEntries h).2.
Proof.
  intros (H0 & Hmax & Havg). rewrite CompileEntries_run.
  destruct (foldl_maxLen_spec (map_to_list (plEntries h)) (maxLen h))
    as (Hle & Hall & Hatt).
  unfold stats_inv. simpl. split; [lia|]. split.
  - destruct Hatt as [Heq|([k v] & Hin & Heq)].
    + rewrite Heq. destruct Hmax as [?|(key & P & HP & HPle)]; [by left|].
      right. exists key, (sort_entries P).
      rewrite lookup_fmap, HP, len_sort_entries. done.
    + right. exists k, (sort_entries v).
      apply elem_of_map_to_list in Hin.
      rewrite lookup_fmap, Hin, len_sort_entries. simpl in Heq. split; [done|lia].
  - intros He. apply fmap_empty_inv in He.
    rewrite He, map_size_empty. simpl. auto.
Qed.

Lemma reachable_stats_inv (h : holder) :
  reachable NewKey newQKey NewEntriesCursor h -> stats_inv h.
Proof.
  induction 1 as [|h h' Hr IH Hs].
  - unfold stats_inv. simpl. repeat split; [lia|by left].
  - destruct Hs.
    + by destruct h.
    + eapply extends_stats_inv; [apply AppendEntryID_extends|done].
    + eapply extends_stats_inv; [apply AddFieldEID_extends|done].
    + unfold GetEntries. by rewrite GetEntries_loop_run.
    + by apply CompileEntries_stats_inv.
Qed.

(** C3. After [CompileEntries] on a holder made through the API (holding
    fewer than 2^63 entries, as any holder in memory does): every key of
    the holder is kept, with a rearrangement of the posting list it held,
    and no key is added; every posting list is sorted ascending,
    [P[i] <= P[i+1]], and is a rearrangement of the list held before
    under the same key; [maxLen] is the length of
    the longest posting list (an upper bound that some list attains, 0
    when there is none); [avgLen] is the integer quotient of the total
    number of entries by the number of keys when a key is present, and is
    still 0 when [plEntries] is empty. *)
Theorem CompileEntries_sorted_stats (h : holder) :
  reachable NewKey newQKey NewEntriesCursor h ->
  total_len (plEntries h) < 2 ^ 63 ->
  let h' := (CompileEntries h).2 in
  (forall key P0, plEntries h !! key = Some P0 ->
     exists P, plEntries h' !! key = Some P /\ P ≡ₚ P0) /\
  (forall key, plEntries h !! key = None -> plEntries h' !! key = None) /\
  (forall key P, plEntries h' !! key = Some P ->
     (forall (i : nat) a b, P !! i = Some a -> P !! S i = Some b -> a <= b) /\
     exists P0, plEntries h !! key = Some P0 /\ P ≡ₚ P0) /\
  (forall key P, plEntries h' !! key = Some P -> len P <= maxLen h') /\
  (plEntries h' <> ∅ ->
     exists key P, plEntries h' !! key = Some P /\ len P = maxLen h') /\
  (plEntries h' = ∅ -> maxLen h' = 0) /\
  (plEntries h' <> ∅ ->
     avgLen h' =
     Z.quot (total_len (plEntries h')) (Z.of_nat (size (plEntries h')))) /\
  (plEntries h' = ∅ -> avgLen h' = 0).
Proof.
  intros Hreach Hbound.
  pose proof (reachable_stats_inv h Hreach) as (H0 & Hmax & Havg).
  destruct (foldl_maxLen_spec (map_to_list (plEntries h)) (maxLen h))
    as (Hle & Hall & Hatt).
  simpl. rewrite CompileEntries_run. simpl.
  assert (Hlk : forall key P,
             (sort_entries <$> plEntries h) !! key = Some P ->
             exists P0, plEntries h !! key = Some P0 /\ P = sort_entries P0).
  { intros key P. rewrite lookup_fmap.
    destruct (plEntries h !! key) as [P0|]; [|done].
    simpl. intros [= <-]. by exists P0. }
  assert (Hne : sort_entries <$> plEntries h <> ∅ -> plEntries h <> ∅).
  { intros Hn He. apply Hn. by rewrite He, fmap_empty. }
  split; [|split; [|split; [|split; [|split; [|split; [|split]]]]]].
  - intros key P0 HP0. exists (sort_entries P0).
    rewrite lookup_fmap, HP0. split; [done|]. apply merge_sort_Permutation.
  - intros key HP0. by rewrite lookup_fmap, HP0.
  - intros key P HP. destruct (Hlk _ _ HP) as (P0 & HP0 & ->). split.
    + apply Sorted_le_adjacent. unfold sort_entries. apply Sorted_merge_sort.
      apply _.
    + exists P0. split; [done|]. apply merge_sort_Permutation.
  - intros key P HP. destruct (Hlk _ _ HP) as (P0 & HP0 & ->).
    rewrite len_sort_entries.
    apply (Hall (key, P0)). by apply elem_of_map_to_list.
  - intros Hn. apply Hne in Hn.
    assert (Hex : exists k v, plEntries h !! k = Some v /\
              len v = foldl (fun m kv => if m <? len kv.2 then len kv.2 else m)
                        (maxLen h) (map_to_list (plEntries h))).
    { destruct Hatt as [Heq|([k v] & Hin & Heq)].
      - destruct Hmax as [Hz|(key & P & HP & HPle)].
        + apply map_choose in Hn as (k & v & Hkv). exists k, v.
          split; [done|].
          assert (len v <= foldl (fun m kv => if m <? len kv.2 then len kv.2 else m)
                        (maxLen h) (map_to_list (plEntries h)))
            by (apply (Hall (k, v)); by apply elem_of_map_to_list).
          assert (0 <= len v) by (unfold len; lia). lia.
        + exists key, P. split; [done|].
          assert (len P <= foldl (fun m kv => if m <? len kv.2 then len kv.2 else m)
                        (maxLen h) (map_to_list (plEntries h)))
            by (apply (Hall (key, P)); by apply elem_of_map_to_list).
          lia.
      - exists k, v. apply elem_of_map_to_list in Hin. by split. }
    destruct Hex as (k & v & Hkv & Hlen).
    exists k, (sort_entries v). rewrite lookup_fmap, Hkv, len_sort_entries.
    by split.
  - intros He. apply fmap_empty_inv in He. rewrite He, map_to_list_empty.
    simpl. destruct Hmax as [?|(key & P & HP & _)]; [done|].
    by rewrite He, lookup_empty in HP.
  - intros Hn. apply Hne in Hn.
    assert (Hsz : 0 < Z.of_nat (size (plEntries h))).
    { destruct (size (plEntries h)) eqn:Es; [|lia].
      by apply map_size_empty_inv in Es. }
    apply Z.ltb_lt in Hsz. rewrite Hsz.
    rewrite total_len_sort, map_size_fmap. f_equal.
    unfold total_len in *. rewrite foldl_total_exact; lia.
  - intros He. apply fmap_empty_inv in He.
    rewrite He, map_size_empty. simpl. auto.
Qed.

End holder_proofs.
End HolderProofs.

Module BuilderProofs.
Import Builder.

Section builder_proofs.
Context `{Collaborators}.

Abbreviation Tx := (IndexingBETx HolderRef TxData).

(** *** Frame rules of the builder monad *)

Lemma preserves_ret {A X} (proj : IndexerBuilder -> X) (a : A) :
  preserves proj (ret a).
Proof. by intros b. Qed.

Lemma preserves_get {X} (proj : IndexerBuilder -> X) : preserves proj get.
Proof. by intros b. Qed.

Lemma preserves_panic {A X} (proj : IndexerBuilder -> X) msg :
  preserves proj (panic (A := A) msg).
Proof. by intros b. Qed.

Lemma preserves_bind {A C X} (proj : IndexerBuilder -> X)
    (m : B A) (k : A -> B C) :
  preserves proj m -> (forall a, preserves proj (k a)) ->
  preserves proj (bind m k).
Proof.
  intros Hm Hk b. unfold bind. specialize (Hm b).
  destruct (m b) as [[a|msg] b']; simpl in *; [|done].
  by rewrite Hk.
Qed.

Lemma preserves_modify {X} (proj : IndexerBuilder -> X) f :
  (forall b, proj (f b) = proj b) -> preserves proj (modify f).
Proof. intros Hf b. apply Hf. Qed.

Lemma preserves_PanicIfErr {A X} (proj : IndexerBuilder -> X)
    (r : result A) msg :
  preserves proj (PanicIfErr r msg).
Proof. destruct r; [apply preserves_ret|apply preserves_panic]. Qed.

Ltac frame :=
  repeat first
    [ apply preserves_ret | apply preserves_get | apply preserves_panic
    | apply preserves_PanicIfErr
    | apply preserves_modify; intros; reflexivity
    | apply preserves_bind; [|intros]
    | match goal with
      | |- preserves _ (match ?x with _ => _ end) => destruct x
      | |- preserves _ (if ?x then _ else _) => destruct x
      | |- preserves _ (let '(_, _) := ?x in _) => destruct x
      end ].

Lemma configureField_keeps fld opt : preserves index_of (configureField fld opt).
Proof. unfold configureField. frame. Qed.

Lemma createFieldData_keeps fld : preserves index_of (createFieldData fld).
Proof. unfold createFieldData. frame. Qed.

Lemma runIndexingBETx_keeps h desc expr :
  preserves index_of (runIndexingBETx h desc expr).
Proof. unfold runIndexingBETx. frame. Qed.

Lemma indexingConjunction_exprs_keeps fld exprs conjID incSize acc :
  preserves index_of (indexingConjunction_exprs fld exprs conjID incSize acc).
Proof.
  revert acc. induction exprs as [|expr exprs IH]; intros [txs cnt]; simpl.
  - frame.
  - apply preserves_bind; [apply createFieldData_keeps|intros desc].
    apply preserves_bind; [apply runIndexingBETx_keeps|intros [txData|err]].
    + apply IH.
    + frame.
Qed.

Lemma indexingConjunction_fields_keeps fields conjID incSize acc :
  preserves index_of (indexingConjunction_fields fields conjID incSize acc).
Proof.
  revert acc. induction fields as [|[fld exprs] fields IH]; intros acc; simpl.
  - frame.
  - apply preserves_bind; [apply indexingConjunction_exprs_keeps|].
    intros [acc'|err]; [apply IH|frame].
Qed.

Lemma indexingConjunction_keeps cj conjID :
  preserves index_of (indexingConjunction cj conjID).
Proof.
  unfold indexingConjunction.
  apply preserves_bind; [apply indexingConjunction_fields_keeps|].
  intros [[txs cnt]|err]; frame.
Qed.

Lemma tryUseIndexingTxCache_fields_keeps fieldData incSize acc :
  preserves index_of (tryUseIndexingTxCache_fields fieldData incSize acc).
Proof.
  revert acc. induction fieldData as [|[fld fc] fieldData IH]; intros acc; simpl.
  - frame.
  - apply preserves_bind; [apply createFieldData_keeps|intros desc].
    destruct (holder_DecodeTxData _ _); [apply IH|frame].
Qed.

Lemma tryUseIndexingTxCache_keeps conjID :
  preserves index_of (tryUseIndexingTxCache conjID).
Proof.
  unfold tryUseIndexingTxCache.
  apply preserves_bind; [frame|intros b].
  destruct (builderCache b) as [c|]; [|frame].
  destruct (cache_Get c conjID) as [data|]; [|frame].
  destruct (proto_Unmarshal data) as [txCache|]; [|frame].
  apply preserves_bind; [apply tryUseIndexingTxCache_fields_keeps|].
  intros [txs|]; frame.
Qed.

Lemma tryCacheIndexingTx_keeps conjID txs :
  preserves index_of (tryCacheIndexingTx conjID txs).
Proof. unfold tryCacheIndexingTx. frame. Qed.

Lemma commitIndexingTxs_keeps txs :
  preserves (fun b => (wildcard_of b, badConjBehavior b)) (commitIndexingTxs txs).
Proof.
  induction txs as [|tx txs IH]; simpl; [frame|].
  apply preserves_bind; [frame|intros b].
  apply preserves_bind; [frame|intros st].
  apply preserves_bind; [frame|intros _]. apply IH.
Qed.

Lemma preserves_weaken {A X Y} (proj : IndexerBuilder -> X) (f : X -> Y)
    (m : B A) :
  preserves proj m -> preserves (fun b => f (proj b)) m.
Proof. intros Hm b. by rewrite Hm. Qed.

Lemma index_keeps_holders {A} (m : B A) :
  preserves index_of m -> preserves holders_of m.
Proof.
  intros Hm. apply (preserves_weaken index_of (fun p => (holders p.1, p.2)) m Hm).
Qed.

Lemma index_keeps_wildcard {A} (m : B A) :
  preserves index_of m ->
  preserves (fun b => (wildcard_of b, badConjBehavior b)) m.
Proof.
  intros Hm.
  apply (preserves_weaken index_of (fun p => (wildcardEntries p.1, p.2)) m Hm).
Qed.


(** *** One iteration of ConjLoop *)

Lemma buildConjEntries_unfold docID idx (cj : Conjunction Expr) b :
  let conjID := NewConjID docID idx (CalcConjSize cj) in
  buildConjEntries docID idx cj b =
  indexAndCommit cj conjID
    (if CalcConjSize cj =? 0 then withWildcard conjID b else b).
Proof.
  unfold buildConjEntries, bind, addWildcardEID, modify, ret, withWildcard.
  simpl. by destruct (CalcConjSize cj =? 0).
Qed.

Lemma indexAndCommit_keeps_wildcard (cj : Conjunction Expr) conjID :
  preserves (fun b => (wildcard_of b, badConjBehavior b))
    (indexAndCommit cj conjID).
Proof.
  unfold indexAndCommit.
  apply preserves_bind;
    [apply index_keeps_wildcard, tryUseIndexingTxCache_keeps|].
  intros [|tx txs].
  - apply preserves_bind;
      [apply index_keeps_wildcard, indexingConjunction_keeps|].
    intros [[txs needCache]|err].
    + apply preserves_bind.
      * destruct needCache; [|frame].
        apply index_keeps_wildcard, tryCacheIndexingTx_keeps.
      * intros _. apply preserves_bind; [apply commitIndexingTxs_keeps|frame].
    + frame.
  - apply preserves_bind; [apply commitIndexingTxs_keeps|frame].
Qed.

Lemma ran {A X} (proj : IndexerBuilder -> X) (m : B A) b r b' :
  preserves proj m -> m b = (r, b') -> proj b' = proj b.
Proof. intros Hm E. specialize (Hm b). by rewrite E in Hm. Qed.

Lemma withWildcard_holders conjID b :
  holders_of (withWildcard conjID b) = holders_of b.
Proof. done. Qed.

Lemma ConjLoop_cons docID idx (cj : Conjunction Expr) conjs b :
  ConjLoop docID idx (cj :: conjs) b =
  match buildConjEntries docID idx cj b with
  | (Returned NextConj, b') => ConjLoop docID (idx + 1) conjs b'
  | (Returned (ReturnErr e), b') => (Returned (Some e), b')
  | (Panicked msg, b') => (Panicked msg, b')
  end.
Proof.
  simpl. unfold bind.
  by destruct (buildConjEntries docID idx cj b) as [[[|e]|msg] b'].
Qed.

(** C4. When [indexingConjunction] fails for a conjunction (after a cache
    miss), no transaction of that conjunction has been committed (the
    holders are those before the iteration), and the policy decides how the
    iteration ends: with [SkipBadConj] the loop
    goes on with the next conjunction; with [ErrorBadConj]
    [buildDocEntries]'s loop returns the error; with [PanicBadConj], and
    with any other value, it panics. *)
Theorem bad_conjunction_behavior docID idx (cj : Conjunction Expr)
    (conjs : list (Conjunction Expr)) (b b1 b2 : IndexerBuilder) err :
  let conjID := NewConjID docID idx (CalcConjSize cj) in
  let b0 := if CalcConjSize cj =? 0 then withWildcard conjID b else b in
  tryUseIndexingTxCache conjID b0 = (Returned [], b1) ->
  indexingConjunction cj conjID b1 = (Returned (Err err), b2) ->
  holders (indexer b2) = holders (indexer b) /\
  (badConjBehavior b = SkipBadConj ->
     ConjLoop docID idx (cj :: conjs) b = ConjLoop docID (idx + 1) conjs b2) /\
  (badConjBehavior b = ErrorBadConj ->
     ConjLoop docID idx (cj :: conjs) b =
     (Returned (Some (ErrIndexingConj conjID err)), b2)) /\
  (badConjBehavior b <> SkipBadConj -> badConjBehavior b <> ErrorBadConj ->
     exists msg, ConjLoop docID idx (cj :: conjs) b = (Panicked msg, b2)).
Proof.
  intros conjID b0 Hcache Hfail.
  assert (Hkeep : holders_of b2 = holders_of b).
  { rewrite (ran holders_of _ _ _ _
               (index_keeps_holders _ (indexingConjunction_keeps cj conjID))
               Hfail).
    rewrite (ran holders_of _ _ _ _
               (index_keeps_holders _ (tryUseIndexingTxCache_keeps conjID))
               Hcache).
    subst b0. destruct (CalcConjSize cj =? 0); [apply withWildcard_holders|done]. }
  injection Hkeep as Hholders Hpolicy.
  assert (Hbody : buildConjEntries docID idx cj b =
            (if badConjBehavior b =? SkipBadConj then ret NextConj
             else if badConjBehavior b =? ErrorBadConj
                  then ret (ReturnErr (ErrIndexingConj conjID err))
                  else panic "indexing conj fail") b2).
  { rewrite buildConjEntries_unfold. fold conjID b0.
    unfold indexAndCommit, bind. rewrite Hcache, Hfail. simpl.
    by rewrite Hpolicy. }
  split; [done|]. rewrite ConjLoop_cons, Hbody.
  split; [|split].
  - intros ->. done.
  - intros ->. done.
  - intros Hs He.
    apply Z.eqb_neq in Hs, He. rewrite Hs, He. by eexists.
Qed.


(** C1 (as the code has it). For a conjunction of size K = 0 the builder
    appends the wildcard EntryID (include flag true) of its ConjunctionID
    to the wildcard entries, and then goes on with the same conjunction
    as with any other: cache lookup, [IndexingBETx] on its expressions,
    commit of the resulting transactions.  There is no [continue] after
    the wildcard entry. *)
Theorem wildcard_conjunction_still_indexed docID idx
    (cj : Conjunction Expr) (b : IndexerBuilder) :
  CalcConjSize cj = 0 ->
  let conjID := NewConjID docID idx 0 in
  buildConjEntries docID idx cj b =
    indexAndCommit cj conjID (withWildcard conjID b) /\
  wildcardEntries (indexer (buildConjEntries docID idx cj b).2) =
    wildcardEntries (indexer b) ++ [NewEntryID conjID true] /\
  (forall b1 b2 txs needCache,
     tryUseIndexingTxCache conjID (withWildcard conjID b) = (Returned [], b1) ->
     indexingConjunction cj conjID b1 = (Returned (Ok (txs, needCache)), b2) ->
     buildConjEntries docID idx cj b =
     bind (if needCache then tryCacheIndexingTx conjID txs else ret tt)
          (fun _ => bind (commitIndexingTxs txs) (fun _ => ret NextConj)) b2).
Proof.
  intros HK conjID.
  assert (Hbody : buildConjEntries docID idx cj b =
                  indexAndCommit cj conjID (withWildcard conjID b)).
  { rewrite buildConjEntries_unfold. by rewrite HK. }
  split; [done|]. split.
  - rewrite Hbody.
    pose proof (indexAndCommit_keeps_wildcard cj conjID
                  (withWildcard conjID b)) as Hw.
    by injection Hw as Hw _.
  - intros b1 b2 txs needCache Hcache Hidx. rewrite Hbody.
    unfold indexAndCommit at 1. unfold bind at 1. rewrite Hcache.
    unfold bind at 1. by rewrite Hidx.
Qed.

(** *** Validation *)

Lemma validDocument_None (doc : Document Expr) :
  validDocument doc = None <-> 1 <= len (Cons doc) <= 255.
Proof.
  unfold validDocument.
  assert (0 <= len (Cons doc)) by (unfold len; lia).
  destruct (Z.eqb_spec (len (Cons doc)) 0);
    [split; [done|lia]|].
  destruct (Z.ltb_spec 255 (len (Cons doc))); split; (done || lia).
Qed.

Lemma buildDocEntries_valid (doc : Document Expr) b :
  validDocument doc = None ->
  buildDocEntries doc b = ConjLoop (DocID doc) 0 (Cons doc) b.
Proof.
  intros Hv. apply validDocument_None in Hv.
  unfold buildDocEntries, bind, PanicIf.
  destruct (Z.eqb_spec (len (Cons doc)) 0); [lia|].
  destruct (Z.ltb_spec 255 (len (Cons doc))); [lia|]. done.
Qed.

(** C5 (as the code has it). [validDocument] rejects a document exactly
    when its conjunction count is 0 or above 255 (so 256 conjunctions are
    rejected and 1 to 255 pass).  [AddDocument] returns that error,
    leaving the builder untouched, for a rejected document; for a
    document that passes it goes on to [buildDocEntries], whose own error
    (a conjunction that fails to index under the Error policy) it returns
    as well. *)
Theorem AddDocument_validation (doc : Document Expr)
    (docs : list (option (Document Expr))) (b : IndexerBuilder) :
  (validDocument doc <> None <->
     len (Cons doc) = 0 \/ 255 < len (Cons doc)) /\
  (len (Cons doc) = 0 \/ 255 < len (Cons doc) ->
     exists err, validDocument doc = Some err /\
       AddDocument (Some doc :: docs) b = (Returned (Some err), b)) /\
  (1 <= len (Cons doc) <= 255 ->
     validDocument doc = None /\
     AddDocument (Some doc :: docs) b =
     match buildDocEntries doc b with
     | (Returned (Some err), b') => (Returned (Some err), b')
     | (Returned None, b') => AddDocument docs b'
     | (Panicked msg, b') => (Panicked msg, b')
     end).
Proof.
  pose proof (validDocument_None doc) as Hv.
  assert (0 <= len (Cons doc)) by (unfold len; lia).
  split; [|split].
  - destruct (validDocument doc) as [e|]; split; intros Hx; try done.
    + destruct (decide (len (Cons doc) = 0)); [by left|right].
      destruct (decide (255 < len (Cons doc))); [done|].
      assert (Some e = None) by (apply Hv; lia). done.
    + assert (1 <= len (Cons doc) <= 255) by (by apply Hv). lia.
  - intros Hbad. simpl.
    destruct (validDocument doc) as [e|] eqn:E.
    + by exists e.
    + assert (1 <= len (Cons doc) <= 255) by (by apply Hv). lia.
  - intros Hok. apply Hv in Hok. split; [done|].
    simpl. rewrite Hok. unfold bind.
    by destruct (buildDocEntries doc b) as [[[e|]|msg] b'].
Qed.


(** *** Field configuration *)

Lemma configureField_fresh fld opt (b : IndexerBuilder) :
  fieldsData b !! fld = None ->
  let desc :=
    {| ID := Z.of_nat (size (fieldsData b));
       Field := fld;
       Option :=
         if Z.of_nat (String.length (Container opt)) =? 0
         then {| Parser := Parser opt; Container := HolderNameDefault |}
         else opt |} in
  configureField fld opt b =
  (Returned (Ok desc), set_fieldsData (<[fld := desc]> (fieldsData b)) b).
Proof.
  intros Hfresh. unfold configureField, bind, get, modify, ret.
  by rewrite Hfresh.
Qed.

Lemma configureField_twice fld opt (b : IndexerBuilder) :
  is_Some (fieldsData b !! fld) ->
  configureField fld opt b = (Returned (Err (ErrConfigureTwice fld)), b).
Proof.
  intros [desc Hd]. unfold configureField, bind, get, ret. by rewrite Hd.
Qed.

Lemma ConfigFields_dense (flds : list (string * FieldOption)) :
  forall b : IndexerBuilder,
  NoDup flds.*1 ->
  (forall f, f ∈ flds.*1 -> fieldsData b !! f = None) ->
  exists b',
    ConfigFields flds b = (Returned tt, b') /\
    (forall f d, fieldsData b !! f = Some d -> fieldsData b' !! f = Some d) /\
    forall (i : nat) fld opt, flds !! i = Some (fld, opt) ->
      exists desc, fieldsData b' !! fld = Some desc /\
                   ID desc = Z.of_nat (size (fieldsData b) + i).
Proof.
  induction flds as [|[fld opt] flds IH]; intros b Hnd Hfresh.
  - exists b. split; [done|]. split; [done|]. intros i ? ? Hi. done.
  - csimpl in Hnd. apply NoDup_cons in Hnd as [Hnotin Hnd].
    assert (Hf : fieldsData b !! fld = None) by (apply Hfresh; csimpl; left).
    pose proof (configureField_fresh fld opt b Hf) as Hcfg.
    simpl in Hcfg.
    set (desc := {| ID := Z.of_nat (size (fieldsData b)); Field := fld;
                    Option := if Z.of_nat (String.length (Container opt)) =? 0
                              then {| Parser := Parser opt;
                                      Container := HolderNameDefault |}
                              else opt |}) in *.
    set (b1 := set_fieldsData (<[fld := desc]> (fieldsData b)) b) in *.
    destruct (IH b1) as (b' & Hrun & Hkeep & Hids); [done| |].
    { intros f Hin. simpl. rewrite lookup_insert_ne.
      - apply Hfresh. csimpl. by right.
      - intros ->. done. }
    exists b'. split; [|split].
    + simpl. unfold bind at 1. unfold ConfigField, bind at 1.
      rewrite Hcfg. simpl. unfold bind. simpl. exact Hrun.
    + intros f d Hd. apply Hkeep. simpl. rewrite lookup_insert_ne; [done|].
      intros ->. congruence.
    + intros [|i] fld' opt' Hi; simpl in Hi.
      * injection Hi as <- <-. exists desc. split.
        -- apply Hkeep. simpl. by rewrite lookup_insert_eq.
        -- simpl. f_equal. lia.
      * destruct (Hids i fld' opt' Hi) as (d & Hd & Hid).
        exists d. split; [done|]. rewrite Hid. simpl.
        rewrite map_size_insert_None by done. f_equal. lia.
Qed.

(** C8. [configureField] hands out dense FieldIDs: a new field gets the
    number of fields configured before it as its ID, so on a fresh
    builder the n-th distinct field gets ID n-1; an empty [Container] is
    replaced by the default holder name; configuring a field a second
    time returns an error and leaves [fieldsData] (and the whole builder)
    unchanged. *)
Theorem configureField_dense_ids fld opt (b : IndexerBuilder) :
  (is_Some (fieldsData b !! fld) ->
     configureField fld opt b = (Returned (Err (ErrConfigureTwice fld)), b)) /\
  (fieldsData b !! fld = None ->
     exists desc,
       configureField fld opt b =
         (Returned (Ok desc), set_fieldsData (<[fld := desc]> (fieldsData b)) b) /\
       ID desc = Z.of_nat (size (fieldsData b)) /\
       Field desc = fld /\
       Parser (Option desc) = Parser opt /\
       Container (Option desc) =
         (if decide (Container opt = EmptyString)
          then HolderNameDefault else Container opt)) /\
  (forall flds : list (string * FieldOption),
     fieldsData b = ∅ -> NoDup flds.*1 ->
     exists b',
       ConfigFields flds b = (Returned tt, b') /\
       forall (n : nat) fld' opt', flds !! n = Some (fld', opt') ->
         exists desc, fieldsData b' !! fld' = Some desc /\
                      ID desc = Z.of_nat n).
Proof.
  split; [apply configureField_twice|]. split.
  - intros Hfresh. eexists. split; [by apply configureField_fresh|].
    simpl. repeat split.
    + by destruct (Z.of_nat (String.length (Container opt)) =? 0).
    + destruct (Container opt) as [|c rest] eqn:E; simpl; done.
  - intros flds Hempty Hnd.
    destruct (ConfigFields_dense flds b Hnd) as (b' & Hrun & _ & Hids).
    { intros f _. by rewrite Hempty, lookup_empty. }
    exists b'. split; [done|]. intros n fld' opt' Hn.
    destruct (Hids n fld' opt' Hn) as (d & Hd & Hid).
    exists d. split; [done|]. rewrite Hid, Hempty, map_size_empty. done.
Qed.

(** *** No rollback *)

Lemma ConjLoop_app docID (cs1 cs2 : list (Conjunction Expr)) :
  forall idx b,
  ConjLoop docID idx (cs1 ++ cs2) b =
  match ConjLoop docID idx cs1 b with
  | (Returned None, b') => ConjLoop docID (idx + len cs1) cs2 b'
  | r => r
  end.
Proof.
  induction cs1 as [|cj cs1 IH]; intros idx b.
  - simpl. unfold ret, len. simpl. by rewrite Z.add_0_r.
  - rewrite <- app_comm_cons, !ConjLoop_cons.
    destruct (buildConjEntries docID idx cj b) as [[[|e]|msg] b']; try done.
    rewrite IH. unfold len. simpl length.
    replace (idx + 1 + Z.of_nat (length cs1)) with
      (idx + Z.of_nat (S (length cs1))) by lia.
    done.
Qed.

Lemma AddDocument_app (docs1 docs2 : list (option (Document Expr))) :
  forall b,
  AddDocument (docs1 ++ docs2) b =
  match AddDocument docs1 b with
  | (Returned None, b') => AddDocument docs2 b'
  | r => r
  end.
Proof.
  induction docs1 as [|[doc|] docs1 IH]; intros b; simpl; try done.
  destruct (validDocument doc); [done|]. unfold bind.
  destruct (buildDocEntries doc b) as [[[e|]|msg] b']; try done.
Qed.

Lemma commit_never_returns_error (txs : list Tx) b e b' :
  bind (commitIndexingTxs txs) (fun _ => ret NextConj) b
    <> (Returned (ReturnErr e), b').
Proof.
  unfold bind. by destruct (commitIndexingTxs txs b) as [[u|msg] b''].
Qed.

Lemma buildConjEntries_ReturnErr docID idx (cj : Conjunction Expr) b e b' :
  buildConjEntries docID idx cj b = (Returned (ReturnErr e), b') ->
  holders (indexer b') = holders (indexer b) /\
  badConjBehavior b' = ErrorBadConj.
Proof.
  rewrite buildConjEntries_unfold.
  set (conjID := NewConjID docID idx (CalcConjSize cj)).
  set (b0 := if CalcConjSize cj =? 0 then withWildcard conjID b else b).
  assert (H0 : holders_of b0 = holders_of b).
  { subst b0. by destruct (CalcConjSize cj =? 0). }
  unfold indexAndCommit. unfold bind at 1.
  destruct (tryUseIndexingTxCache conjID b0) as [[txs|msg] b1] eqn:E1;
    [|done].
  pose proof (ran holders_of _ _ _ _
                (index_keeps_holders _ (tryUseIndexingTxCache_keeps conjID))
                E1) as H1.
  destruct txs as [|tx txs].
  - unfold bind at 1.
    destruct (indexingConjunction cj conjID b1) as [[r|msg] b2] eqn:E2;
      [|done].
    pose proof (ran holders_of _ _ _ _
                  (index_keeps_holders _ (indexingConjunction_keeps cj conjID))
                  E2) as H2.
    destruct r as [[txs needCache]|err].
    + unfold bind at 1.
      destruct ((if needCache then tryCacheIndexingTx conjID txs else ret tt) b2)
        as [[u|msg] b3]; [|done].
      intros Hx. by apply commit_never_returns_error in Hx.
    + unfold bind, get. simpl.
      destruct (Z.eqb_spec (badConjBehavior b2) SkipBadConj); [done|].
      destruct (Z.eqb_spec (badConjBehavior b2) ErrorBadConj) as [He|]; [|done].
      intros [= <- <-]. split; [|done].
      assert (Hh : holders_of b2 = holders_of b) by congruence.
      by injection Hh.
  - intros Hx. by apply commit_never_returns_error in Hx.
Qed.

(** C10. [AddDocument] over several documents is not atomic.  Documents
    are taken in order and the call returns at the first one that fails:
    if that document fails validation, the builder is left as the earlier
    documents made it; if one of its conjunctions fails to index (which
    returns an error only under the Error policy), the builder is left as
    the earlier documents and the earlier conjunctions of this document
    made it.  Nothing committed before is undone, and the documents after
    the failing one are not processed. *)
Theorem AddDocument_no_rollback
    (docs1 docs2 : list (option (Document Expr))) (doc : Document Expr)
    (b b1 : IndexerBuilder) :
  AddDocument docs1 b = (Returned None, b1) ->
  (forall err, validDocument doc = Some err ->
     AddDocument (docs1 ++ Some doc :: docs2) b = (Returned (Some err), b1)) /\
  (forall cs1 cj cs2 b2 b3 e,
     validDocument doc = None ->
     Cons doc = cs1 ++ cj :: cs2 ->
     ConjLoop (DocID doc) 0 cs1 b1 = (Returned None, b2) ->
     buildConjEntries (DocID doc) (len cs1) cj b2 = (Returned (ReturnErr e), b3) ->
     AddDocument (docs1 ++ Some doc :: docs2) b = (Returned (Some e), b3) /\
     holders (indexer b3) = holders (indexer b2) /\
     badConjBehavior b3 = ErrorBadConj).
Proof.
  intros Hfirst. split.
  - intros err Hv. rewrite AddDocument_app, Hfirst. simpl. by rewrite Hv.
  - intros cs1 cj cs2 b2 b3 e Hv Hcons Hloop Hfail.
    split; [|by eapply buildConjEntries_ReturnErr].
    rewrite AddDocument_app, Hfirst. simpl. rewrite Hv. unfold bind.
    rewrite buildDocEntries_valid by done.
    rewrite Hcons, ConjLoop_app, Hloop, ConjLoop_cons.
    rewrite Z.add_0_l, Hfail. done.
Qed.


(** *** The transaction cache *)

(** A cache miss of any kind falls back to recomputing: without a cache
    provider, without an entry for the conjunction, or with an entry that
    does not unmarshal, [tryUseIndexingTxCache] returns nil and leaves the
    builder as it is. *)
Lemma tryUseIndexingTxCache_miss conjID (b : IndexerBuilder) :
  builderCache b = None \/
  (exists c, builderCache b = Some c /\ cache_Get c conjID = None) \/
  (exists c data e, builderCache b = Some c /\
     cache_Get c conjID = Some data /\ proto_Unmarshal data = Err e) ->
  tryUseIndexingTxCache conjID b = (Returned [], b).
Proof.
  unfold tryUseIndexingTxCache, bind, get, ret.
  intros [Hc|[(c & Hc & Hg)|(c & data & e & Hc & Hg & Hu)]]; rewrite Hc; simpl;
    [done| |]; rewrite Hg; [done|]. by rewrite Hu.
Qed.

(** A decode failure falls back too (fields met before the failure stay
    configured). *)
Lemma tryUseIndexingTxCache_decode_failure conjID (b b' : IndexerBuilder) c data
    txCache :
  builderCache b = Some c ->
  cache_Get c conjID = Some data ->
  proto_Unmarshal data = Ok txCache ->
  tryUseIndexingTxCache_fields (map_to_list (cache.FieldData txCache))
    (ConjID_Size conjID) [] b = (Returned None, b') ->
  tryUseIndexingTxCache conjID b = (Returned [], b').
Proof.
  intros Hc Hg Hu Hf. unfold tryUseIndexingTxCache, bind, get.
  by rewrite Hc, Hg, Hu, Hf.
Qed.

(** After a nil result of the cache lookup the conjunction is recomputed by
    [indexingConjunction]. *)
Lemma indexAndCommit_recomputes (cj : Conjunction Expr) conjID
    (b b1 : IndexerBuilder) :
  tryUseIndexingTxCache conjID b = (Returned [], b1) ->
  indexAndCommit cj conjID b =
  bind (indexingConjunction cj conjID)
    (fun r =>
       match r with
       | Err err =>
           bind get (fun b =>
             if badConjBehavior b =? SkipBadConj then ret NextConj
             else if badConjBehavior b =? ErrorBadConj
                  then ret (ReturnErr (ErrIndexingConj conjID err))
                  else panic "indexing conj fail")
       | Ok (txs, needCache) =>
           bind (if needCache : bool
                 then tryCacheIndexingTx conjID txs else ret tt)
             (fun _ => bind (commitIndexingTxs txs) (fun _ => ret NextConj))
       end) b1.
Proof.
  intros Hmiss. unfold indexAndCommit. unfold bind at 1. by rewrite Hmiss.
Qed.

(** On a hit the cached transactions are committed and
    [indexingConjunction] is not run. *)
Lemma indexAndCommit_uses_cache (cj : Conjunction Expr) conjID
    (b b1 : IndexerBuilder) tx txs :
  tryUseIndexingTxCache conjID b = (Returned (tx :: txs), b1) ->
  indexAndCommit cj conjID b =
  bind (commitIndexingTxs (tx :: txs)) (fun _ => ret NextConj) b1.
Proof.
  intros Hhit. unfold indexAndCommit. unfold bind at 1. by rewrite Hhit.
Qed.

(** The cache message has one [FieldCache] per field name of the
    transactions: a later transaction on a field replaces an earlier one. *)
Lemma tryCacheIndexingTx_txs_dom (txs : list Tx) m m' :
  tryCacheIndexingTx_txs txs m = Some m' ->
  dom m' = dom m ∪ list_to_set ((fun tx : Tx => Field (field tx)) <$> txs).
Proof.
  revert m. induction txs as [|tx txs IH]; intros m; csimpl.
  - intros [= <-]. by rewrite (right_id_L ∅ (∪)).
  - destruct (Encode (Data tx)) as [content|]; [|done].
    intros Hm'. rewrite (IH _ Hm'), dom_insert_L.
    by rewrite (comm_L (∪) {[Field (field tx)]} (dom m)), !(assoc_L (∪)).
Qed.

Lemma tryUseIndexingTxCache_fields_length fieldData incSize (acc : list Tx)
    (b b' : IndexerBuilder) cached :
  tryUseIndexingTxCache_fields fieldData incSize acc b = (Returned (Some cached), b') ->
  length cached = (length acc + length fieldData)%nat.
Proof.
  revert acc b. induction fieldData as [|[fld fc] fieldData IH]; intros acc b; simpl.
  - intros [= <- <-]. lia.
  - unfold bind at 1.
    destruct (createFieldData fld b) as [[desc|msg] b1]; [|done].
    destruct (holder_DecodeTxData _ _) as [txData|]; [|done].
    intros Hrec. rewrite (IH _ _ Hrec), length_app. simpl. lia.
Qed.

(** The defect behind C7, for any collaborators: when two transactions of
    a conjunction are on the same field, a cache hit gives back fewer
    transactions than were cached. *)
Lemma cache_hit_loses_transactions (txs cached : list Tx) fieldData incSize
    (b b' : IndexerBuilder) :
  ~ NoDup ((fun tx : Tx => Field (field tx)) <$> txs) ->
  tryCacheIndexingTx_txs txs ∅ = Some fieldData ->
  tryUseIndexingTxCache_fields (map_to_list fieldData) incSize [] b =
    (Returned (Some cached), b') ->
  (length cached < length txs)%nat.
Proof.
  intros Hdup Hcache Hhit.
  rewrite (tryUseIndexingTxCache_fields_length _ _ _ _ _ _ Hhit). simpl.
  rewrite length_map_to_list, <- size_dom.
  rewrite (tryCacheIndexingTx_txs_dom _ _ _ Hcache), dom_empty_L.
  rewrite (left_id_L ∅ (∪)).
  apply size_list_to_set_lt in Hdup. by rewrite length_fmap in Hdup.
Qed.

End builder_proofs.
End BuilderProofs.

(** * The properties on concrete inputs *)

Module Examples.
Import Sample.

#[local] Existing Instance collaborators.

(** C2, the claim as stated fails: on an empty holder [AppendEntryID]
    leaves the single-element entries [[7]], not two copies of 7. *)
Lemma AppendEntryID_absent_counterexample :
  let key := NewKey 0 1 in
  let h' := (Holder.AppendEntryID key 7 emptyHolder).2 in
  Holder.plEntries emptyHolder !! key = None /\
  Holder.plEntries h' !! key = Some [7] /\
  ~ (exists entries, Holder.plEntries h' !! key = Some entries /\
                     count_occ Z.eq_dec entries 7 = 2%nat).
Proof.
  split; [done|]. split; [by vm_compute|].
  intros (entries & Hlk & Hcount). vm_compute in Hlk.
  injection Hlk as <-. vm_compute in Hcount. discriminate.
Qed.

(** C3 on a holder made by three appends. *)
Lemma CompileEntries_sorted_stats_witness :
  let h' := (Holder.CompileEntries threeAppends).2 in
  (forall key P0, Holder.plEntries threeAppends !! key = Some P0 ->
     exists P, Holder.plEntries h' !! key = Some P /\ P ≡ₚ P0) /\
  (forall key, Holder.plEntries threeAppends !! key = None ->
     Holder.plEntries h' !! key = None) /\
  (forall key P, Holder.plEntries h' !! key = Some P ->
     (forall (i : nat) a b, P !! i = Some a -> P !! S i = Some b -> a <= b) /\
     exists P0, Holder.plEntries threeAppends !! key = Some P0 /\ P ≡ₚ P0) /\
  (forall key P, Holder.plEntries h' !! key = Some P -> len P <= Holder.maxLen h') /\
  (Holder.plEntries h' <> ∅ ->
     exists key P, Holder.plEntries h' !! key = Some P /\ len P = Holder.maxLen h') /\
  (Holder.plEntries h' = ∅ -> Holder.maxLen h' = 0) /\
  (Holder.plEntries h' <> ∅ ->
     Holder.avgLen h' =
     Z.quot (Holder.total_len (Holder.plEntries h'))
            (Z.of_nat (size (Holder.plEntries h')))) /\
  (Holder.plEntries h' = ∅ -> Holder.avgLen h' = 0).
Proof.
  apply (HolderProofs.CompileEntries_sorted_stats NewKey newQKey
           NewEntriesCursor threeAppends).
  - unfold threeAppends.
    eapply Holder.reachable_step; [|apply Holder.step_AppendEntryID].
    eapply Holder.reachable_step; [|apply Holder.step_AppendEntryID].
    eapply Holder.reachable_step; [|apply Holder.step_AppendEntryID].
    apply Holder.reachable_new.
  - vm_compute. reflexivity.
Defined.

(** What [CompileEntries] makes of that holder. *)
Example CompileEntries_threeAppends :
  let h' := (Holder.CompileEntries threeAppends).2 in
  Holder.plEntries threeAppends !! NewKey 0 1 = Some [9; 3] /\
  Holder.plEntries h' !! NewKey 0 1 = Some [3; 9] /\
  Holder.plEntries h' !! NewKey 0 2 = Some [5] /\
  Holder.maxLen h' = 2 /\ Holder.avgLen h' = 1.
Proof. vm_compute. repeat split; reflexivity. Qed.


(** C1, the claim as stated fails: for the size-0 conjunction
    [NOT a IN {5}] of document 7 the builder emits the wildcard entry and
    then does index and commit the expression: the exclude entry is in
    the posting list of token 5, and the holders have changed. *)
Lemma wildcard_conjunction_counterexample :
  let b := newBuilder Builder.ErrorBadConj None in
  let r := Builder.buildConjEntries 7 0 onlyExclude b in
  let conjID := NewConjID 7 0 0 in
  CalcConjSize onlyExclude = 0 /\
  r.1 = Builder.Returned Builder.NextConj /\
  Builder.wildcardEntries (Builder.indexer r.2) = [NewEntryID conjID true] /\
  postings r.2 0 (NewKey 0 5) = [NewEntryID conjID false] /\
  Builder.holders (Builder.indexer r.2) <> Builder.holders (Builder.indexer b).
Proof.
  repeat split; try (vm_compute; reflexivity).
  intros Heq.
  assert (Hp : postings (Builder.buildConjEntries 7 0 onlyExclude
                           (newBuilder Builder.ErrorBadConj None)).2
                 0 (NewKey 0 5) = []).
  { unfold postings. rewrite Heq. reflexivity. }
  vm_compute in Hp. discriminate.
Qed.

(** C1 as amended, on the same conjunction. *)
Lemma wildcard_conjunction_still_indexed_witness :
  let b := newBuilder Builder.ErrorBadConj None in
  let conjID := NewConjID 7 0 0 in
  Builder.buildConjEntries 7 0 onlyExclude b =
    Builder.indexAndCommit onlyExclude conjID (Builder.withWildcard conjID b) /\
  Builder.wildcardEntries
    (Builder.indexer (Builder.buildConjEntries 7 0 onlyExclude b).2) =
    Builder.wildcardEntries (Builder.indexer b) ++ [NewEntryID conjID true] /\
  (forall b1 b2 txs needCache,
     Builder.tryUseIndexingTxCache conjID (Builder.withWildcard conjID b) =
       (Builder.Returned [], b1) ->
     Builder.indexingConjunction onlyExclude conjID b1 =
       (Builder.Returned (Ok (txs, needCache)), b2) ->
     Builder.buildConjEntries 7 0 onlyExclude b =
     Builder.bind
       (if needCache then Builder.tryCacheIndexingTx conjID txs
        else Builder.ret tt)
       (fun _ => Builder.bind (Builder.commitIndexingTxs txs)
                   (fun _ => Builder.ret Builder.NextConj)) b2).
Proof.
  apply (@BuilderProofs.wildcard_conjunction_still_indexed collaborators
           7 0 onlyExclude (newBuilder Builder.ErrorBadConj None)).
  reflexivity.
Defined.

(** C4 on the conjunction [a IN {-1}], under the Skip policy. *)
Lemma bad_conjunction_behavior_witness :
  let b := newBuilder Builder.SkipBadConj None in
  let conjID := NewConjID 7 0 1 in
  let b2 := (Builder.indexingConjunction badConj conjID b).2 in
  let err := ErrIndexingField "a" (ExternalError "negative value") in
  Builder.holders (Builder.indexer b2) = Builder.holders (Builder.indexer b) /\
  (Builder.badConjBehavior b = Builder.SkipBadConj ->
     Builder.ConjLoop 7 0 [badConj; goodConj] b =
     Builder.ConjLoop 7 (0 + 1) [goodConj] b2) /\
  (Builder.badConjBehavior b = Builder.ErrorBadConj ->
     Builder.ConjLoop 7 0 [badConj; goodConj] b =
     (Builder.Returned (Some (ErrIndexingConj conjID err)), b2)) /\
  (Builder.badConjBehavior b <> Builder.SkipBadConj ->
   Builder.badConjBehavior b <> Builder.ErrorBadConj ->
     exists msg, Builder.ConjLoop 7 0 [badConj; goodConj] b =
                 (Builder.Panicked msg, b2)).
Proof.
  apply (@BuilderProofs.bad_conjunction_behavior collaborators
           7 0 badConj [goodConj]
           (newBuilder Builder.SkipBadConj None)
           (newBuilder Builder.SkipBadConj None)).
  - reflexivity.
  - reflexivity.
Defined.

(** The three policies on the document [a IN {-1}] OR [a IN {1}]: Skip
    indexes the second conjunction, Error returns, Panic (and 7) panic. *)
Example bad_conjunction_policies :
  let doc := document 7 [badConj; goodConj] in
  let run behavior :=
    Builder.buildDocEntries doc (newBuilder behavior None) in
  let err := ErrIndexingConj (NewConjID 7 0 1)
               (ErrIndexingField "a" (ExternalError "negative value")) in
  (run Builder.SkipBadConj).1 = Builder.Returned None /\
  postings (run Builder.SkipBadConj).2 1 (NewKey 0 1) =
    [NewEntryID (NewConjID 7 1 1) true] /\
  (run Builder.ErrorBadConj).1 = Builder.Returned (Some err) /\
  (run Builder.PanicBadConj).1 = Builder.Panicked "indexing conj fail" /\
  (run 7).1 = Builder.Panicked "indexing conj fail".
Proof. vm_compute. repeat split; reflexivity. Qed.

(** C5, the claim as stated fails: under the Error policy [AddDocument]
    returns an error for a document with one conjunction, when that
    conjunction fails to index. *)
Lemma AddDocument_error_counterexample :
  let doc := document 7 [badConj] in
  let b := newBuilder Builder.ErrorBadConj None in
  (exists err, (Builder.AddDocument [Some doc] b).1 =
               Builder.Returned (Some err)) /\
  len (Builder.Cons doc) = 1 /\
  ~ (len (Builder.Cons doc) = 0 \/ 255 < len (Builder.Cons doc)).
Proof.
  split; [eexists; vm_compute; reflexivity|].
  split; [reflexivity|]. vm_compute. intros [?|?]; discriminate.
Qed.

(** C5 as amended, on a document with one conjunction. *)
Lemma AddDocument_validation_witness :
  let doc := document 7 [goodConj] in
  let b := newBuilder Builder.ErrorBadConj None in
  Builder.validDocument doc = None /\
  Builder.AddDocument [Some doc] b =
  match Builder.buildDocEntries doc b with
  | (Builder.Returned (Some err), b') => (Builder.Returned (Some err), b')
  | (Builder.Returned None, b') => Builder.AddDocument [] b'
  | (Builder.Panicked msg, b') => (Builder.Panicked msg, b')
  end.
Proof.
  apply (proj2 (proj2 (@BuilderProofs.AddDocument_validation collaborators
                         (document 7 [goodConj]) []
                         (newBuilder Builder.ErrorBadConj None)))).
  vm_compute. split; discriminate.
Defined.

(** Documents with 0 and with 256 conjunctions are rejected, and nothing
    is committed, whatever the conjunctions are. *)
Example AddDocument_rejects_0_and_256 :
  let b := newBuilder Builder.ErrorBadConj None in
  Builder.AddDocument [Some (document 1 [])] b =
    (Builder.Returned (Some ErrNoConjunctions), b) /\
  Builder.AddDocument [Some (document 1 (replicate 256 goodConj))] b =
    (Builder.Returned (Some ErrTooManyConjunctions), b) /\
  Builder.validDocument (document 1 (replicate 255 goodConj)) = None.
Proof. repeat split; reflexivity. Qed.

(** C7 at the failing input: document 7 with the conjunction
    [a IN {1} AND a IN {2}], built with an empty cache and then built
    again, on a new builder, with the cache the first build filled.  The
    first build commits both transactions; the cached message holds one
    [FieldCache] for field [a], so the second build commits only the
    transaction of token 2 and the posting list of token 1 stays empty. *)
Theorem cache_drops_same_field_transaction :
  let doc := document 7 [twoOnOneField] in
  let eid := NewEntryID (NewConjID 7 0 2) true in
  let first := Builder.AddDocument [Some doc]
                 (newBuilder Builder.ErrorBadConj (Some ∅)) in
  let second := Builder.AddDocument [Some doc]
                  (newBuilder Builder.ErrorBadConj
                     (Builder.builderCache first.2)) in
  first.1 = Builder.Returned None /\
  second.1 = Builder.Returned None /\
  postings first.2 2 (NewKey 0 1) = [eid] /\
  postings first.2 2 (NewKey 0 2) = [eid] /\
  postings second.2 2 (NewKey 0 1) = [] /\
  postings second.2 2 (NewKey 0 2) = [eid] /\
  (exists c, Builder.builderCache first.2 = Some c /\
     size (cache.FieldData <$> (c : gmap Z _)) = 1%nat /\
     (forall fd, (cache.FieldData <$> c) !! NewConjID 7 0 2 = Some fd ->
                 size fd = 1%nat)).
Proof.
  repeat split; try (vm_compute; reflexivity).
  eexists. split; [reflexivity|]. split; [reflexivity|].
  intros fd Hfd. injection Hfd as <-. reflexivity.
Qed.

(** C8 on a fresh builder: three fields get the IDs 0, 1, 2. *)
Lemma configureField_dense_ids_witness :
  let b := newBuilder Builder.ErrorBadConj None in
  let opt := {| Builder.Parser := "number"; Builder.Container := EmptyString |} in
  let flds := [("age"%string, opt); ("city"%string, opt); ("tag"%string, opt)] in
  exists b',
    Builder.ConfigFields flds b = (Builder.Returned tt, b') /\
    forall (n : nat) fld' opt', flds !! n = Some (fld', opt') ->
      exists desc, Builder.fieldsData b' !! fld' = Some desc /\
                   Builder.ID desc = Z.of_nat n.
Proof.
  apply (proj2 (proj2 (@BuilderProofs.configureField_dense_ids collaborators
                         "age" {| Builder.Parser := "number";
                                  Builder.Container := EmptyString |}
                         (newBuilder Builder.ErrorBadConj None)))).
  - reflexivity.
  - apply NoDup_ListNoDup. repeat constructor; simpl; intuition discriminate.
Defined.

(** The sample builders are what [NewIndexerBuilder] returns. *)
Example NewIndexerBuilder_sample :
  Builder.NewIndexerBuilder
    [Builder.WithBadConjBehavior Builder.SkipBadConj;
     Builder.WithCacheProvider (Some ∅)] =
    Builder.Returned (newBuilder Builder.SkipBadConj (Some ∅)) /\
  Builder.NewIndexerBuilder [] =
    Builder.Returned (newBuilder Builder.ErrorBadConj None) /\
  Builder.NewIndexerBuilder [Builder.WithIndexerType 5] =
    Builder.Panicked "type not supported".
Proof. repeat split; reflexivity. Qed.

Example configureField_three_fields :
  let b := newBuilder Builder.ErrorBadConj None in
  let opt := {| Builder.Parser := "number"; Builder.Container := EmptyString |} in
  let b' := (Builder.ConfigFields
               [("age"%string, opt); ("city"%string, opt)] b).2 in
  Builder.fieldsData b' !! "age"%string =
    Some {| Builder.ID := 0; Builder.Field := "age";
            Builder.Option := {| Builder.Parser := "number";
                                 Builder.Container := "default" |} |} /\
  Builder.fieldsData b' !! "city"%string =
    Some {| Builder.ID := 1; Builder.Field := "city";
            Builder.Option := {| Builder.Parser := "number";
                                 Builder.Container := "default" |} |} /\
  Builder.configureField "age" opt b' =
    (Builder.Returned (Err (ErrConfigureTwice "age")), b').
Proof. repeat split; reflexivity. Qed.

(** C10 on three documents: the first is indexed; the second has a good
    conjunction and then one that fails under the Error policy; the
    third is never processed.  The entries of document 1 and of the first
    conjunction of document 2 stay in the holders. *)
Lemma AddDocument_no_rollback_witness :
  let b := newBuilder Builder.ErrorBadConj None in
  let doc1 := document 1 [goodConj] in
  let doc2 := document 2 [goodConj; badConj] in
  let doc3 := document 3 [goodConj] in
  let b1 := (Builder.AddDocument [Some doc1] b).2 in
  let b2 := (Builder.ConjLoop 2 0 [goodConj] b1).2 in
  let b3 := (Builder.buildConjEntries 2 1 badConj b2).2 in
  let e := ErrIndexingConj (NewConjID 2 1 1)
             (ErrIndexingField "a" (ExternalError "negative value")) in
  Builder.AddDocument ([Some doc1] ++ Some doc2 :: [Some doc3]) b =
    (Builder.Returned (Some e), b3) /\
  Builder.holders (Builder.indexer b3) = Builder.holders (Builder.indexer b2) /\
  Builder.badConjBehavior b3 = Builder.ErrorBadConj.
Proof.
  apply (proj2 (@BuilderProofs.AddDocument_no_rollback collaborators
                  [Some (document 1 [goodConj])] [Some (document 3 [goodConj])]
                  (document 2 [goodConj; badConj])
                  (newBuilder Builder.ErrorBadConj None)
                  (Builder.AddDocument [Some (document 1 [goodConj])]
                     (newBuilder Builder.ErrorBadConj None)).2
                  ltac:(reflexivity))
           [goodConj] badConj []).
  - reflexivity.
  - reflexivity.
  - reflexivity.
  - reflexivity.
Defined.

Example AddDocument_keeps_earlier_entries :
  let b := newBuilder Builder.ErrorBadConj None in
  let r := Builder.AddDocument
             [Some (document 1 [goodConj]);
              Some (document 2 [goodConj; badConj]);
              Some (document 3 [goodConj])] b in
  postings r.2 1 (NewKey 0 1) =
    [NewEntryID (NewConjID 1 0 1) true; NewEntryID (NewConjID 2 0 1) true].
Proof. vm_compute. reflexivity. Qed.

(** C6 and C9 on a compiled holder: the query [age IN {1, 7, 2}] gets one
    cursor for token 1 and one for token 2 (token 7 has no posting list);
    a query with a rejected value gets the nil group and the error; the
    holder is the same afterwards. *)
Example GetEntries_sample :
  let h := (Holder.CompileEntries threeAppends).2 in
  Holder.GetEntries NewKey newQKey NewEntriesCursor age [1; 7; 2] h =
    (([(("age"%string, 1), [3; 9]); (("age"%string, 2), [5])], None), h) /\
  Holder.GetEntries NewKey newQKey NewEntriesCursor age [1; -4; 2] h =
    (([], Some (ExternalError "negative value")), h).
Proof. split; reflexivity. Qed.

End Examples.

(** * Further properties of the holder *)

Module HolderExtras.
Import Holder HolderMore.

Section holder_extras.
Context {Val : Type}.
Context {Key : Type} `{Countable Key}.
Variable NewKey : Z -> Z -> Key.
Context {QKey : Type}.
Variable newQKey : string -> Val -> QKey.
Context {EntriesCursor : Type}.
Variable NewEntriesCursor : QKey -> list Z -> EntriesCursor.

Abbreviation holder := (@DefaultEntriesHolder Key _ _).
Abbreviation fdesc := (@fieldDesc Val).

Lemma appended_appended o n m eid :
  appended (appended o n eid) m eid = appended o (n + m) eid.
Proof.
  destruct n as [|n]; [done|]. destruct m as [|m].
  - by rewrite Nat.add_0_r.
  - simpl. f_equal. rewrite <- app_assoc. f_equal.
    change (eid :: replicate n eid) with (replicate (S n) eid).
    change (eid :: replicate m eid) with (replicate (S m) eid).
    change (eid :: replicate (n + S m) eid) with (replicate (S n + S m) eid).
    by rewrite replicate_add.
Qed.

Lemma AppendEntryID_lookup (k key : Key) (id : Z) (h : holder) :
  plEntries (AppendEntryID k id h).2 !! key =
  appended (plEntries h !! key) (if decide (k = key) then 1 else 0) id.
Proof.
  rewrite HolderProofs.AppendEntryID_plEntries.
  destruct (decide (k = key)) as [->|Hne].
  - by rewrite lookup_insert_eq.
  - by rewrite lookup_insert_ne.
Qed.

Lemma AddFieldEID_ids_run (field : fdesc) ids (eid : Z) (h : holder) :
  let r := AddFieldEID_ids NewKey field ids eid h in
  r.1 = tt /\
  (forall key,
     plEntries r.2 !! key =
     appended (plEntries h !! key)
       (length (filter (fun id => NewKey (ID field) id = key) ids)) eid) /\
  debug r.2 = debug h /\ maxLen r.2 = maxLen h /\ avgLen r.2 = avgLen h.
Proof.
  revert h. induction ids as [|id ids IH]; intros h; [done|].
  simpl. unfold bind at 1 2 3 4 5.
  destruct (AppendEntryID (NewKey (ID field) id) eid h) as [u h1] eqn:E.
  assert (Eh : h1 = (AppendEntryID (NewKey (ID field) id) eid h).2)
    by (by rewrite E).
  destruct (IH h1) as (Hu & Hlk & Hd & Hm & Ha).
  destruct (HolderProofs.AppendEntryID_frame (NewKey (ID field) id) eid h)
    as (Hd1 & Hm1 & Ha1).
  rewrite <- Eh in Hd1, Hm1, Ha1.
  split; [by destruct (AddFieldEID_ids _ _ _ _ _).1|].
  split; [|by rewrite Hd, Hm, Ha].
  intros key. rewrite Hlk, Eh, AppendEntryID_lookup, appended_appended.
  f_equal. rewrite filter_cons. by destruct (decide _).
Qed.

Lemma AddFieldEID_ids_app (field : fdesc) ids1 ids2 (eid : Z) (h : holder) :
  (AddFieldEID_ids NewKey field (ids1 ++ ids2) eid h).2 =
  (AddFieldEID_ids NewKey field ids2 eid
     (AddFieldEID_ids NewKey field ids1 eid h).2).2.
Proof.
  revert h. induction ids1 as [|id ids1 IH]; intros h; [done|].
  simpl. unfold bind.
  destruct (AppendEntryID (NewKey (ID field) id) eid h) as [u h1].
  apply IH.
Qed.

Lemma AddFieldEID_success (field : fdesc) values (eid : Z) (h : holder) ids :
  parse_values (Parser field) values = Ok ids ->
  AddFieldEID NewKey field values eid h =
  (None, (AddFieldEID_ids NewKey field ids eid h).2).
Proof.
  revert h ids. induction values as [|v values IH]; intros h ids; simpl.
  - by intros [= <-].
  - destruct (ParseValue (Parser field) v) as [ids1|e]; [|done].
    destruct (parse_values (Parser field) values) as [rest|e]; [|done].
    intros [= <-]. unfold bind.
    destruct (AddFieldEID_ids NewKey field ids1 eid h) as [u h1] eqn:E.
    rewrite (IH h1 rest eq_refl), AddFieldEID_ids_app. by rewrite E.
Qed.

(** X1. When every value parses, [AddFieldEID] returns no error and
    appends the EntryID once for every token id produced, duplicates
    included: the posting list of a key grows at its end by as many copies
    of [eid] as there are token ids that map to the key, keys that no token
    id maps to are left as they are, and the statistics are untouched. *)
Theorem AddFieldEID_appends (field : fdesc) (values : list Val) (eid : Z)
    (h : holder) (ids : list Z) :
  parse_values (Parser field) values = Ok ids ->
  let r := AddFieldEID NewKey field values eid h in
  r.1 = None /\
  (forall key,
     plEntries r.2 !! key =
     appended (plEntries h !! key)
       (length (filter (fun id => NewKey (ID field) id = key) ids)) eid) /\
  debug r.2 = debug h /\ maxLen r.2 = maxLen h /\ avgLen r.2 = avgLen h.
Proof.
  intros Hp. simpl. rewrite (AddFieldEID_success _ _ _ _ _ Hp). simpl.
  split; [done|]. apply AddFieldEID_ids_run.
Qed.

(** X2. [AddFieldEID] stops at the first value that does not parse and
    returns that error wrapped with the field name; the EntryIDs appended
    for the values before it stay in the holder (there is no rollback), and
    the values after it are not looked at. *)
Theorem AddFieldEID_stops_at_first_error (field : fdesc)
    (vs1 vs2 : list Val) (v : Val) (eid : Z) (h : holder) ids e :
  parse_values (Parser field) vs1 = Ok ids ->
  ParseValue (Parser field) v = Err e ->
  AddFieldEID NewKey field (vs1 ++ v :: vs2) eid h =
  (Some (ErrParseValueFail (Field field) e),
   (AddFieldEID NewKey field vs1 eid h).2).
Proof.
  revert h ids. induction vs1 as [|v1 vs1 IH]; intros h ids; simpl.
  - intros _ Hv. by rewrite Hv.
  - destruct (ParseValue (Parser field) v1) as [ids1|e1]; [|done].
    destruct (parse_values (Parser field) vs1) as [rest|e1] eqn:Er; [|done].
    intros _ Hv. unfold bind.
    destruct (AddFieldEID_ids NewKey field ids1 eid h) as [u h1].
    by apply (IH h1 rest).
Qed.


(** X3. Whatever the values are, and whether or not one of them fails to
    parse, [AddFieldEID] only appends: every posting list afterwards is the
    list held before (absent lists counting as empty) followed by some
    number of copies of [eid], possibly none; nothing is removed, reordered
    or rewritten, and the statistics are untouched. *)
Theorem AddFieldEID_only_appends (field : fdesc) (values : list Val) (eid : Z)
    (h : holder) :
  let h' := (AddFieldEID NewKey field values eid h).2 in
  (forall key, exists n : nat,
     plEntries h' !! key = appended (plEntries h !! key) n eid) /\
  debug h' = debug h /\ maxLen h' = maxLen h /\ avgLen h' = avgLen h.
Proof.
  revert h. induction values as [|v values IH]; intros h; simpl.
  - split; [|done]. intros key. by exists 0%nat.
  - destruct (ParseValue (Parser field) v) as [ids|e].
    + unfold bind.
      pose proof (AddFieldEID_ids_run field ids eid h) as (_ & Hlk & Hd & Hm & Ha).
      destruct (AddFieldEID_ids NewKey field ids eid h) as [u h1].
      simpl in Hlk, Hd, Hm, Ha.
      destruct (IH h1) as (Hlk' & Hd' & Hm' & Ha').
      split; [|by rewrite Hd', Hm', Ha'].
      intros key. destruct (Hlk' key) as [n Hn].
      eexists. by rewrite Hn, Hlk, appended_appended.
    + split; [|done]. intros key. by exists 0%nat.
Qed.

(** X4. What is added is found: once [AddFieldEID] has added [eid] for
    values that all parse and the holder is compiled, a query value whose
    [ParseAssign] is one of the token ids added gets exactly one cursor,
    tagged [QKey(field, value)], over a sorted posting list that contains
    [eid]; the query changes nothing. *)
Theorem added_entry_is_found (field : fdesc) (values : list Val) (eid : Z)
    (h : holder) (ids : list Z) (id : Z) (v : Val) :
  parse_values (Parser field) values = Ok ids ->
  id ∈ ids ->
  ParseAssign (Parser field) v = Ok [id] ->
  let h1 := (AddFieldEID NewKey field values eid h).2 in
  let h2 := (CompileEntries h1).2 in
  exists P,
    GetEntries NewKey newQKey NewEntriesCursor field [v] h2 =
      (([NewEntriesCursor (newQKey (Field field) v) P], None), h2) /\
    eid ∈ P /\ Sorted Z.le P.
Proof.
  intros Hp Hid Hv. simpl.
  rewrite (AddFieldEID_success _ _ _ _ _ Hp). simpl.
  pose proof (AddFieldEID_ids_run field ids eid h) as (_ & Hlk & _).
  simpl in Hlk. specialize (Hlk (NewKey (ID field) id)).
  set (h1 := (AddFieldEID_ids NewKey field ids eid h).2) in *.
  assert (Hcount : exists n,
            length (filter (fun id' => NewKey (ID field) id' = NewKey (ID field) id)
                      ids) = S n).
  { destruct (filter _ ids) as [|x l] eqn:E; [|by eexists].
    assert (Hin : id ∈ filter (fun id' => NewKey (ID field) id' = NewKey (ID field) id)
                        ids) by (by apply list_elem_of_filter).
    rewrite E in Hin. by apply elem_of_nil in Hin. }
  destruct Hcount as [n Hn]. rewrite Hn in Hlk. simpl in Hlk.
  set (P0 := default [] (plEntries h !! NewKey (ID field) id)
             ++ eid :: replicate n eid) in *.
  assert (Hin : eid ∈ sort_entries P0).
  { unfold sort_entries. rewrite merge_sort_Permutation. subst P0.
    apply elem_of_app. right. left. }
  exists (sort_entries P0). split; [|split; [done|]].
  - unfold GetEntries. rewrite HolderProofs.GetEntries_loop_run. simpl.
    rewrite Hv. simpl. unfold cursor_of.
    rewrite HolderProofs.CompileEntries_run. simpl.
    rewrite lookup_fmap, Hlk. simpl.
    destruct (sort_entries P0) as [|e es]; [by apply elem_of_nil in Hin|done].
  - unfold sort_entries. apply Sorted_merge_sort, _.
Qed.

Lemma sort_entries_idem (l : list Z) :
  sort_entries (sort_entries l) = sort_entries l.
Proof.
  unfold sort_entries.
  apply (Sorted_unique Z.le); try apply Sorted_merge_sort; try apply _.
  apply merge_sort_Permutation.
Qed.

Lemma foldl_maxLen_sorted (l : list (Key * list Z)) (m : Z) :
  foldl (fun m kv => if m <? len kv.2 then len kv.2 else m) m
    (prod_map id sort_entries <$> l) =
  foldl (fun m kv => if m <? len kv.2 then len kv.2 else m) m l.
Proof.
  revert m. induction l as [|[k v] l IH]; intros m; [done|].
  csimpl. by rewrite HolderProofs.len_sort_entries, IH.
Qed.

Lemma foldl_total_sorted (l : list (Key * list Z)) (t : Z) :
  foldl (fun t kv => int64_wrap (t + len kv.2)) t
    (prod_map id sort_entries <$> l) =
  foldl (fun t kv => int64_wrap (t + len kv.2)) t l.
Proof.
  revert t. induction l as [|[k v] l IH]; intros t; [done|].
  csimpl. by rewrite HolderProofs.len_sort_entries, IH.
Qed.

Lemma foldl_maxLen_idem (l : list (Key * list Z)) (m : Z) :
  foldl (fun m kv => if m <? len kv.2 then len kv.2 else m)
    (foldl (fun m kv => if m <? len kv.2 then len kv.2 else m) m l) l =
  foldl (fun m kv => if m <? len kv.2 then len kv.2 else m) m l.
Proof.
  destruct (HolderProofs.foldl_maxLen_spec l m) as (_ & Hall & _).
  destruct (HolderProofs.foldl_maxLen_spec l
              (foldl (fun m kv => if m <? len kv.2 then len kv.2 else m) m l))
    as (Hle & _ & [Heq|(kv & Hin & Heq)]); [done|].
  apply Z.le_antisymm; [|done]. rewrite Heq. by apply Hall.
Qed.

(** X5. [CompileEntries] is idempotent: compiling a compiled holder again
    changes nothing, neither the posting lists nor [maxLen] nor [avgLen]. *)
Theorem CompileEntries_idempotent (h : holder) :
  (CompileEntries (CompileEntries h).2).2 = (CompileEntries h).2.
Proof.
  rewrite (HolderProofs.CompileEntries_run (CompileEntries h).2).
  rewrite !HolderProofs.CompileEntries_run. simpl.
  rewrite map_size_fmap, map_to_list_fmap.
  rewrite foldl_maxLen_sorted, foldl_maxLen_idem, foldl_total_sorted.
  f_equal.
  - by destruct (0 <? Z.of_nat (size (plEntries h))).
  - rewrite <- map_fmap_compose. apply map_fmap_ext.
    intros k l _. apply sort_entries_idem.
Qed.

(** X6. Go visits [h.plEntries] in an unspecified order; the outcome of
    [makeEntriesSorted] does not depend on it: visiting the keys in any
    order gives the same posting lists, the same [maxLen] and the same
    [avgLen] (also when the [int64] total wraps). *)
Theorem makeEntriesSorted_order_irrelevant (kvs : list (Key * list Z))
    (h : holder) :
  kvs ≡ₚ map_to_list (plEntries h) ->
  makeEntriesSorted_visiting kvs h = makeEntriesSorted h.
Proof.
  intros Hp. unfold makeEntriesSorted_visiting, makeEntriesSorted.
  unfold bind at 1. unfold bind at 2. unfold get at 2. simpl.
  unfold bind at 2.
  by rewrite (HolderProofs.makeEntriesSorted_any_order kvs h Hp).
Qed.

Lemma length_omap_le {A C} (f : A -> option C) (l : list A) :
  (length (omap f l) <= length l)%nat.
Proof.
  induction l as [|x l IH]; csimpl; [done|].
  destruct (f x); simpl; lia.
Qed.

(** X7. [GetEntries] gives at most one cursor per token id of the query,
    and none for token ids whose key is absent or holds an empty list: on
    a holder where that is so for every token id of the query (an empty
    holder, say) the group is nil and there is no error. *)
Theorem GetEntries_at_most_one_cursor_per_token (field : fdesc)
    (assigns : list Val) (h : holder) (parsed : list (Val * list Z)) :
  parse_assigns (Parser field) assigns = Ok parsed ->
  let r := (GetEntries NewKey newQKey NewEntriesCursor field assigns h).1 in
  r.2 = None /\
  (length r.1 <= length (concat parsed.*2))%nat /\
  (Forall (fun id => default [] (plEntries h !! NewKey (ID field) id) = [])
          (concat parsed.*2) ->
   r.1 = []).
Proof.
  intros Hp. unfold GetEntries.
  rewrite HolderProofs.GetEntries_loop_run, Hp. simpl.
  split; [done|]. split.
  - clear Hp. induction parsed as [|[vi ids] parsed IH]; csimpl; [done|].
    rewrite !length_app. pose proof (length_omap_le
      (cursor_of NewKey newQKey NewEntriesCursor field h vi) ids). lia.
  - clear Hp. induction parsed as [|[vi ids] parsed IH]; csimpl; [done|].
    intros [Hids Hrest]%Forall_app. rewrite (IH Hrest), app_nil_r.
    clear IH Hrest. induction ids as [|id ids IH]; csimpl; [done|].
    apply Forall_cons in Hids as [Hid Hids]. rewrite (IH Hids).
    unfold cursor_of.
    by destruct (plEntries h !! NewKey (ID field) id) as [[|e es]|].
Qed.

(** X8. Appends under different keys commute: the holder after two
    [AppendEntryID] calls on different keys is the same whichever comes
    first (so the order in which a conjunction's fields are visited does
    not show in the holder). *)
Theorem AppendEntryID_commutes (k1 k2 : Key) (id1 id2 : Z) (h : holder) :
  k1 <> k2 ->
  (AppendEntryID k2 id2 (AppendEntryID k1 id1 h).2).2 =
  (AppendEntryID k1 id1 (AppendEntryID k2 id2 h).2).2.
Proof.
  intros Hne.
  assert (Heq : forall h1 h2 : holder,
            debug h1 = debug h2 -> maxLen h1 = maxLen h2 ->
            avgLen h1 = avgLen h2 -> plEntries h1 = plEntries h2 -> h1 = h2).
  { intros [] []. simpl. by intros -> -> -> ->. }
  destruct (HolderProofs.AppendEntryID_frame k1 id1 h) as (Hd1 & Hm1 & Ha1).
  destruct (HolderProofs.AppendEntryID_frame k2 id2 h) as (Hd2 & Hm2 & Ha2).
  destruct (HolderProofs.AppendEntryID_frame k2 id2 (AppendEntryID k1 id1 h).2)
    as (Hd12 & Hm12 & Ha12).
  destruct (HolderProofs.AppendEntryID_frame k1 id1 (AppendEntryID k2 id2 h).2)
    as (Hd21 & Hm21 & Ha21).
  apply Heq; [congruence|congruence|congruence|].
  rewrite !HolderProofs.AppendEntryID_plEntries.
  rewrite !lookup_insert_ne by done.
  by apply insert_insert_ne.
Qed.

Lemma sort_entries_perm (l1 l2 : list Z) :
  l1 ≡ₚ l2 -> sort_entries l1 = sort_entries l2.
Proof.
  intros Hp. unfold sort_entries.
  apply (Sorted_unique Z.le); try apply Sorted_merge_sort; try apply _.
  by rewrite !merge_sort_Permutation.
Qed.

Lemma CompileEntries_by_sorted (h : holder) :
  (CompileEntries h).2 =
  {| debug := debug h;
     maxLen := foldl (fun m kv => if m <? len kv.2 then len kv.2 else m)
                 (maxLen h) (map_to_list (sort_entries <$> plEntries h));
     avgLen :=
       if 0 <? Z.of_nat (size (sort_entries <$> plEntries h))
       then Z.quot (foldl (fun t kv => int64_wrap (t + len kv.2)) 0
                      (map_to_list (sort_entries <$> plEntries h)))
                   (Z.of_nat (size (sort_entries <$> plEntries h)))
       else avgLen h;
     plEntries := sort_entries <$> plEntries h |}.
Proof.
  rewrite HolderProofs.CompileEntries_run.
  by rewrite map_size_fmap, map_to_list_fmap, foldl_maxLen_sorted,
    foldl_total_sorted.
Qed.

(** X9. Compiling erases the order of insertion: two holders with the
    same statistics that hold, under every key, the same entries in
    possibly different orders compile to the same holder. *)
Theorem CompileEntries_forgets_insertion_order (h1 h2 : holder) :
  same_entries (plEntries h1) (plEntries h2) ->
  debug h1 = debug h2 -> maxLen h1 = maxLen h2 -> avgLen h1 = avgLen h2 ->
  (CompileEntries h1).2 = (CompileEntries h2).2.
Proof.
  intros Hsame Hd Hm Ha.
  assert (Hs : sort_entries <$> plEntries h1 = sort_entries <$> plEntries h2).
  { apply map_eq. intros key. rewrite !lookup_fmap. specialize (Hsame key).
    destruct (plEntries h1 !! key) as [l1|], (plEntries h2 !! key) as [l2|];
      simpl; try done.
    f_equal. by apply sort_entries_perm. }
  rewrite !CompileEntries_by_sorted. by rewrite Hs, Hd, Hm, Ha.
Qed.

Lemma parse_assigns_app (p : @FieldValueParser Val) (a1 a2 : list Val) :
  parse_assigns p (a1 ++ a2) =
  match parse_assigns p a1 with
  | Err e => Err e
  | Ok l1 =>
      match parse_assigns p a2 with
      | Err e => Err e
      | Ok l2 => Ok (l1 ++ l2)
      end
  end.
Proof.
  induction a1 as [|v a1 IH]; simpl.
  - by destruct (parse_assigns p a2).
  - destruct (ParseAssign p v); [|done]. rewrite IH.
    destruct (parse_assigns p a1); [|done].
    by destruct (parse_assigns p a2).
Qed.

(** X10. A query over more values is the queries put together: when the
    values [a1] give the group [g1] and the values [a2] the group [g2],
    the values [a1 ++ a2] give [g1 ++ g2]; and when [a1] fails with an
    error, so does [a1 ++ a2], with the same error and a nil group. *)
Theorem GetEntries_app (field : fdesc) (a1 a2 : list Val) (h : holder) :
  let Get a := (GetEntries NewKey newQKey NewEntriesCursor field a h).1 in
  (forall g1 g2, Get a1 = (g1, None) -> Get a2 = (g2, None) ->
     Get (a1 ++ a2) = (g1 ++ g2, None)) /\
  (forall g1 e, Get a1 = (g1, Some e) -> Get (a1 ++ a2) = ([], Some e)).
Proof.
  simpl. unfold GetEntries. rewrite !HolderProofs.GetEntries_loop_run.
  simpl. rewrite parse_assigns_app.
  destruct (parse_assigns (Parser field) a1) as [l1|e1]; [|split; [done|]].
  - split; [|done]. intros g1 g2 [= <-].
    destruct (parse_assigns (Parser field) a2) as [l2|e2]; [|done].
    intros [= <-]. by rewrite fmap_app, concat_app.
  - by intros g1 e [= _ <-].
Qed.

End holder_extras.
End HolderExtras.

(** * Further properties of the builder *)

Module BuilderExtras.
Import Builder BuilderMore.

Section builder_extras.
Context `{Collaborators}.

Abbreviation Tx := (IndexingBETx HolderRef TxData).

(** *** Stepping rules *)

#[local] Instance fields_grow_preorder : PreOrder fields_grow.
Proof.
  split.
  - intros b. split; [reflexivity|]. by split.
  - intros b1 b2 b3 (Hs1 & Hk1 & Hp1) (Hs2 & Hk2 & Hp2).
    split; [by etrans|]. split; [auto|congruence].
Qed.

Lemma fields_grow_same (b b' : IndexerBuilder) :
  fieldsData b' = fieldsData b -> badConjBehavior b' = badConjBehavior b ->
  fields_grow b b'.
Proof.
  intros Hf Hp. unfold fields_grow. rewrite Hf.
  split; [reflexivity|]. by split.
Qed.

Lemma advances_ret {A} (R : relation IndexerBuilder) `{!Reflexive R} (a : A) :
  advances R (ret a).
Proof. intros b. reflexivity. Qed.

Lemma advances_panic {A} (R : relation IndexerBuilder) `{!Reflexive R} msg :
  advances R (panic (A := A) msg).
Proof. intros b. reflexivity. Qed.

Lemma advances_bind {A C} (R : relation IndexerBuilder) `{!PreOrder R}
    (m : B A) (k : A -> B C) :
  advances R m -> (forall a, advances R (k a)) -> advances R (bind m k).
Proof.
  intros Hm Hk b. unfold bind. specialize (Hm b).
  destruct (m b) as [[a|msg] b']; simpl in *; [|done].
  etrans; [exact Hm|apply Hk].
Qed.

Lemma advances_of_preserves {A} (m : B A) :
  preserves (fun b => (fieldsData b, badConjBehavior b)) m ->
  advances fields_grow m.
Proof.
  intros Hm b. specialize (Hm b). injection Hm as Hf Hp.
  by apply fields_grow_same.
Qed.

Ltac keeps :=
  repeat first
    [ apply BuilderProofs.preserves_ret | apply BuilderProofs.preserves_get
    | apply BuilderProofs.preserves_panic
    | apply BuilderProofs.preserves_PanicIfErr
    | apply BuilderProofs.preserves_modify; intros; reflexivity
    | apply BuilderProofs.preserves_bind; [|intros]
    | match goal with
      | |- preserves _ (match ?x with _ => _ end) => destruct x
      | |- preserves _ (if ?x then _ else _) => destruct x
      | |- preserves _ (let '(_, _) := ?x in _) => destruct x
      end ].

(** *** The field table *)

Lemma fields_ok_insert (fd : gmap string FieldDesc) fld opt :
  fd !! fld = None -> fields_ok fd ->
  fields_ok (<[fld := {| ID := Z.of_nat (size fd); Field := fld;
                         Option := opt |}]> fd).
Proof.
  intros Hfresh [Hb Hinj]. split.
  - intros f d. rewrite map_size_insert_None by done.
    destruct (decide (fld = f)) as [->|Hne].
    + rewrite lookup_insert_eq. intros [= <-]. simpl. split; [done|lia].
    + rewrite lookup_insert_ne by done. intros Hd.
      destruct (Hb _ _ Hd). split; [done|lia].
  - intros f1 f2 d1 d2.
    destruct (decide (fld = f1)) as [E1|Hne1];
      destruct (decide (fld = f2)) as [E2|Hne2].
    + congruence.
    + subst f1. rewrite lookup_insert_eq, lookup_insert_ne by done.
      intros [= <-] Hd2 Hid. simpl in Hid. destruct (Hb _ _ Hd2). lia.
    + subst f2. rewrite lookup_insert_eq, lookup_insert_ne by done.
      intros Hd1 [= <-] Hid. simpl in Hid. destruct (Hb _ _ Hd1). lia.
    + rewrite !lookup_insert_ne by done. apply Hinj.
Qed.

Lemma configureField_grows fld opt : advances fields_grow (configureField fld opt).
Proof.
  intros b. unfold configureField, bind, get, modify, ret. simpl.
  destruct (fieldsData b !! fld) as [d|] eqn:E; simpl; [reflexivity|].
  split; [by apply insert_subseteq|]. split; [|done].
  intros Hok. by apply fields_ok_insert.
Qed.

(** What [createFieldData] does: it returns, with the descriptor that is
    afterwards stored under the field; a configured field is returned as
    it is and the builder is untouched. *)
Lemma createFieldData_run fld (b : IndexerBuilder) :
  exists desc b',
    createFieldData fld b = (Returned desc, b') /\
    fieldsData b' !! fld = Some desc /\
    fields_grow b b' /\
    index_of b' = index_of b /\
    (forall d, fieldsData b !! fld = Some d -> desc = d /\ b' = b).
Proof.
  unfold createFieldData, bind, get. simpl.
  destruct (fieldsData b !! fld) as [d|] eqn:E.
  - exists d, b. split; [done|]. split; [done|]. split; [reflexivity|].
    split; [done|]. by intros d' [= <-].
  - pose proof (BuilderProofs.configureField_fresh fld
                  {| Parser := EmptyString; Container := HolderNameDefault |}
                  b E) as Hc.
    simpl in Hc. rewrite Hc. simpl. eexists _, _. split; [reflexivity|].
    split; [simpl; by rewrite lookup_insert_eq|].
    split; [|split; [done|]; intros d' Hd'; done].
    pose proof (configureField_grows fld
                  {| Parser := EmptyString; Container := HolderNameDefault |} b)
      as Hg.
    by rewrite Hc in Hg.
Qed.

Lemma createFieldData_grows fld : advances fields_grow (createFieldData fld).
Proof.
  intros b. destruct (createFieldData_run fld b) as (d & b' & E & _ & Hg & _).
  by rewrite E.
Qed.

Lemma runIndexingBETx_grows h desc expr :
  advances fields_grow (runIndexingBETx h desc expr).
Proof. apply advances_of_preserves. unfold runIndexingBETx. keeps. Qed.

Lemma indexingConjunction_exprs_grows fld exprs conjID incSize acc :
  advances fields_grow (indexingConjunction_exprs fld exprs conjID incSize acc).
Proof.
  revert acc. induction exprs as [|expr exprs IH]; intros [txs cnt]; simpl.
  - by apply advances_ret, _.
  - apply advances_bind; [apply _|apply createFieldData_grows|intros desc].
    apply advances_bind; [apply _|apply runIndexingBETx_grows|].
    intros [txData|err]; [apply IH|by apply advances_ret, _].
Qed.

Lemma indexingConjunction_fields_grows fields conjID incSize acc :
  advances fields_grow (indexingConjunction_fields fields conjID incSize acc).
Proof.
  revert acc. induction fields as [|[fld exprs] fields IH]; intros acc; simpl.
  - by apply advances_ret, _.
  - apply advances_bind; [apply _|apply indexingConjunction_exprs_grows|].
    intros [acc'|err]; [apply IH|by apply advances_ret, _].
Qed.

Lemma indexingConjunction_grows cj conjID :
  advances fields_grow (indexingConjunction cj conjID).
Proof.
  unfold indexingConjunction.
  apply advances_bind; [apply _|apply indexingConjunction_fields_grows|].
  intros [[txs cnt]|err]; by apply advances_ret, _.
Qed.

Lemma tryUseIndexingTxCache_fields_grows fieldData incSize acc :
  advances fields_grow (tryUseIndexingTxCache_fields fieldData incSize acc).
Proof.
  revert acc. induction fieldData as [|[fld fc] fieldData IH]; intros acc; simpl.
  - by apply advances_ret, _.
  - apply advances_bind; [apply _|apply createFieldData_grows|intros desc].
    destruct (holder_DecodeTxData _ _); [apply IH|by apply advances_ret, _].
Qed.

Lemma tryUseIndexingTxCache_grows conjID :
  advances fields_grow (tryUseIndexingTxCache conjID).
Proof.
  unfold tryUseIndexingTxCache.
  apply advances_bind; [apply _|intros b; reflexivity|intros b].
  destruct (builderCache b) as [c|]; [|by apply advances_ret, _].
  destruct (cache_Get c conjID) as [data|]; [|by apply advances_ret, _].
  destruct (proto_Unmarshal data) as [txCache|]; [|by apply advances_ret, _].
  apply advances_bind; [apply _|apply tryUseIndexingTxCache_fields_grows|].
  intros [txs|]; by apply advances_ret, _.
Qed.

Lemma tryCacheIndexingTx_grows conjID txs :
  advances fields_grow (tryCacheIndexingTx conjID txs).
Proof. apply advances_of_preserves. unfold tryCacheIndexingTx. keeps. Qed.

Lemma commitIndexingTxs_grows txs :
  advances fields_grow (commitIndexingTxs txs).
Proof.
  apply advances_of_preserves.
  induction txs as [|tx txs IH]; simpl; [keeps|].
  apply BuilderProofs.preserves_bind; [keeps|intros b].
  apply BuilderProofs.preserves_bind; [keeps|intros st].
  apply BuilderProofs.preserves_bind; [keeps|intros _]. apply IH.
Qed.

Lemma indexAndCommit_grows (cj : Conjunction Expr) conjID :
  advances fields_grow (indexAndCommit cj conjID).
Proof.
  unfold indexAndCommit.
  apply advances_bind; [apply _|apply tryUseIndexingTxCache_grows|].
  intros [|tx txs].
  - apply advances_bind; [apply _|apply indexingConjunction_grows|].
    intros [[txs needCache]|err].
    + apply advances_bind; [apply _| |intros _].
      * destruct needCache; [apply tryCacheIndexingTx_grows|by apply advances_ret, _].
      * apply advances_bind; [apply _|apply commitIndexingTxs_grows|].
        intros _. by apply advances_ret, _.
    + apply advances_of_preserves. keeps.
  - apply advances_bind; [apply _|apply commitIndexingTxs_grows|].
    intros _. by apply advances_ret, _.
Qed.

Lemma buildConjEntries_grows docID idx (cj : Conjunction Expr) :
  advances fields_grow (buildConjEntries docID idx cj).
Proof.
  unfold buildConjEntries.
  apply advances_bind; [apply _| |intros _; apply indexAndCommit_grows].
  apply advances_of_preserves. unfold addWildcardEID. keeps.
Qed.

Lemma ConjLoop_grows docID (conjs : list (Conjunction Expr)) idx :
  advances fields_grow (ConjLoop docID idx conjs).
Proof.
  revert idx. induction conjs as [|cj conjs IH]; intros idx; simpl.
  - by apply advances_ret, _.
  - apply advances_bind; [apply _|apply buildConjEntries_grows|].
    intros [|e]; [apply IH|by apply advances_ret, _].
Qed.

Lemma buildDocEntries_grows (doc : Document Expr) :
  advances fields_grow (buildDocEntries doc).
Proof.
  unfold buildDocEntries, PanicIf.
  apply advances_bind; [apply _| |intros _].
  { destruct (len (Cons doc) =? 0);
      [by apply advances_panic, _|by apply advances_ret, _]. }
  apply advances_bind; [apply _| |intros _; apply ConjLoop_grows].
  destruct (255 <? len (Cons doc));
    [by apply advances_panic, _|by apply advances_ret, _].
Qed.

Lemma AddDocument_grows (docs : list (option (Document Expr))) :
  advances fields_grow (AddDocument docs).
Proof.
  induction docs as [|[doc|] docs IH]; simpl.
  - by apply advances_ret, _.
  - destruct (validDocument doc); [by apply advances_ret, _|].
    apply advances_bind; [apply _|apply buildDocEntries_grows|].
    intros [e|]; [by apply advances_ret, _|apply IH].
  - by apply advances_panic, _.
Qed.

(** X11. FieldIDs are stable and stay dense while documents are added:
    whatever [AddDocument] does and however it ends (return, error or
    panic), every field configured before keeps its descriptor, and a
    well-formed field table (each field under its own name, IDs below the
    number of fields, no ID used twice) is well formed afterwards, with the
    fields that the documents brought in. *)
Theorem AddDocument_keeps_field_ids (docs : list (option (Document Expr)))
    (b : IndexerBuilder) :
  fields_ok (fieldsData b) ->
  let b' := (AddDocument docs b).2 in
  fields_ok (fieldsData b') /\
  (forall f d, fieldsData b !! f = Some d -> fieldsData b' !! f = Some d).
Proof.
  intros Hok. destruct (AddDocument_grows docs b) as (Hsub & Hkeep & _).
  split; [by apply Hkeep|].
  intros f d Hd. by eapply lookup_weaken.
Qed.


(** X12. [createFieldData] never panics (its "should not happen" guard is
    unreachable): it returns the descriptor that is stored under the field
    afterwards, asking again gives the same descriptor and changes nothing,
    a field already configured is returned with the builder untouched, and
    a new field gets the next ID with the default holder; the index and the
    other fields are as before. *)
Theorem createFieldData_registers fld (b : IndexerBuilder) :
  exists desc b',
    createFieldData fld b = (Returned desc, b') /\
    fieldsData b' !! fld = Some desc /\
    createFieldData fld b' = (Returned desc, b') /\
    indexer b' = indexer b /\
    (forall f d, fieldsData b !! f = Some d -> fieldsData b' !! f = Some d) /\
    (forall d, fieldsData b !! fld = Some d -> desc = d /\ b' = b) /\
    (fieldsData b !! fld = None ->
       ID desc = Z.of_nat (size (fieldsData b)) /\ Field desc = fld /\
       Container (Option desc) = HolderNameDefault).
Proof.
  destruct (createFieldData_run fld b) as (desc & b' & E & Hlk & Hg & Hi & Hsame).
  exists desc, b'. split; [done|]. split; [done|]. split.
  { destruct (createFieldData_run fld b') as (d2 & b2 & E2 & _ & _ & _ & Hs2).
    destruct (Hs2 _ Hlk) as [-> ->]. done. }
  split; [by injection Hi|]. split.
  { intros f d Hd. destruct Hg as (Hsub & _). by eapply lookup_weaken. }
  split; [done|].
  intros Hfresh. revert E. unfold createFieldData, bind, get. simpl.
  rewrite Hfresh.
  rewrite (BuilderProofs.configureField_fresh fld
             {| Parser := EmptyString; Container := HolderNameDefault |}
             b Hfresh).
  simpl. intros [= <- _]. simpl. split; [done|]. split; [done|].
  by destruct (Z.of_nat (String.length HolderNameDefault) =? 0).
Qed.

(** X13. An explicit configuration wins over the default, and cannot be
    repeated: after [ConfigField] on a new field, [createFieldData] returns
    that field's descriptor with the configured parser (and container, when
    one was given) without changing the builder, and a second
    [ConfigField] on the field panics, leaving the builder as it is. *)
Theorem ConfigField_then_duplicate fld (opt opt' : FieldOption)
    (b : IndexerBuilder) :
  fieldsData b !! fld = None ->
  exists b' desc,
    ConfigField fld opt b = (Returned tt, b') /\
    createFieldData fld b' = (Returned desc, b') /\
    ID desc = Z.of_nat (size (fieldsData b)) /\
    Parser (Option desc) = Parser opt /\
    (Container opt <> EmptyString ->
       Container (Option desc) = Container opt) /\
    exists msg, ConfigField fld opt' b' = (Panicked msg, b').
Proof.
  intros Hfresh.
  pose proof (BuilderProofs.configureField_fresh fld opt b Hfresh) as Hc.
  simpl in Hc.
  eexists _, _. split.
  { unfold ConfigField, bind. rewrite Hc. reflexivity. }
  split.
  { unfold createFieldData, bind, get. simpl. rewrite lookup_insert_eq.
    reflexivity. }
  simpl. split; [done|]. split.
  { by destruct (Z.of_nat (String.length (Container opt)) =? 0). }
  split.
  { intros Hne. destruct (Container opt) as [|c rest] eqn:E; [done|].
    simpl. by rewrite E. }
  eexists. unfold ConfigField, bind.
  rewrite BuilderProofs.configureField_twice; [reflexivity|].
  simpl. rewrite lookup_insert_eq. by eexists.
Qed.

Lemma applyOpts_app (opts1 opts2 : list BuilderOpt) (b : IndexerBuilder) :
  applyOpts (opts1 ++ opts2) b =
  bind (applyOpts opts1) (fun _ => applyOpts opts2) b.
Proof.
  revert b. induction opts1 as [|optFn opts1 IH]; intros b; simpl; [done|].
  unfold bind.
  destruct (callOpt optFn b) as [[[]|msg] b1]; [|done].
  rewrite IH. done.
Qed.

Lemma applyOpts_package (opts : list BuilderOpt) (b : IndexerBuilder) :
  Forall package_opt opts ->
  exists b', applyOpts opts b = (Returned tt, b') /\
             fieldsData b' = fieldsData b.
Proof.
  intros Hopts. revert b.
  induction Hopts as [|optFn opts Hopt _ IH]; intros b; simpl.
  - by exists b.
  - unfold bind.
    destruct Hopt as [[v ->]|[[provider ->]|[t ->]]]; simpl;
      match goal with |- context [applyOpts opts ?b1] =>
        destruct (IH b1) as (b' & E & Hf)
      end; exists b'; by rewrite E, Hf.
Qed.

Lemma NewIndexerBuilder_snoc_type (opts : list BuilderOpt) t :
  NewIndexerBuilder (opts ++ [WithIndexerType t]) =
  match applyOpts opts emptyBuilder with
  | (Returned _, b1) =>
      let b2 := {| indexerType := t; builderCache := builderCache b1;
                   badConjBehavior := badConjBehavior b1;
                   indexer := indexer b1; fieldsData := fieldsData b1;
                   idAllocator := idAllocator b1 |} in
      if t =? IndexerTypeDefault
      then Returned (set_indexer NewKGroupsBEIndex b2)
      else if t =? IndexerTypeCompact
           then Returned (set_indexer NewCompactedBEIndex b2)
           else Panicked "type not supported"
  | (Panicked msg, _) => Panicked msg
  end.
Proof.
  unfold NewIndexerBuilder. simpl. unfold bind at 1.
  rewrite applyOpts_app. unfold bind at 1.
  destruct (applyOpts opts emptyBuilder) as [[[]|msg] b1]; [|done].
  cbv [bind modify ret initIndexer get panic callOpt applyOpts WithIndexerType].
  simpl.
  destruct (t =? IndexerTypeDefault); [done|].
  by destruct (t =? IndexerTypeCompact).
Qed.

(** X14. [NewIndexerBuilder] runs the options in order before it makes the
    index, and an option is any function on the builder.  With a
    [WithIndexerType] option last, it returns exactly when the options
    before it all return and the type is Default or Compact.  So
    [NewCompactIndexerBuilder], which puts the Compact option last, panics
    exactly when one of the options given does, with that panic, and
    otherwise returns a builder of the compact kind with a new compacted
    index, in which the cache, the policy, the fields and the allocator are
    as the options left them: an option that configures a field leaves the
    field.  Given only options made by the package's three constructors,
    it never panics and returns a builder without fields. *)
Theorem NewIndexerBuilder_last_type_decides (opts : list BuilderOpt) :
  (forall t,
     (exists b, NewIndexerBuilder (opts ++ [WithIndexerType t]) = Returned b) <->
     (exists b1, applyOpts opts emptyBuilder = (Returned tt, b1)) /\
     (t = IndexerTypeDefault \/ t = IndexerTypeCompact)) /\
  (forall b1, applyOpts opts emptyBuilder = (Returned tt, b1) ->
     exists b,
       NewCompactIndexerBuilder opts = Returned b /\
       indexerType b = IndexerTypeCompact /\
       indexer b = NewCompactedBEIndex /\
       builderCache b = builderCache b1 /\
       badConjBehavior b = badConjBehavior b1 /\
       fieldsData b = fieldsData b1 /\
       idAllocator b = idAllocator b1) /\
  (forall msg b1, applyOpts opts emptyBuilder = (Panicked msg, b1) ->
     NewCompactIndexerBuilder opts = Panicked msg) /\
  (Forall package_opt opts ->
     exists b,
       NewCompactIndexerBuilder opts = Returned b /\
       indexerType b = IndexerTypeCompact /\
       indexer b = NewCompactedBEIndex /\
       fieldsData b = ∅).
Proof.
  assert (Hcompact : forall b1,
            applyOpts opts emptyBuilder = (Returned tt, b1) ->
            exists b,
              NewCompactIndexerBuilder opts = Returned b /\
              indexerType b = IndexerTypeCompact /\
              indexer b = NewCompactedBEIndex /\
              builderCache b = builderCache b1 /\
              badConjBehavior b = badConjBehavior b1 /\
              fieldsData b = fieldsData b1 /\
              idAllocator b = idAllocator b1).
  { intros b1 E. unfold NewCompactIndexerBuilder.
    rewrite NewIndexerBuilder_snoc_type, E. simpl.
    eexists. split; [reflexivity|]. done. }
  split; [|split; [done|split]].
  - intros t. rewrite NewIndexerBuilder_snoc_type.
    destruct (applyOpts opts emptyBuilder) as [[[]|msg] b1]; simpl.
    + destruct (Z.eqb_spec t IndexerTypeDefault) as [->|Hd].
      { split; [intros _; split; [by eexists|by left]|]. intros _. by eexists. }
      destruct (Z.eqb_spec t IndexerTypeCompact) as [->|Hc].
      { split; [intros _; split; [by eexists|by right]|]. intros _. by eexists. }
      split; [by intros [b Hb]|]. by intros [_ [?|?]].
    + split; [by intros [b Hb]|]. by intros [[b2 Hb] _].
  - intros msg b1 E. unfold NewCompactIndexerBuilder.
    by rewrite NewIndexerBuilder_snoc_type, E.
  - intros Hopts.
    destruct (applyOpts_package opts emptyBuilder Hopts) as (b1 & E & Hf).
    destruct (Hcompact b1 E) as (b & Hb & Ht & Hi & _ & _ & Hfb & _).
    exists b. split; [done|]. split; [done|]. split; [done|].
    by rewrite Hfb, Hf.
Qed.

(** X15. A nil document makes [AddDocument] panic, but only when its turn
    comes: the documents before it are indexed, and their entries are what
    the panic leaves in the builder; the documents after it are not
    looked at. *)
Theorem AddDocument_nil_document_panics
    (docs1 docs2 : list (option (Document Expr))) (b b1 : IndexerBuilder) :
  AddDocument docs1 b = (Returned None, b1) ->
  exists msg, AddDocument (docs1 ++ None :: docs2) b = (Panicked msg, b1).
Proof.
  intros Hfirst. rewrite BuilderProofs.AddDocument_app, Hfirst. simpl.
  by eexists.
Qed.

Lemma tryCacheIndexingTx_txs_encode_error (txs : list Tx) m :
  Exists (fun tx => exists e, Encode (Data tx) = Err e) txs ->
  tryCacheIndexingTx_txs txs m = None.
Proof.
  intros Hex. revert m. induction Hex as [tx txs [e He]|tx txs Hex IH];
    intros m; simpl.
  - by rewrite He.
  - destruct (Encode (Data tx)); [apply IH|done].
Qed.

(** X16. Caching is all or nothing and never fails the build:
    [tryCacheIndexingTx] always returns, touching nothing but the cache;
    and when there is no cache provider, or the data of some transaction
    does not encode, it leaves the whole builder, cache included, exactly
    as it was (no partial message is stored). *)
Theorem tryCacheIndexingTx_all_or_nothing conjID
    (txs : list (IndexingBETx HolderRef TxData)) (b : IndexerBuilder) :
  (exists b',
     tryCacheIndexingTx conjID txs b = (Returned tt, b') /\
     indexer b' = indexer b /\ fieldsData b' = fieldsData b /\
     badConjBehavior b' = badConjBehavior b /\
     idAllocator b' = idAllocator b /\ indexerType b' = indexerType b) /\
  (builderCache b = None \/
   Exists (fun tx => exists e, Encode (Data tx) = Err e) txs ->
   tryCacheIndexingTx conjID txs b = (Returned tt, b)).
Proof.
  split.
  - unfold tryCacheIndexingTx, bind, get, modify, ret. simpl.
    destruct (builderCache b) as [c|]; [|by eexists].
    destruct (tryCacheIndexingTx_txs txs ∅) as [fieldData|]; [|by eexists].
    destruct (proto_Marshal _) as [data|]; by eexists.
  - unfold tryCacheIndexingTx, bind, get, ret. simpl.
    intros [Hc|Hex]; [by rewrite Hc|].
    destruct (builderCache b) as [c|]; [|done].
    by rewrite (tryCacheIndexingTx_txs_encode_error txs ∅ Hex).
Qed.


(** *** Policies *)

Lemma validDocument_errors (doc : Document Expr) err :
  validDocument doc = Some err ->
  err = ErrNoConjunctions \/ err = ErrTooManyConjunctions.
Proof.
  unfold validDocument.
  destruct (len (Cons doc) =? 0); [intros [= <-]; by left|].
  destruct (255 <? len (Cons doc)); [intros [= <-]; by right|done].
Qed.

Lemma ConjLoop_skip_returns_no_error docID (conjs : list (Conjunction Expr)) :
  forall idx b e b',
  badConjBehavior b = SkipBadConj ->
  ConjLoop docID idx conjs b <> (Returned (Some e), b').
Proof.
  induction conjs as [|cj conjs IH]; intros idx b e b' Hskip; [done|].
  rewrite BuilderProofs.ConjLoop_cons.
  pose proof (buildConjEntries_grows docID idx cj b) as (_ & _ & Hp).
  destruct (buildConjEntries docID idx cj b) as [[[|e1]|msg] b1] eqn:E;
    simpl in Hp; [| |done].
  - apply IH. congruence.
  - apply BuilderProofs.buildConjEntries_ReturnErr in E as [_ He].
    rewrite Hp, Hskip in He. discriminate.
Qed.

(** X17. Under the Skip policy no indexing failure reaches the caller: the
    only errors [AddDocument] can return are the two validation errors (no
    conjunction, too many conjunctions). *)
Theorem AddDocument_skip_returns_validation_errors_only
    (docs : list (option (Document Expr))) (b b' : IndexerBuilder) err :
  badConjBehavior b = SkipBadConj ->
  AddDocument docs b = (Returned (Some err), b') ->
  err = ErrNoConjunctions \/ err = ErrTooManyConjunctions.
Proof.
  revert b. induction docs as [|[doc|] docs IH]; intros b Hskip; simpl;
    [done| |done].
  destruct (validDocument doc) as [e|] eqn:Ev.
  - intros [= <- _]. by eapply validDocument_errors.
  - unfold bind. rewrite BuilderProofs.buildDocEntries_valid by done.
    pose proof (ConjLoop_grows (DocID doc) (Cons doc) 0 b) as (_ & _ & Hp).
    destruct (ConjLoop (DocID doc) 0 (Cons doc) b) as [[[e|]|msg] b1] eqn:E;
      simpl in Hp; [| |done].
    + by apply ConjLoop_skip_returns_no_error in E.
    + apply IH. congruence.
Qed.

(** *** Wildcard entries *)

Lemma buildConjEntries_wildcard docID idx (cj : Conjunction Expr) b :
  wildcardEntries (indexer (buildConjEntries docID idx cj b).2) =
  wildcardEntries (indexer b) ++
  (if CalcConjSize cj =? 0
   then [NewEntryID (NewConjID docID idx (CalcConjSize cj)) true]
   else []).
Proof.
  rewrite BuilderProofs.buildConjEntries_unfold.
  pose proof (BuilderProofs.indexAndCommit_keeps_wildcard cj
                (NewConjID docID idx (CalcConjSize cj))
                (if CalcConjSize cj =? 0
                 then withWildcard (NewConjID docID idx (CalcConjSize cj)) b
                 else b)) as Hw.
  injection Hw as Hw _. unfold wildcard_of in Hw. rewrite Hw.
  destruct (CalcConjSize cj =? 0); simpl; [done|by rewrite app_nil_r].
Qed.

Lemma ConjLoop_wildcards docID (conjs : list (Conjunction Expr)) :
  forall idx b b',
  ConjLoop docID idx conjs b = (Returned None, b') ->
  wildcardEntries (indexer b') =
  wildcardEntries (indexer b) ++ wildcards_of docID idx conjs.
Proof.
  induction conjs as [|cj conjs IH]; intros idx b b'.
  - simpl. intros [= <-]. by rewrite app_nil_r.
  - rewrite BuilderProofs.ConjLoop_cons.
    pose proof (buildConjEntries_wildcard docID idx cj b) as Hw.
    destruct (buildConjEntries docID idx cj b) as [[[|e1]|msg] b1];
      [|done|done].
    intros Hrest. rewrite (IH _ _ _ Hrest). simpl in Hw. rewrite Hw.
    simpl. by rewrite <- app_assoc.
Qed.

(** X18. The wildcard bucket gets exactly one entry per conjunction of
    size 0: when [buildDocEntries] returns without error, the wildcard
    entries are those held before followed by the include EntryID of every
    size-0 conjunction of the document, in order, and nothing else; this
    counts the size-0 conjunctions that failed to index and were skipped
    as well. *)
Theorem buildDocEntries_wildcard_entries (doc : Document Expr)
    (b b' : IndexerBuilder) :
  buildDocEntries doc b = (Returned None, b') ->
  wildcardEntries (indexer b') =
  wildcardEntries (indexer b) ++ wildcards_of (DocID doc) 0 (Cons doc).
Proof.
  unfold buildDocEntries, bind, PanicIf.
  destruct (len (Cons doc) =? 0); [done|].
  destruct (255 <? len (Cons doc)); [done|]. simpl.
  apply ConjLoop_wildcards.
Qed.

(** *** The guards that can fire *)

Lemma quiet {A} (m : B A) :
  (forall b, exists a, (m b).1 = Returned a) -> panics_at_guards m.
Proof. intros Hm b msg b' E. destruct (Hm b) as [a Ha]. by rewrite E in Ha. Qed.

Lemma guards_ret {A} (a : A) : panics_at_guards (ret a).
Proof. by intros b msg b' E. Qed.

Lemma guards_bind {A C} (m : B A) (k : A -> B C) :
  panics_at_guards m -> advances fields_grow m ->
  (forall a, panics_at_guards (k a)) ->
  panics_at_guards (bind m k).
Proof.
  intros Hm Hg Hk b msg b' E. unfold bind in E. specialize (Hg b).
  destruct (m b) as [[a|msg1] b1] eqn:Em; simpl in Hg.
  - destruct Hg as (_ & _ & Hp). rewrite <- Hp. by eapply Hk.
  - injection E as <- <-. by eapply Hm.
Qed.

Lemma createFieldData_guards fld : panics_at_guards (createFieldData fld).
Proof.
  apply quiet. intros b.
  destruct (createFieldData_run fld b) as (d & b' & E & _).
  rewrite E. by eexists.
Qed.

Lemma runIndexingBETx_guards h desc expr :
  panics_at_guards (runIndexingBETx h desc expr).
Proof.
  apply quiet. intros b. unfold runIndexingBETx, bind, get, modify, ret. simpl.
  destruct (holder_IndexingBETx h desc expr (idAllocator b)). by eexists.
Qed.

Lemma indexingConjunction_exprs_guards fld exprs conjID incSize acc :
  panics_at_guards (indexingConjunction_exprs fld exprs conjID incSize acc).
Proof.
  revert acc. induction exprs as [|expr exprs IH]; intros [txs cnt]; simpl.
  - apply guards_ret.
  - apply guards_bind;
      [apply createFieldData_guards|apply createFieldData_grows|intros desc].
    apply guards_bind;
      [apply runIndexingBETx_guards|apply runIndexingBETx_grows|].
    intros [txData|err]; [apply IH|apply guards_ret].
Qed.

Lemma indexingConjunction_fields_guards fields conjID incSize acc :
  panics_at_guards (indexingConjunction_fields fields conjID incSize acc).
Proof.
  revert acc. induction fields as [|[fld exprs] fields IH]; intros acc; simpl.
  - apply guards_ret.
  - apply guards_bind;
      [apply indexingConjunction_exprs_guards
      |apply indexingConjunction_exprs_grows|].
    intros [acc'|err]; [apply IH|apply guards_ret].
Qed.

Lemma indexingConjunction_guards cj conjID :
  panics_at_guards (indexingConjunction cj conjID).
Proof.
  unfold indexingConjunction.
  apply guards_bind;
    [apply indexingConjunction_fields_guards
    |apply indexingConjunction_fields_grows|].
  intros [[txs cnt]|err]; apply guards_ret.
Qed.

Lemma tryUseIndexingTxCache_fields_guards fieldData incSize acc :
  panics_at_guards (tryUseIndexingTxCache_fields fieldData incSize acc).
Proof.
  revert acc. induction fieldData as [|[fld fc] fieldData IH]; intros acc; simpl.
  - apply guards_ret.
  - apply guards_bind;
      [apply createFieldData_guards|apply createFieldData_grows|intros desc].
    destruct (holder_DecodeTxData _ _); [apply IH|apply guards_ret].
Qed.

Lemma tryUseIndexingTxCache_guards conjID :
  panics_at_guards (tryUseIndexingTxCache conjID).
Proof.
  unfold tryUseIndexingTxCache.
  apply guards_bind; [by intros b msg b' E|intros b; reflexivity|intros b].
  destruct (builderCache b) as [c|]; [|apply guards_ret].
  destruct (cache_Get c conjID) as [data|]; [|apply guards_ret].
  destruct (proto_Unmarshal data) as [txCache|]; [|apply guards_ret].
  apply guards_bind;
    [apply tryUseIndexingTxCache_fields_guards
    |apply tryUseIndexingTxCache_fields_grows|].
  intros [txs|]; apply guards_ret.
Qed.

Lemma tryCacheIndexingTx_guards conjID txs :
  panics_at_guards (tryCacheIndexingTx conjID txs).
Proof.
  apply quiet. intros b.
  unfold tryCacheIndexingTx, bind, get, modify, ret. simpl.
  destruct (builderCache b) as [c|]; [|by eexists].
  destruct (tryCacheIndexingTx_txs txs ∅) as [fieldData|]; [|by eexists].
  destruct (proto_Marshal _) as [data|]; by eexists.
Qed.

Lemma commitIndexingTxs_guards txs : panics_at_guards (commitIndexingTxs txs).
Proof.
  induction txs as [|tx txs IH]; simpl; [apply guards_ret|].
  intros b msg b' E.
  cbv [bind get PanicIfErr] in E.
  destruct (holder_CommitIndexingBETx tx (holders (indexer b)))
    as [st|e] eqn:Ec; simpl in E.
  - apply IH in E. exact E.
  - injection E as <- <-. right. split; [done|].
    by exists tx, (holders (indexer b)), e.
Qed.

Lemma indexAndCommit_guards (cj : Conjunction Expr) conjID :
  panics_at_guards (indexAndCommit cj conjID).
Proof.
  unfold indexAndCommit.
  apply guards_bind;
    [apply tryUseIndexingTxCache_guards|apply tryUseIndexingTxCache_grows|].
  intros [|tx txs].
  - apply guards_bind;
      [apply indexingConjunction_guards|apply indexingConjunction_grows|].
    intros [[txs needCache]|err].
    + apply guards_bind.
      * destruct needCache; [apply tryCacheIndexingTx_guards|apply guards_ret].
      * destruct needCache;
          [apply tryCacheIndexingTx_grows|by apply advances_ret, _].
      * intros _. apply guards_bind;
          [apply commitIndexingTxs_guards|apply commitIndexingTxs_grows|].
        intros _. apply guards_ret.
    + intros b msg b' E. unfold bind, get, ret, panic in E. simpl in E.
      destruct (Z.eqb_spec (badConjBehavior b) SkipBadConj) as [|Hs];
        [done|].
      destruct (Z.eqb_spec (badConjBehavior b) ErrorBadConj) as [|He];
        [done|].
      injection E as <- <-. by left.
  - apply guards_bind;
      [apply commitIndexingTxs_guards|apply commitIndexingTxs_grows|].
    intros _. apply guards_ret.
Qed.

Lemma ConjLoop_guards docID (conjs : list (Conjunction Expr)) idx :
  panics_at_guards (ConjLoop docID idx conjs).
Proof.
  revert idx.
  induction conjs as [|cj conjs IH]; intros idx; simpl; [apply guards_ret|].
  apply guards_bind; [|apply buildConjEntries_grows|].
  - unfold buildConjEntries. apply guards_bind.
    + apply quiet. intros b. unfold addWildcardEID, modify, ret.
      destruct (CalcConjSize cj =? 0); by eexists.
    + apply advances_of_preserves. unfold addWildcardEID.
      destruct (CalcConjSize cj =? 0); keeps.
    + intros _. apply indexAndCommit_guards.
  - intros [|e]; [apply IH|apply guards_ret].
Qed.



(** *** The transactions of a conjunction *)

Lemma runIndexingBETx_run h desc expr (b b' : IndexerBuilder) r :
  runIndexingBETx h desc expr b = (Returned r, b') ->
  fieldsData b' = fieldsData b.
Proof.
  unfold runIndexingBETx, bind, get, modify, ret. simpl.
  destruct (holder_IndexingBETx h desc expr (idAllocator b)).
  by intros [= _ <-].
Qed.

Lemma indexingConjunction_exprs_spec fld exprs conjID incSize :
  forall (txs0 : list Tx) cnt0 b txs cnt b',
  indexingConjunction_exprs fld exprs conjID incSize (txs0, cnt0) b =
    (Returned (Ok (txs, cnt)), b') ->
  exists new,
    txs = txs0 ++ new /\
    Forall2 (fun tx e =>
               fieldsData b' !! fld = Some (field tx) /\
               holder tx = CreateHolder incSize (field tx) /\
               EID tx = NewEntryID conjID (Incl e)) new exprs /\
    cnt = cnt0 + Z.of_nat (length (filter (fun tx : Tx =>
                                             BetterToCache (Data tx) = true) new)) /\
    fields_grow b b'.
Proof.
  induction exprs as [|expr exprs IH]; intros txs0 cnt0 b txs cnt b'.
  - simpl. intros [= <- <- <-]. exists []. rewrite app_nil_r.
    split; [done|]. split; [constructor|]. split; [simpl; lia|reflexivity].
  - simpl. unfold bind at 1.
    destruct (createFieldData_run fld b) as (desc & b1 & E & Hlk & Hg1 & _).
    rewrite E. unfold bind at 1.
    destruct (runIndexingBETx (CreateHolder incSize desc) desc expr b1)
      as [[[txData|err]|msg] b2] eqn:Er; [|done|done].
    pose proof (runIndexingBETx_run _ _ _ _ _ _ Er) as Hf2.
    pose proof (runIndexingBETx_grows (CreateHolder incSize desc) desc expr b1)
      as Hg2.
    rewrite Er in Hg2. simpl in Hg2.
    intros Hrec. destruct (IH _ _ _ _ _ _ Hrec) as (new & -> & Hall & -> & Hg3).
    eexists (_ :: new). split; [by rewrite <- app_assoc|]. split; [|split].
    + constructor; [|done]. simpl. split; [|done].
      destruct Hg3 as (Hsub & _). eapply lookup_weaken; [|exact Hsub].
      by rewrite Hf2.
    + rewrite filter_cons. simpl.
      destruct (BetterToCache txData) eqn:Eb.
      * rewrite decide_True by done. simpl length. lia.
      * rewrite decide_False by done. lia.
    + etrans; [exact Hg1|]. etrans; [exact Hg2|exact Hg3].
Qed.

Lemma indexingConjunction_fields_spec fields conjID incSize :
  forall (txs0 : list Tx) cnt0 b txs cnt b',
  indexingConjunction_fields fields conjID incSize (txs0, cnt0) b =
    (Returned (Ok (txs, cnt)), b') ->
  exists new,
    txs = txs0 ++ new /\
    Forall2 (fun tx (fe : string * Expr) =>
               fieldsData b' !! fe.1 = Some (field tx) /\
               holder tx = CreateHolder incSize (field tx) /\
               EID tx = NewEntryID conjID (Incl fe.2)) new
            (concat ((fun fe : string * list Expr =>
                        (fun e => (fe.1, e)) <$> fe.2) <$> fields)) /\
    cnt = cnt0 + Z.of_nat (length (filter (fun tx : Tx =>
                                             BetterToCache (Data tx) = true) new)) /\
    fields_grow b b'.
Proof.
  induction fields as [|[fld exprs] fields IH]; intros txs0 cnt0 b txs cnt b'.
  - simpl. intros [= <- <- <-]. exists []. rewrite app_nil_r.
    split; [done|]. split; [constructor|]. split; [simpl; lia|reflexivity].
  - simpl. unfold bind at 1.
    destruct (indexingConjunction_exprs fld exprs conjID incSize (txs0, cnt0) b)
      as [[[[txs1 cnt1]|err]|msg] b1] eqn:E1; [|done|done].
    destruct (indexingConjunction_exprs_spec _ _ _ _ _ _ _ _ _ _ E1)
      as (new1 & -> & Hall1 & -> & Hg1).
    intros Hrec. destruct (IH _ _ _ _ _ _ Hrec) as (new2 & -> & Hall2 & -> & Hg2).
    exists (new1 ++ new2). split; [by rewrite <- app_assoc|]. split; [|split].
    + csimpl. apply Forall2_app; [|done].
      apply Forall2_fmap_r. eapply Forall2_impl; [exact Hall1|].
      intros tx e (Hlk & Hh & He). simpl. split; [|done].
      destruct Hg2 as (Hsub & _). by eapply lookup_weaken.
    + rewrite filter_app, length_app. lia.
    + by etrans.
Qed.

(** X20. When [indexingConjunction] succeeds it has made exactly one
    transaction per expression of the conjunction, in the order the
    expressions were visited: the transaction of an expression carries the
    descriptor now stored under the expression's field, the holder that
    serves this descriptor for the size of the conjunction, and the EntryID
    of the conjunction with the expression's inclusion flag; [needCache] is
    true exactly when the data of some transaction opts into caching; and
    the index itself is untouched. *)
Theorem indexingConjunction_one_tx_per_expression (cj : Conjunction Expr)
    conjID (b b' : IndexerBuilder)
    (txs : list (IndexingBETx HolderRef TxData)) (needCache : bool) :
  indexingConjunction cj conjID b = (Returned (Ok (txs, needCache)), b') ->
  Forall2 (fun tx (fe : string * Expr) =>
             fieldsData b' !! fe.1 = Some (field tx) /\
             holder tx = CreateHolder (ConjID_Size conjID) (field tx) /\
             EID tx = NewEntryID conjID (Incl fe.2)) txs (conj_exprs cj) /\
  length txs = length (conj_exprs cj) /\
  (needCache = true <->
   Exists (fun tx => BetterToCache (Data tx) = true) txs) /\
  indexer b' = indexer b.
Proof.
  intros Hrun.
  pose proof (BuilderProofs.indexingConjunction_keeps cj conjID b) as Hidx.
  rewrite Hrun in Hidx. injection Hidx as Hidx _.
  revert Hrun. unfold indexingConjunction. unfold bind at 1.
  destruct (indexingConjunction_fields (Expressions cj) conjID
              (ConjID_Size conjID) ([], 0) b)
    as [[[[txs1 cnt1]|err]|msg] b1] eqn:E; [|done|done].
  destruct (indexingConjunction_fields_spec _ _ _ _ _ _ _ _ _ E)
    as (new & -> & Hall & -> & _).
  intros [= <- <- <-]. simpl.
  split; [done|]. split; [by eapply Forall2_length|]. split; [|done].
  rewrite Z.ltb_lt. clear.
  induction new as [|tx new IH]; simpl.
  - split; [lia|]. by intros ?%Exists_nil.
  - rewrite filter_cons, Exists_cons.
    destruct (decide (BetterToCache (Data tx) = true)) as [Ht|Hf]; simpl.
    + split; [by left|lia].
    + rewrite IH. split; [by right|]. by intros [?|?].
Qed.

(** *** The cache round trip *)

Lemma foldl_insert_lookup {V} (l : list (string * V)) (m : gmap string V) i :
  NoDup l.*1 ->
  foldl (fun m kv => <[kv.1 := kv.2]> m) m l !! i =
  match (list_to_map l : gmap string V) !! i with
  | Some v => Some v
  | None => m !! i
  end.
Proof.
  revert m. induction l as [|[k v] l IH]; intros m Hnd; simpl.
  - by rewrite lookup_empty.
  - apply NoDup_cons in Hnd as [Hk Hnd]. rewrite IH by done.
    destruct (decide (k = i)) as [->|Hne].
    + rewrite lookup_insert_eq.
      rewrite (not_elem_of_list_to_map_1 (M := gmap string) l i Hk).
      by rewrite lookup_insert_eq.
    + rewrite (lookup_insert_ne (list_to_map l)) by done.
      destruct (list_to_map l !! i); [done|].
      by rewrite lookup_insert_ne.
Qed.

Lemma foldl_insert_empty {V} (l : list (string * V)) :
  NoDup l.*1 ->
  foldl (fun m kv => <[kv.1 := kv.2]> m) (∅ : gmap string V) l = list_to_map l.
Proof.
  intros Hnd. apply map_eq. intros i. rewrite foldl_insert_lookup by done.
  destruct (list_to_map l !! i); [done|apply lookup_empty].
Qed.

Lemma tryCacheIndexingTx_txs_run (txs : list Tx)
    (l : list (string * cache.FieldCache Bytes)) :
  Forall2 (fun tx kv =>
             kv.1 = Field (field tx) /\ cache.Eid kv.2 = EID tx /\
             Encode (Data tx) = Ok (cache.Data kv.2)) txs l ->
  forall m, tryCacheIndexingTx_txs txs m =
            Some (foldl (fun m kv => <[kv.1 := kv.2]> m) m l).
Proof.
  induction 1 as [|tx [f [eid data]] txs l (Hf & He & Henc) Hall IH];
    intros m; simpl in *; [done|].
  rewrite Henc, IH. by subst.
Qed.

Lemma tryUseIndexingTxCache_fields_run
    (l : list (string * cache.FieldCache Bytes)) incSize :
  forall (acc : list Tx) (b : IndexerBuilder),
  (forall kv, kv ∈ l -> is_Some (restore_tx (fieldsData b) incSize kv)) ->
  tryUseIndexingTxCache_fields l incSize acc b =
  (Returned (Some (acc ++ omap (restore_tx (fieldsData b) incSize) l)), b).
Proof.
  induction l as [|[fld fc] l IH]; intros acc b Hall; simpl.
  - by rewrite app_nil_r.
  - destruct (Hall (fld, fc)) as [tx Htx]; [left|].
    assert (Hrest : forall kv, kv ∈ l ->
              is_Some (restore_tx (fieldsData b) incSize kv)).
    { intros kv Hkv. apply Hall. by right. }
    csimpl. rewrite Htx. revert Htx. unfold restore_tx. simpl.
    unfold bind at 1. unfold createFieldData, bind, get. simpl.
    destruct (fieldsData b !! fld) as [desc|]; [|done]. simpl.
    destruct (holder_DecodeTxData _ _) as [txData|]; [|done].
    intros [= <-]. rewrite (IH _ _ Hrest). by rewrite <- app_assoc.
Qed.

(** X21. The transaction cache round-trips when no field occurs twice.
    Take transactions on pairwise different fields whose descriptors are
    the configured ones and whose holders are those of the conjunction's
    size, data that encodes and decodes back to itself, a serializer that
    round-trips and a cache that returns what was set.  Then
    [tryCacheIndexingTx] stores them, changing only the cache, and
    [tryUseIndexingTxCache] on the same conjunction gives the same
    transactions back (in the order Go happens to visit the message's map),
    again changing nothing. *)
Theorem cache_round_trip conjID
    (txs : list (IndexingBETx HolderRef TxData)) (b : IndexerBuilder)
    (c : Cache) :
  builderCache b = Some c ->
  NoDup ((fun tx : Tx => Field (field tx)) <$> txs) ->
  Forall (fun tx : Tx =>
            fieldsData b !! Field (field tx) = Some (field tx) /\
            holder tx = CreateHolder (ConjID_Size conjID) (field tx) /\
            exists content,
              Encode (Data tx) = Ok content /\
              holder_DecodeTxData (holder tx) content = Ok (Data tx)) txs ->
  (forall msg, exists data,
     proto_Marshal msg = Ok data /\ proto_Unmarshal data = Ok msg) ->
  (forall c k v, cache_Get (cache_Set c k v) k = Some v) ->
  exists b1 cached,
    tryCacheIndexingTx conjID txs b = (Returned tt, b1) /\
    indexer b1 = indexer b /\ fieldsData b1 = fieldsData b /\
    tryUseIndexingTxCache conjID b1 = (Returned cached, b1) /\
    cached ≡ₚ txs.
Proof.
  intros Hc Hnd Htxs Hwire Hcache.
  assert (Hl : exists l : list (string * cache.FieldCache Bytes),
            Forall2 (fun tx kv =>
                       kv.1 = Field (field tx) /\ cache.Eid kv.2 = EID tx /\
                       Encode (Data tx) = Ok (cache.Data kv.2)) txs l /\
            Forall2 (fun tx kv =>
                       restore_tx (fieldsData b) (ConjID_Size conjID) kv = Some tx)
                    txs l).
  { clear Hnd. induction Htxs as [|tx txs (Hf & Hh & content & He & Hd) _ IH].
    - exists []. split; constructor.
    - destruct IH as (l & Hl1 & Hl2).
      exists ((Field (field tx), {| cache.Eid := EID tx; cache.Data := content |})
              :: l).
      split; constructor; try done.
      unfold restore_tx. simpl. rewrite Hf, <- Hh, Hd. by destruct tx. }
  destruct Hl as (l & Hl1 & Hl2).
  assert (Hkeys : l.*1 = (fun tx : Tx => Field (field tx)) <$> txs).
  { clear -Hl1. induction Hl1 as [|tx kv txs l (Hf & _) _ IH]; csimpl; [done|].
    by rewrite Hf, IH. }
  assert (Hndl : NoDup l.*1) by (by rewrite Hkeys).
  assert (Hrestore : omap (restore_tx (fieldsData b) (ConjID_Size conjID)) l = txs).
  { clear -Hl2. induction Hl2 as [|tx kv txs l Hr _ IH]; csimpl; [done|].
    by rewrite Hr, IH. }
  destruct (Hwire {| cache.ConjunctionId := conjID;
                     cache.FieldData := list_to_map l |})
    as (data & Hm & Hu).
  set (b1 := set_builderCache (Some (cache_Set c conjID data)) b).
  exists b1, (omap (restore_tx (fieldsData b) (ConjID_Size conjID))
                (map_to_list (list_to_map l : gmap string _))).
  split; [|split; [done|split; [done|split]]].
  - unfold tryCacheIndexingTx, bind, get, modify. simpl. rewrite Hc.
    rewrite (tryCacheIndexingTx_txs_run txs l Hl1), foldl_insert_empty by done.
    by rewrite Hm.
  - unfold tryUseIndexingTxCache. unfold bind at 1. unfold get at 1. simpl.
    rewrite Hcache, Hu. simpl. unfold bind at 1.
    rewrite tryUseIndexingTxCache_fields_run; [done|].
    intros kv Hkv. simpl.
    assert (Hin : kv ∈ l).
    { by rewrite <- (map_to_list_to_map (M := gmap string) l Hndl). }
    clear -Hin Hl2. induction Hl2 as [|tx kv' txs l Hr _ IH].
    + by apply elem_of_nil in Hin.
    + apply elem_of_cons in Hin as [->|Hin]; [by eexists|by apply IH].
  - rewrite (map_to_list_to_map (M := gmap string) l Hndl).
    by rewrite Hrestore.
Qed.

(** X22. Adding documents in one call or in several is the same: when
    [AddDocument] on a first batch returns without error, [AddDocument] on
    that batch followed by a second one ends as [AddDocument] on the second
    batch does from the builder the first call left. *)
Theorem AddDocument_batches (docs1 docs2 : list (option (Document Expr)))
    (b b1 : IndexerBuilder) :
  AddDocument docs1 b = (Returned None, b1) ->
  AddDocument (docs1 ++ docs2) b = AddDocument docs2 b1.
Proof.
  intros Hfirst. by rewrite BuilderProofs.AddDocument_app, Hfirst.
Qed.

(** X23. [Reset] drops the index and keeps the configuration: on a builder
    of a supported type it returns with a new, empty index of that type
    (no wildcard entry, new holders) and a reset cache, while the fields
    with their IDs, the failure policy and the id allocator are as before,
    so that a field configured before the reset is still served with the
    same descriptor; on a builder of an unsupported type it panics without
    touching anything, the cache included. *)
Theorem Reset_keeps_configuration (b : IndexerBuilder) :
  (indexerType b = IndexerTypeDefault \/ indexerType b = IndexerTypeCompact ->
   exists b',
     Reset b = (Returned tt, b') /\
     indexer b' = (if indexerType b =? IndexerTypeDefault
                   then NewKGroupsBEIndex else NewCompactedBEIndex) /\
     wildcardEntries (indexer b') = [] /\
     builderCache b' = cache_Reset <$> builderCache b /\
     fieldsData b' = fieldsData b /\
     badConjBehavior b' = badConjBehavior b /\
     idAllocator b' = idAllocator b /\
     (forall fld desc, fieldsData b !! fld = Some desc ->
        createFieldData fld b' = (Returned desc, b'))) /\
  (indexerType b <> IndexerTypeDefault -> indexerType b <> IndexerTypeCompact ->
   exists msg, Reset b = (Panicked msg, b)).
Proof.
  split.
  - intros Htype.
    assert (Hrun : exists b',
              Reset b = (Returned tt, b') /\
              indexer b' = (if indexerType b =? IndexerTypeDefault
                            then NewKGroupsBEIndex else NewCompactedBEIndex) /\
              builderCache b' = cache_Reset <$> builderCache b /\
              fieldsData b' = fieldsData b /\
              badConjBehavior b' = badConjBehavior b /\
              idAllocator b' = idAllocator b).
    { unfold Reset, initIndexer, bind, get, modify, ret. simpl.
      destruct Htype as [Ht|Ht]; rewrite Ht; simpl;
        destruct (builderCache b) as [c|] eqn:Ec; simpl;
        eexists; (split; [reflexivity|]); simpl; rewrite ?Ec; by repeat split. }
    destruct Hrun as (b' & E & Hi & Hc & Hf & Hp & Ha).
    exists b'. split; [done|]. split; [done|]. split.
    { rewrite Hi. by destruct (indexerType b =? IndexerTypeDefault). }
    split; [done|]. split; [done|]. split; [done|]. split; [done|].
    intros fld desc Hd. unfold createFieldData, bind, get. simpl.
    by rewrite Hf, Hd.
  - intros Hd Hc. unfold Reset, initIndexer, bind, get, panic. simpl.
    apply Z.eqb_neq in Hd, Hc. rewrite Hd, Hc. by eexists.
Qed.

End builder_extras.
End BuilderExtras.

(** * Properties of the retrieve context *)

Module RetrieveExtras.
Import Retrieve.

Section retrieve_extras.
Context {ResultCollector Assignments : Type}.

Abbreviation Opt := (@IndexOpt ResultCollector).
Abbreviation Ctx := (@retrieveContext ResultCollector Assignments).

Lemma newRetrieveCtx_snoc (ass : Assignments) (opts : list Opt) (fn : Opt) :
  newRetrieveCtx ass (opts ++ [fn]) = applyOpt fn (newRetrieveCtx ass opts).
Proof. unfold newRetrieveCtx. by rewrite foldl_app. Qed.


End retrieve_extras.
End RetrieveExtras.

(** * Properties of the brute-force matcher *)

Module OracleExtras.

Section oracle_extras.
Variable ContainInt : list Z -> Z -> bool.
Hypothesis ContainInt_spec : forall values v, ContainInt values v = true <-> v ∈ values.

Lemma valueMatch_queries_spec (values queries : list Z) :
  Oracle.valueMatch_queries ContainInt values queries = true <->
  exists v, v ∈ queries /\ v ∈ values.
Proof.
  induction queries as [|q queries IH]; simpl.
  - split; [done|]. by intros (v & ?%elem_of_nil & _).
  - destruct (ContainInt values q) eqn:E.
    + split; [|done]. intros _. exists q. split; [left|].
      by apply ContainInt_spec.
    + rewrite IH. split.
      * intros (v & Hq & Hv). exists v. split; [by right|done].
      * intros (v & [->|Hq]%elem_of_cons & Hv); [|by exists v].
        apply ContainInt_spec in Hv. congruence.
Qed.

Lemma valueMatch_spec (values queries : list Z) :
  Oracle.valueMatch ContainInt values queries = true <->
  values = [] \/ exists v, v ∈ queries /\ v ∈ values.
Proof.
  unfold Oracle.valueMatch. destruct values as [|x values].
  - simpl. split; [by left|done].
  - change (len (x :: values) =? 0) with false.
    rewrite valueMatch_queries_spec. split; [by right|]. by intros [?|?].
Qed.

(** X25. The brute-force matcher of the tests, given that
    [util.ContainInt] is list membership: a target matches a query exactly
    when each of its four fields either lists no value (the field is
    unconstrained) or shares a value with the query on that field.  So a
    target without values matches every query, and a field with values is
    never matched by an empty query on it. *)
Theorem Match_spec (t : Oracle.MockTargeting) (a b c d : list Z) :
  Oracle.Match ContainInt t a b c d = true <->
  (Oracle.A t = [] \/ exists v, v ∈ a /\ v ∈ Oracle.A t) /\
  (Oracle.B t = [] \/ exists v, v ∈ b /\ v ∈ Oracle.B t) /\
  (Oracle.C t = [] \/ exists v, v ∈ c /\ v ∈ Oracle.C t) /\
  (Oracle.D t = [] \/ exists v, v ∈ d /\ v ∈ Oracle.D t).
Proof.
  rewrite <- !valueMatch_spec. unfold Oracle.Match.
  destruct (Oracle.valueMatch ContainInt (Oracle.A t) a),
    (Oracle.valueMatch ContainInt (Oracle.B t) b),
    (Oracle.valueMatch ContainInt (Oracle.C t) c),
    (Oracle.valueMatch ContainInt (Oracle.D t) d); simpl;
    split; try done; intros (? & ? & ? & ?); done.
Qed.

End oracle_extras.
End OracleExtras.

(** * The further properties on sample inputs *)

Module ExtraExamples.
Import Sample SampleMore.

#[local] Existing Instance collaborators.

(** X1 on the holder of three appends: the values 1, 2, 1 of field [age] parse to the token ids 1, 2, 1. *)
Lemma AddFieldEID_appends_witness :
  let r := Holder.AddFieldEID NewKey age [1; 2; 1] 7 threeAppends in
  r.1 = None /\
  (forall key,
     Holder.plEntries r.2 !! key =
     HolderMore.appended (Holder.plEntries threeAppends !! key)
       (length (filter (fun id => NewKey (Holder.ID age) id = key) [1; 2; 1])) 7) /\
  Holder.debug r.2 = Holder.debug threeAppends /\
  Holder.maxLen r.2 = Holder.maxLen threeAppends /\
  Holder.avgLen r.2 = Holder.avgLen threeAppends.
Proof.
  apply (HolderExtras.AddFieldEID_appends NewKey age [1; 2; 1] 7 threeAppends
           [1; 2; 1]).
  reflexivity.
Defined.

(** X2: the third value, -1, is rejected by the parser. *)
Lemma AddFieldEID_stops_at_first_error_witness :
  Holder.AddFieldEID NewKey age ([1; 2] ++ -1 :: [3]) 7 emptyHolder =
  (Some (ErrParseValueFail "age" (ExternalError "negative value")),
   (Holder.AddFieldEID NewKey age [1; 2] 7 emptyHolder).2).
Proof.
  apply (HolderExtras.AddFieldEID_stops_at_first_error NewKey age [1; 2] [3]
           (-1) 7 emptyHolder [1; 2] (ExternalError "negative value"));
    reflexivity.
Defined.

(** X4: entry 7 is added for the values 1 and 2, and found under the value 1. *)
Lemma added_entry_is_found_witness :
  let h1 := (Holder.AddFieldEID NewKey age [1; 2] 7 threeAppends).2 in
  let h2 := (Holder.CompileEntries h1).2 in
  exists P,
    Holder.GetEntries NewKey newQKey NewEntriesCursor age [1] h2 =
      (([NewEntriesCursor (newQKey "age" 1) P], None), h2) /\
    7 ∈ P /\ Sorted Z.le P.
Proof.
  apply (HolderExtras.added_entry_is_found NewKey newQKey NewEntriesCursor age
           [1; 2] 7 threeAppends [1; 2] 1 1).
  - reflexivity.
  - by left.
  - reflexivity.
Defined.

(** X6: the map of the holder of three appends visited in reverse. *)
Lemma makeEntriesSorted_order_irrelevant_witness :
  HolderMore.makeEntriesSorted_visiting
    (reverse (map_to_list (Holder.plEntries threeAppends))) threeAppends =
  Holder.makeEntriesSorted threeAppends.
Proof.
  apply (HolderExtras.makeEntriesSorted_order_irrelevant
           (reverse (map_to_list (Holder.plEntries threeAppends))) threeAppends).
  apply reverse_Permutation.
Defined.

(** X7: a query with the values 1 and 4, of which only 1 has entries. *)
Lemma GetEntries_at_most_one_cursor_per_token_witness :
  let r := (Holder.GetEntries NewKey newQKey NewEntriesCursor age [1; 4]
              threeAppends).1 in
  r.2 = None /\
  (length r.1 <= length (concat [(1, [1]); (4, [4])].*2))%nat /\
  (Forall (fun id => default [] (Holder.plEntries threeAppends
                                   !! NewKey (Holder.ID age) id) = [])
          (concat [(1, [1]); (4, [4])].*2) ->
   r.1 = []).
Proof.
  apply (HolderExtras.GetEntries_at_most_one_cursor_per_token NewKey newQKey
           NewEntriesCursor age [1; 4] threeAppends [(1, [1]); (4, [4])]).
  reflexivity.
Defined.

(** X8 on the keys (0, 1) and (0, 2). *)
Lemma AppendEntryID_commutes_witness :
  (Holder.AppendEntryID (NewKey 0 2) 5
     (Holder.AppendEntryID (NewKey 0 1) 9 emptyHolder).2).2 =
  (Holder.AppendEntryID (NewKey 0 1) 9
     (Holder.AppendEntryID (NewKey 0 2) 5 emptyHolder).2).2.
Proof.
  apply (HolderExtras.AppendEntryID_commutes (NewKey 0 1) (NewKey 0 2) 9 5
           emptyHolder).
  discriminate.
Defined.

(** X9: the entries 9 and 3 of key (0, 1) were appended in either order; the holders differ before they are compiled, not after. *)
Lemma CompileEntries_forgets_insertion_order_witness :
  Holder.plEntries threeAppends <> Holder.plEntries threeAppendsSwapped /\
  (Holder.CompileEntries threeAppends).2 =
  (Holder.CompileEntries threeAppendsSwapped).2.
Proof.
  split.
  - intros E. apply (f_equal (fun m => m !! NewKey 0 1)) in E.
    vm_compute in E. discriminate.
  - apply (HolderExtras.CompileEntries_forgets_insertion_order threeAppends
             threeAppendsSwapped); try reflexivity.
    intros key.
    change (Holder.plEntries threeAppends)
      with (<[NewKey 0 2 := [5]]> (<[NewKey 0 1 := [9; 3]]>
              (∅ : gmap (Z * Z) (list Z)))).
    change (Holder.plEntries threeAppendsSwapped)
      with (<[NewKey 0 2 := [5]]> (<[NewKey 0 1 := [3; 9]]>
              (∅ : gmap (Z * Z) (list Z)))).
    destruct (decide (key = NewKey 0 2)) as [->|];
      [by rewrite !lookup_insert_eq|].
    rewrite !lookup_insert_ne by done.
    destruct (decide (key = NewKey 0 1)) as [->|];
      [rewrite !lookup_insert_eq; apply perm_swap|].
    rewrite !lookup_insert_ne by done. by rewrite lookup_empty.
Defined.

(** X10: the queries [[1]] and [[2]] put together. *)
Lemma GetEntries_app_witness :
  let Get a := (Holder.GetEntries NewKey newQKey NewEntriesCursor age a
                  threeAppends).1 in
  Get ([1] ++ [2]) = ((Get [1]).1 ++ (Get [2]).1, None).
Proof.
  cbv zeta.
  apply (proj1 (HolderExtras.GetEntries_app NewKey newQKey NewEntriesCursor age
                  [1] [2] threeAppends)); reflexivity.
Defined.

(** The field table of [cachingBuilder] is well formed. *)
Lemma fields_ok_cachingBuilder :
  BuilderMore.fields_ok (Builder.fieldsData cachingBuilder).
Proof.
  refine (BuilderExtras.fields_ok_insert (<["a"%string := descA]> ∅) "b"
            (Builder.Option descB) _ _); [reflexivity|].
  refine (BuilderExtras.fields_ok_insert ∅ "a" (Builder.Option descA) _ _);
    [reflexivity|].
  split; intros *; rewrite lookup_empty; discriminate.
Defined.

(** X11: a document on the new field [c] is added to a builder that has the fields [a] and [b]. *)
Lemma AddDocument_keeps_field_ids_witness :
  let b := cachingBuilder in
  let b' := (Builder.AddDocument
               [Some (document 7 [conjunction [("c"%string, [In_ [1]])]])] b).2 in
  BuilderMore.fields_ok (Builder.fieldsData b') /\
  (forall f d, Builder.fieldsData b !! f = Some d ->
     Builder.fieldsData b' !! f = Some d).
Proof.
  apply (BuilderExtras.AddDocument_keeps_field_ids
           [Some (document 7 [conjunction [("c"%string, [In_ [1]])]])]
           cachingBuilder).
  apply fields_ok_cachingBuilder.
Defined.

(** X13: field [a] is configured with a container of its own, then once more. *)
Lemma ConfigField_then_duplicate_witness :
  let b := newBuilder Builder.ErrorBadConj None in
  let opt := {| Builder.Parser := "number"; Builder.Container := "mine" |} in
  exists b' desc,
    Builder.ConfigField "a" opt b = (Builder.Returned tt, b') /\
    Builder.createFieldData "a" b' = (Builder.Returned desc, b') /\
    Builder.ID desc = Z.of_nat (size (Builder.fieldsData b)) /\
    Builder.Parser (Builder.Option desc) = Builder.Parser opt /\
    (Builder.Container opt <> EmptyString ->
       Builder.Container (Builder.Option desc) = Builder.Container opt) /\
    exists msg, Builder.ConfigField "a" opt b' = (Builder.Panicked msg, b').
Proof.
  apply (BuilderExtras.ConfigField_then_duplicate "a"
           {| Builder.Parser := "number"; Builder.Container := "mine" |}
           {| Builder.Parser := "number"; Builder.Container := "mine" |}
           (newBuilder Builder.ErrorBadConj None)).
  reflexivity.
Defined.

(** X15: a nil document after a good one. *)
Lemma AddDocument_nil_document_panics_witness :
  let b := newBuilder Builder.ErrorBadConj None in
  let docs1 := [Some (document 7 [goodConj])] in
  exists msg,
    Builder.AddDocument (docs1 ++ None :: [Some (document 8 [goodConj])]) b =
    (Builder.Panicked msg, (Builder.AddDocument docs1 b).2).
Proof.
  apply (BuilderExtras.AddDocument_nil_document_panics
           [Some (document 7 [goodConj])] [Some (document 8 [goodConj])]
           (newBuilder Builder.ErrorBadConj None)).
  reflexivity.
Defined.

(** X17: under Skip the bad conjunction of document 7 is passed over, and the error returned is the one of the empty document 8. *)
Lemma AddDocument_skip_returns_validation_errors_only_witness :
  let b := newBuilder Builder.SkipBadConj None in
  let docs := [Some (document 7 [badConj]); Some (document 8 [])] in
  (Builder.AddDocument docs b).1 = Builder.Returned (Some ErrNoConjunctions) /\
  (ErrNoConjunctions = ErrNoConjunctions \/
   ErrNoConjunctions = ErrTooManyConjunctions).
Proof.
  split; [reflexivity|].
  apply (BuilderExtras.AddDocument_skip_returns_validation_errors_only
           [Some (document 7 [badConj]); Some (document 8 [])]
           (newBuilder Builder.SkipBadConj None)
           (Builder.AddDocument
              [Some (document 7 [badConj]); Some (document 8 [])]
              (newBuilder Builder.SkipBadConj None)).2);
    reflexivity.
Defined.

(** X18 on a document with a conjunction of size 1 and one of size 0. *)
Lemma buildDocEntries_wildcard_entries_witness :
  let b := newBuilder Builder.ErrorBadConj None in
  let doc := document 7 [goodConj; onlyExclude] in
  Builder.wildcardEntries
    (Builder.indexer (Builder.buildDocEntries doc b).2) =
  Builder.wildcardEntries (Builder.indexer b) ++
  BuilderMore.wildcards_of 7 0 [goodConj; onlyExclude].
Proof.
  apply (BuilderExtras.buildDocEntries_wildcard_entries
           (document 7 [goodConj; onlyExclude])
           (newBuilder Builder.ErrorBadConj None)).
  reflexivity.
Defined.


(** X14 on options of the caller's own: an option that configures a field
    leaves the field in the new builder, and a nil option or one that
    configures a field twice makes the constructor panic. *)
Example NewCompactIndexerBuilder_own_options :
  let opt := {| Builder.Parser := "number"; Builder.Container := "mine" |} in
  (exists b,
     Builder.NewCompactIndexerBuilder
       [Some (Builder.ConfigField "a" opt);
        Builder.WithBadConjBehavior Builder.SkipBadConj] = Builder.Returned b /\
     Builder.indexerType b = Builder.IndexerTypeCompact /\
     Builder.badConjBehavior b = Builder.SkipBadConj /\
     Builder.fieldsData b !! "a"%string =
       Some {| Builder.ID := 0; Builder.Field := "a"; Builder.Option := opt |}) /\
  Builder.NewCompactIndexerBuilder [None] =
    Builder.Panicked "invalid memory address or nil pointer dereference" /\
  Builder.NewCompactIndexerBuilder
    [Some (Builder.ConfigField "a" opt); Some (Builder.ConfigField "a" opt)] =
    Builder.Panicked "config field with option fail".
Proof.
  split; [|split; reflexivity].
  eexists. split; [reflexivity|]. repeat split; reflexivity.
Qed.

(** X20 on a conjunction with two expressions on one field. *)
Lemma indexingConjunction_one_tx_per_expression_witness :
  let b := newBuilder Builder.ErrorBadConj None in
  let conjID := NewConjID 7 0 2 in
  exists txs needCache b',
    Builder.indexingConjunction twoOnOneField conjID b =
      (Builder.Returned (Ok (txs, needCache)), b') /\
    Forall2 (fun tx (fe : string * BoolExpr) =>
               Builder.fieldsData b' !! fe.1 = Some (Builder.field tx) /\
               Builder.holder tx =
                 Builder.CreateHolder (ConjID_Size conjID) (Builder.field tx) /\
               Builder.EID tx = NewEntryID conjID (incl fe.2))
            txs (BuilderMore.conj_exprs twoOnOneField) /\
    length txs = length (BuilderMore.conj_exprs twoOnOneField) /\
    (needCache = true <->
     Exists (fun tx => Builder.BetterToCache (Builder.Data tx) = true) txs) /\
    Builder.indexer b' = Builder.indexer b.
Proof.
  eexists. eexists. eexists. split; [reflexivity|].
  apply (BuilderExtras.indexingConjunction_one_tx_per_expression twoOnOneField
           (NewConjID 7 0 2) (newBuilder Builder.ErrorBadConj None)).
  reflexivity.
Defined.

(** X21: two transactions, on the fields [a] and [b], are cached and read back. *)
Lemma cache_round_trip_witness :
  exists b1 cached,
    Builder.tryCacheIndexingTx (NewConjID 7 0 2) twoTxs cachingBuilder =
      (Builder.Returned tt, b1) /\
    Builder.indexer b1 = Builder.indexer cachingBuilder /\
    Builder.fieldsData b1 = Builder.fieldsData cachingBuilder /\
    Builder.tryUseIndexingTxCache (NewConjID 7 0 2) b1 =
      (Builder.Returned cached, b1) /\
    cached ≡ₚ twoTxs.
Proof.
  apply (BuilderExtras.cache_round_trip (NewConjID 7 0 2) twoTxs cachingBuilder ∅).
  - reflexivity.
  - apply NoDup_ListNoDup. repeat constructor; simpl; intuition discriminate.
  - constructor; [|constructor; [|constructor]].
    + split; [reflexivity|]. split; [reflexivity|].
      eexists. split; reflexivity.
    + split; [reflexivity|]. split; [reflexivity|].
      eexists. split; reflexivity.
  - intros msg. exists msg. split; reflexivity.
  - intros c k v. apply lookup_insert_eq.
Defined.

(** X22: two documents, added together or one after the other. *)
Lemma AddDocument_batches_witness :
  let b := newBuilder Builder.ErrorBadConj None in
  let docs1 := [Some (document 7 [goodConj])] in
  let docs2 := [Some (document 8 [onlyExclude])] in
  Builder.AddDocument (docs1 ++ docs2) b =
  Builder.AddDocument docs2 (Builder.AddDocument docs1 b).2.
Proof.
  apply (BuilderExtras.AddDocument_batches
           [Some (document 7 [goodConj])] [Some (document 8 [onlyExclude])]
           (newBuilder Builder.ErrorBadConj None)).
  reflexivity.
Defined.

(** X25 with the linear scan for [util.ContainInt]. *)
Lemma Match_spec_witness :
  Oracle.Match ContainInt target [2; 9] [] [4] [7] = true <->
  (Oracle.A target = [] \/ exists v, v ∈ [2; 9] /\ v ∈ Oracle.A target) /\
  (Oracle.B target = [] \/ exists v, v ∈ [] /\ v ∈ Oracle.B target) /\
  (Oracle.C target = [] \/ exists v, v ∈ [4] /\ v ∈ Oracle.C target) /\
  (Oracle.D target = [] \/ exists v, v ∈ [7] /\ v ∈ Oracle.D target).
Proof.
  apply (OracleExtras.Match_spec ContainInt).
  intros values v. induction values as [|x values IH]; simpl.
  - split; [discriminate|]. intros Hin. inversion Hin.
  - destruct (Z.eqb_spec x v) as [->|Hne].
    + split; [intros _; left|reflexivity].
    + rewrite IH. split; [intros Hin; by right|].
      intros Hin. inversion Hin; [congruence|assumption].
Defined.
End ExtraExamples.
